(** * keep-alive: the bounded, policy-filtered component cache

    A shallow embedding of [src/core/components/keep-alive.ts] and the
    properties of its cache: the recency order, admission with eviction,
    policy pruning and teardown. *)

From Stdlib Require Import List String Ascii ZArith NArith Bool Lia Arith.
From Stdlib Require Import Permutation DecimalString DecimalN DecimalPos.
Import ListNotations.

Local Open Scope string_scope.
Local Open Scope list_scope.

(** ** The host language: the pieces of JavaScript the component relies on *)

Module JS.

(** ToBoolean on a string: only the empty string is falsy. *)
Definition truthy_string (s : string) : bool :=
  negb (s =? "").

(** ToBoolean on [string | undefined]. *)
Definition truthy (o : option string) : bool :=
  match o with
  | Some s => truthy_string s
  | None => false
  end.

(** [a || b] on [string | undefined]. *)
Definition or_else (a b : option string) : option string :=
  if truthy a then a else b.

(** [a !== b] on [string | undefined]. *)
Definition strict_neq (a b : option string) : bool :=
  match a, b with
  | Some x, Some y => negb (x =? y)
  | None, None => false
  | _, _ => true
  end.

(** [arr.indexOf(x) > -1] on an array of strings. *)
Definition includes (arr : list string) (x : string) : bool :=
  existsb (String.eqb x) arr.

Definition comma : ascii := ","%char.

(** [s.split(',')]: the segments between commas; never empty. *)
Fixpoint split_comma (s : string) : list string :=
  match s with
  | EmptyString => [ "" ]
  | String c rest =>
      if Ascii.eqb c comma then "" :: split_comma rest
      else match split_comma rest with
           | seg :: segs => String c seg :: segs
           | [] => [ String c "" ]
           end
  end.

(** [segs.join(',')]. *)
Fixpoint join_comma (segs : list string) : string :=
  match segs with
  | [] => ""
  | [ seg ] => seg
  | seg :: more => seg ++ String comma (join_comma more)
  end.

Fixpoint has_comma (s : string) : bool :=
  match s with
  | EmptyString => false
  | String c rest => Ascii.eqb c comma || has_comma rest
  end.

(** ToString on a non-negative integral Number. *)
Definition number_to_string (n : N) : string :=
  NilZero.string_of_uint (N.to_uint n).

(** *** [parseInt] with no radix argument

    A string is held as the bytes of its UTF-8 form.  [parseInt] begins by
    skipping white space and line terminators: TAB, LF, VT, FF, CR and
    SPACE, of one byte each; U+00A0, of two; and U+1680, U+2000 to U+200A,
    U+2028, U+2029, U+202F, U+205F, U+3000 and U+FEFF, of three.  A byte 160
    on its own, which begins no character of a UTF-8 text, is read as the
    no-break space it is in Latin-1. *)

Definition is_white_space (c : ascii) : bool :=
  let n := nat_of_ascii c in
  ((9 <=? n) && (n <=? 13))%nat || (n =? 32)%nat || (n =? 160)%nat.

(** U+00A0 is C2 A0. *)
Definition is_white_space2 (c1 c2 : ascii) : bool :=
  ((nat_of_ascii c1 =? 194) && (nat_of_ascii c2 =? 160))%nat.

(** U+1680 is E1 9A 80; U+2000 to U+200A are E2 80 80 to E2 80 8A; U+2028,
    U+2029 and U+202F are E2 80 A8, E2 80 A9 and E2 80 AF; U+205F is
    E2 81 9F; U+3000 is E3 80 80; U+FEFF is EF BB BF. *)
Definition is_white_space3 (c1 c2 c3 : ascii) : bool :=
  let n1 := nat_of_ascii c1 in
  let n2 := nat_of_ascii c2 in
  let n3 := nat_of_ascii c3 in
  ((n1 =? 225) && (n2 =? 154) && (n3 =? 128)
   || (n1 =? 226) && (n2 =? 128)
      && ((128 <=? n3) && (n3 <=? 138)
          || (n3 =? 168) || (n3 =? 169) || (n3 =? 175))
   || (n1 =? 226) && (n2 =? 129) && (n3 =? 159)
   || (n1 =? 227) && (n2 =? 128) && (n3 =? 128)
   || (n1 =? 239) && (n2 =? 187) && (n3 =? 191))%nat.

Fixpoint skip_white_space (s : string) : string :=
  match s with
  | String c1 rest1 =>
      if is_white_space c1 then skip_white_space rest1
      else
        match rest1 with
        | String c2 rest2 =>
            if is_white_space2 c1 c2 then skip_white_space rest2
            else
              match rest2 with
              | String c3 rest3 =>
                  if is_white_space3 c1 c2 c3 then skip_white_space rest3
                  else s
              | EmptyString => s
              end
        | EmptyString => s
        end
  | EmptyString => s
  end.

Definition digit_value (radix : Z) (c : ascii) : option Z :=
  let n := Z.of_nat (nat_of_ascii c) in
  let v :=
    (if (48 <=? n)%Z && (n <=? 57)%Z then Some (n - 48)
     else if (97 <=? n)%Z && (n <=? 122)%Z then Some (n - 87)
     else if (65 <=? n)%Z && (n <=? 90)%Z then Some (n - 55)
     else None)%Z in
  match v with
  | Some d => if (d <? radix)%Z then Some d else None
  | None => None
  end.

(** The longest prefix of digits, read in [radix]; [None] when it is
    empty (the result is NaN). *)
Fixpoint parse_digits (radix : Z) (s : string) (acc : option Z) : option Z :=
  match s with
  | EmptyString => acc
  | String c rest =>
      match digit_value radix c with
      | Some d =>
          parse_digits radix rest
            (Some (match acc with Some a => a * radix + d | None => d end)%Z)
      | None => acc
      end
  end.

Definition strip_hex_prefix (s : string) : option string :=
  match s with
  | String "0" (String "x" rest) => Some rest
  | String "0" (String "X" rest) => Some rest
  | _ => None
  end.

(** [parseInt(s)]; [None] is NaN. *)
Definition parseInt_string (s : string) : option Z :=
  let s1 := skip_white_space s in
  let '(sign, s2) :=
    match s1 with
    | String "-" rest => ((-1)%Z, rest)
    | String "+" rest => (1%Z, rest)
    | _ => (1%Z, s1)
    end in
  let magnitude :=
    match strip_hex_prefix s2 with
    | Some digits => parse_digits 16 digits None
    | None => parse_digits 10 s2 None
    end in
  option_map (Z.mul sign) magnitude.

(** *** Objects used as string-keyed maps

    An object created by [Object.create(null)] is a list of its own
    properties in creation order.  Assigning an existing property keeps
    its place; assigning a new one appends it. *)

Section Object.
Context {V : Type}.

Definition object := list (string * V).

Fixpoint get (o : object) (k : string) : option V :=
  match o with
  | [] => None
  | (k', v) :: rest => if k' =? k then Some v else get rest k
  end.

Fixpoint set (o : object) (k : string) (v : V) : object :=
  match o with
  | [] => [ (k, v) ]
  | (k', v') :: rest =>
      if k' =? k then (k', v) :: rest else (k', v') :: set rest k v
  end.

Definition property_names (o : object) : list string := map fst o.
End Object.
Arguments object V : clear implicits.

(** A property name is an array index when it is the canonical decimal
    form of an integer below 2^32 - 1. *)
Definition is_decimal_digit (c : ascii) : bool :=
  let n := nat_of_ascii c in ((48 <=? n) && (n <=? 57))%nat.

Fixpoint all_decimal_digits (s : string) : bool :=
  match s with
  | EmptyString => true
  | String c rest => is_decimal_digit c && all_decimal_digits rest
  end.

Definition array_index (s : string) : option Z :=
  match s with
  | EmptyString => None
  | String c rest =>
      if all_decimal_digits s && (negb (Ascii.eqb c "0"%char) || (rest =? ""))
      then match parse_digits 10 s None with
           | Some n => if (n <? 4294967295)%Z then Some n else None
           | None => None
           end
      else None
  end.

Fixpoint insert_index (x : Z * string) (l : list (Z * string)) : list (Z * string) :=
  match l with
  | [] => [ x ]
  | y :: rest => if (fst x <=? fst y)%Z then x :: l else y :: insert_index x rest
  end.

Definition sort_indices (l : list (Z * string)) : list (Z * string) :=
  fold_right insert_index [] l.

Fixpoint index_names (names : list string) : list (Z * string) :=
  match names with
  | [] => []
  | k :: rest =>
      match array_index k with
      | Some n => (n, k) :: index_names rest
      | None => index_names rest
      end
  end.

Definition is_array_index (k : string) : bool :=
  match array_index k with Some _ => true | None => false end.

(** The order in which [for (const key in o)] visits the own
    properties of [o]: array indices in ascending numeric order, then
    the other names in creation order. *)
Definition for_in_keys {V} (o : object V) : list string :=
  map snd (sort_indices (index_names (property_names o)))
  ++ filter (fun k => negb (is_array_index k)) (property_names o).

End JS.

(** ** The data model *)

(** A component instance is known by its identity; the one thing the
    cache does with an instance is to call [$destroy] on it. *)
Definition Component := nat.

(** A regular expression is modelled by the set of strings it accepts
    (a pattern without the sticky and global flags, whose [test] has no
    state). *)
Module RegExp.
Record t := { test : string -> bool }.
End RegExp.

(** [string | RegExp | Array<string>], the type of [include] and [exclude]. *)
Inductive Pattern :=
| PString (s : string)
| PRegExp (r : RegExp.t)
| PArray (l : list string).

(** [String | Number], the type of [max]; a Number is integral and below
    10^21 in magnitude, where ToString writes all of its digits. *)
Inductive MaxProp :=
| MaxString (s : string)
| MaxNumber (n : Z).

(** The constructor of a component: its [cid], and what
    [getComponentName(Ctor.options)] of [vdom/create-component] answers
    for it (that helper is outside this file and is given by the host). *)
Module Ctor.
Record t := { cid : N; options_name : option string }.
End Ctor.

Module VNodeComponentOptions.
Record t := { Ctor : Ctor.t; tag : option string }.
End VNodeComponentOptions.

Module VNodeData.
Record t := { keepAlive : bool }.
End VNodeData.

(** The fields of a virtual node that the component reads and writes.
    [key] is a string, as the type of [keys] and of the cache has it.
    [componentInstance] is the instance the host has mounted for the node
    by the time the [mounted]/[updated] hook runs. *)
Module VNode.
Record t := {
  tag : option string;
  key : option string;
  data : option VNodeData.t;
  componentOptions : option VNodeComponentOptions.t;
  componentInstance : option Component
}.

Definition with_componentInstance (v : t) (i : option Component) : t :=
  {| tag := tag v; key := key v; data := data v;
     componentOptions := componentOptions v; componentInstance := i |}.

Definition with_data (v : t) (d : VNodeData.t) : t :=
  {| tag := tag v; key := key v; data := Some d;
     componentOptions := componentOptions v;
     componentInstance := componentInstance v |}.
End VNode.

Module CacheEntry.
Record t := {
  name : option string;
  tag : option string;
  componentInstance : option Component
}.
End CacheEntry.

(** [Record<string, CacheEntry | null>]: [None] is the [null] tombstone. *)
Definition CacheEntryMap := JS.object (option CacheEntry.t).

(** The keep-alive instance: its props, the fields it creates for itself,
    the node it currently displays, and the record of the [$destroy]
    calls it has made, oldest first. *)
Record KeepAlive := {
  include : option Pattern;
  exclude : option Pattern;
  max : option MaxProp;
  cache : CacheEntryMap;
  keys : list string;
  vnodeToCache : option VNode.t;
  keyToCache : option string;
  _vnode : option VNode.t;
  destroyed_instances : list Component
}.

Definition with_include (this : KeepAlive) (p : option Pattern) : KeepAlive :=
  {| include := p; exclude := exclude this; max := max this;
     cache := cache this; keys := keys this;
     vnodeToCache := vnodeToCache this; keyToCache := keyToCache this;
     _vnode := _vnode this; destroyed_instances := destroyed_instances this |}.

Definition with_exclude (this : KeepAlive) (p : option Pattern) : KeepAlive :=
  {| include := include this; exclude := p; max := max this;
     cache := cache this; keys := keys this;
     vnodeToCache := vnodeToCache this; keyToCache := keyToCache this;
     _vnode := _vnode this; destroyed_instances := destroyed_instances this |}.

Definition with_cache (this : KeepAlive) (c : CacheEntryMap) : KeepAlive :=
  {| include := include this; exclude := exclude this; max := max this;
     cache := c; keys := keys this;
     vnodeToCache := vnodeToCache this; keyToCache := keyToCache this;
     _vnode := _vnode this; destroyed_instances := destroyed_instances this |}.

Definition with_keys (this : KeepAlive) (ks : list string) : KeepAlive :=
  {| include := include this; exclude := exclude this; max := max this;
     cache := cache this; keys := ks;
     vnodeToCache := vnodeToCache this; keyToCache := keyToCache this;
     _vnode := _vnode this; destroyed_instances := destroyed_instances this |}.

Definition with_vnodeToCache (this : KeepAlive) (v : option VNode.t) : KeepAlive :=
  {| include := include this; exclude := exclude this; max := max this;
     cache := cache this; keys := keys this;
     vnodeToCache := v; keyToCache := keyToCache this;
     _vnode := _vnode this; destroyed_instances := destroyed_instances this |}.

Definition with_keyToCache (this : KeepAlive) (k : option string) : KeepAlive :=
  {| include := include this; exclude := exclude this; max := max this;
     cache := cache this; keys := keys this;
     vnodeToCache := vnodeToCache this; keyToCache := k;
     _vnode := _vnode this; destroyed_instances := destroyed_instances this |}.

Definition with_vnode (this : KeepAlive) (v : option VNode.t) : KeepAlive :=
  {| include := include this; exclude := exclude this; max := max this;
     cache := cache this; keys := keys this;
     vnodeToCache := vnodeToCache this; keyToCache := keyToCache this;
     _vnode := v; destroyed_instances := destroyed_instances this |}.

Definition with_destroyed (this : KeepAlive) (l : list Component) : KeepAlive :=
  {| include := include this; exclude := exclude this; max := max this;
     cache := cache this; keys := keys this;
     vnodeToCache := vnodeToCache this; keyToCache := keyToCache this;
     _vnode := _vnode this; destroyed_instances := l |}.

(** ** Computations on the instance: state, and the TypeError a call on
    [undefined] raises *)

Inductive completion (A : Type) :=
| Normal (a : A)
| Throw.
Arguments Normal {A} a.
Arguments Throw {A}.

Definition M (A : Type) := KeepAlive -> completion A * KeepAlive.

Definition ret {A} (a : A) : M A := fun this => (Normal a, this).

Definition bind {A B} (m : M A) (f : A -> M B) : M B :=
  fun this =>
    match m this with
    | (Normal a, this') => f a this'
    | (Throw, this') => (Throw, this')
    end.

Definition throw {A} : M A := fun this => (Throw, this).

Definition modify (f : KeepAlive -> KeepAlive) : M unit :=
  fun this => (Normal tt, f this).

Declare Scope js_scope.
Delimit Scope js_scope with js.
Notation "x <- m ;; k" := (bind m (fun x => k))
  (at level 61, m at next level, right associativity) : js_scope.
Notation "m ;; k" := (bind m (fun _ => k))
  (at level 61, right associativity) : js_scope.
Local Open Scope js_scope.

(** [for (const key in o) body]: the names are fixed when the loop starts
    (no body below adds or deletes a property). *)
Fixpoint for_each (names : list string) (body : string -> M unit) : M unit :=
  match names with
  | [] => ret tt
  | key :: rest => body key ;; for_each rest body
  end.

(** ** The functions of keep-alive.ts *)

(** Modelled from the spec: [remove(arr, item)] of shared/util, which is
    outside this file.  The spec speaks of a linear removal that takes the
    key out of the order and leaves the order of all other keys unchanged:
    the first element equal to [item] is taken out, and an array that does
    not hold [item] is left as it is.  (Which occurrence goes is of no
    account here: the arrays of this component never hold a key twice, see
    [keys_NoDup_reachable].) *)
Fixpoint remove (arr : list string) (item : string) : list string :=
  match arr with
  | [] => []
  | x :: rest => if x =? item then rest else x :: remove rest item
  end.

(** [cache[key]] read as a condition: the entry when there is one, and
    [None] for [undefined] as well as for [null]. *)
Definition entry_at (c : CacheEntryMap) (key : string) : option CacheEntry.t :=
  match JS.get c key with
  | Some (Some entry) => Some entry
  | _ => None
  end.

Definition _getComponentName (opts : option VNodeComponentOptions.t)
  : option string :=
  match opts with
  | Some o =>
      JS.or_else (Ctor.options_name (VNodeComponentOptions.Ctor o))
                 (VNodeComponentOptions.tag o)
  | None => None
  end.

(** [pattern] is [undefined] when a watcher is handed an unset prop. *)
Definition matches (pattern : option Pattern) (name : string) : bool :=
  match pattern with
  | Some (PArray l) => JS.includes l name
  | Some (PString s) => JS.includes (JS.split_comma s) name
  | Some (PRegExp r) => RegExp.test r name
  | None => false
  end.

(** [$destroy()] on [entry.componentInstance], which can be undefined. *)
Definition destroy (instance : option Component) : M unit :=
  match instance with
  | Some i =>
      modify (fun this =>
                with_destroyed this (destroyed_instances this ++ [ i ]))
  | None => throw
  end.

(** [!current || entry.tag !== current.tag] *)
Definition tag_differs (entry : CacheEntry.t) (current : option VNode.t) : bool :=
  match current with
  | None => true
  | Some cur => JS.strict_neq (CacheEntry.tag entry) (VNode.tag cur)
  end.

(** [cache] and [keys] are the arrays of the instance at every call. *)
Definition pruneCacheEntry (key : string) (current : option VNode.t) : M unit :=
  fun this =>
    (match entry_at (cache this) key with
     | Some entry =>
         if tag_differs entry current
         then destroy (CacheEntry.componentInstance entry)
         else ret tt
     | None => ret tt
     end ;;
     modify (fun this => with_cache this (JS.set (cache this) key None)) ;;
     modify (fun this => with_keys this (remove (keys this) key))) this.

Definition pruneCache (filter : string -> bool) : M unit :=
  fun keepAliveInstance =>
    let current := _vnode keepAliveInstance in
    for_each (JS.for_in_keys (cache keepAliveInstance))
      (fun key this =>
         match entry_at (cache this) key with
         | Some entry =>
             match CacheEntry.name entry with
             | Some name =>
                 if JS.truthy_string name && negb (filter name)
                 then pruneCacheEntry key current this
                 else ret tt this
             | None => ret tt this
             end
         | None => ret tt this
         end) keepAliveInstance.

(** ToBoolean on the props. *)
Definition pattern_set (p : option Pattern) : bool :=
  match p with
  | Some (PString s) => JS.truthy_string s
  | Some _ => true
  | None => false
  end.

Definition max_set (m : option MaxProp) : bool :=
  match m with
  | Some (MaxString s) => JS.truthy_string s
  | Some (MaxNumber n) => negb (n =? 0)%Z
  | None => false
  end.

(** [parseInt(this.max)]; [None] is NaN. *)
Definition parseInt (m : MaxProp) : option Z :=
  match m with
  | MaxString s => JS.parseInt_string s
  | MaxNumber n => Some n
  end.

(** [this.max && keys.length > parseInt(this.max)] *)
Definition over_max (m : option MaxProp) (length : nat) : bool :=
  max_set m &&
  match m with
  | Some p =>
      match parseInt p with
      | Some n => (n <? Z.of_nat length)%Z
      | None => false
      end
  | None => false
  end.

Definition cacheVNode : M unit :=
  fun this =>
    match vnodeToCache this with
    | Some vnode =>
        match keyToCache this with
        | Some key =>
            (modify (fun this =>
               with_cache this
                 (JS.set (cache this) key
                    (Some {| CacheEntry.name :=
                               _getComponentName (VNode.componentOptions vnode);
                             CacheEntry.tag := VNode.tag vnode;
                             CacheEntry.componentInstance :=
                               VNode.componentInstance vnode |}))) ;;
             modify (fun this => with_keys this (keys this ++ [ key ])) ;;
             (fun this =>
                if over_max (max this) (List.length (keys this))
                then match keys this with
                     | first :: _ => pruneCacheEntry first (_vnode this) this
                     | [] => ret tt this
                     end
                else ret tt this) ;;
             modify (fun this => with_vnodeToCache this None)) this
        | None =>
            (* never taken: [render] assigns the two fields together, see
               [staged_key_assigned] *)
            ret tt this
        end
    | None => ret tt this
    end.

(** [created]: the props come from the host, the cache starts empty. *)
Definition created (include exclude : option Pattern) (max : option MaxProp)
  : KeepAlive :=
  {| include := include; exclude := exclude; max := max;
     cache := []; keys := [];
     vnodeToCache := None; keyToCache := None;
     _vnode := None; destroyed_instances := [] |}.

Definition destroyed : M unit :=
  fun this =>
    for_each (JS.for_in_keys (cache this))
      (fun key => pruneCacheEntry key None) this.

(** The two watchers that [mounted] registers. *)
Definition include_changed (val : option Pattern) : M unit :=
  pruneCache (fun name => matches val name).

Definition exclude_changed (val : option Pattern) : M unit :=
  pruneCache (fun name => negb (matches val name)).

Definition mounted : M unit := cacheVNode.

Definition updated : M unit := cacheVNode.

(** The two tests of [render] that send a node past the cache. *)
Definition not_included (include : option Pattern) (name : option string) : bool :=
  pattern_set include &&
  match name with
  | Some n => negb (JS.truthy_string n) || negb (matches include n)
  | None => true
  end.

Definition excluded (exclude : option Pattern) (name : option string) : bool :=
  pattern_set exclude &&
  match name with
  | Some n => JS.truthy_string n && matches exclude n
  | None => false
  end.

(** The spec's [isAdmissible]: [render] goes on to the cache. *)
Definition isAdmissible (name : option string) (include exclude : option Pattern)
  : bool :=
  negb (not_included include name || excluded exclude name).

(** The key of a node: its own, or [cid] and the tag of its options. *)
Definition key_of (vnode : VNode.t) (componentOptions : VNodeComponentOptions.t)
  : string :=
  match VNode.key vnode with
  | None =>
      JS.number_to_string (Ctor.cid (VNodeComponentOptions.Ctor componentOptions))
      ++ (if JS.truthy (VNodeComponentOptions.tag componentOptions)
          then "::" ++ match VNodeComponentOptions.tag componentOptions with
                       | Some t => t
                       | None => ""
                       end
          else "")
  | Some k => k
  end.

(** [vnode.data.keepAlive = true]; [vnode.data] can be undefined.  The
    node staged in [vnodeToCache] is this same object. *)
Definition set_keepAlive (staged : bool) (vnode : VNode.t) : M VNode.t :=
  match VNode.data vnode with
  | Some _ =>
      let vnode' := VNode.with_data vnode {| VNodeData.keepAlive := true |} in
      modify (fun this =>
                if staged then with_vnodeToCache this (Some vnode') else this) ;;
      ret vnode'
  | None => throw
  end.

(** [render]; [vnode] is [getFirstComponentChild(slot)], found by the host
    helper of that name. *)
Definition render (slot : option (list VNode.t)) (vnode : option VNode.t)
  : M (option VNode.t) :=
  match vnode with
  | Some vnode =>
      match VNode.componentOptions vnode with
      | Some componentOptions =>
          let name := _getComponentName (Some componentOptions) in
          fun this =>
            if not_included (include this) name || excluded (exclude this) name
            then ret (Some vnode) this
            else
              let key := key_of vnode componentOptions in
              match entry_at (cache this) key with
              | Some entry =>
                  let vnode :=
                    VNode.with_componentInstance vnode
                      (CacheEntry.componentInstance entry) in
                  (modify (fun this => with_keys this (remove (keys this) key)) ;;
                   modify (fun this => with_keys this (keys this ++ [ key ])) ;;
                   vnode <- set_keepAlive false vnode ;;
                   ret (Some vnode)) this
              | None =>
                  (modify (fun this => with_vnodeToCache this (Some vnode)) ;;
                   modify (fun this => with_keyToCache this (Some key)) ;;
                   vnode <- set_keepAlive true vnode ;;
                   ret (Some vnode)) this
              end
      | None => ret (Some vnode)
      end
  | None =>
      ret (match slot with
           | Some children => hd_error children
           | None => None
           end)
  end.

(** ** The life of an instance

    What the host does to a keep-alive instance after [created]: it calls
    [render], runs the [mounted]/[updated] hook, replaces a prop, runs the
    watcher of a replaced prop, installs the rendered node as [_vnode],
    and in the end runs [destroyed].  A prop is replaced first and its
    watcher runs later, after the next [render]. *)
Inductive Op :=
| Render (slot : option (list VNode.t)) (vnode : option VNode.t)
| Mounted
| Updated
| SetInclude (val : option Pattern)
| SetExclude (val : option Pattern)
| IncludeChanged (val : option Pattern)
| ExcludeChanged (val : option Pattern)
| Patch (vnode : option VNode.t)
| Destroyed.

Definition step (op : Op) : M unit :=
  match op with
  | Render slot vnode => render slot vnode ;; ret tt
  | Mounted => mounted
  | Updated => updated
  | SetInclude val => modify (fun this => with_include this val)
  | SetExclude val => modify (fun this => with_exclude this val)
  | IncludeChanged val => include_changed val
  | ExcludeChanged val => exclude_changed val
  | Patch vnode => modify (fun this => with_vnode this vnode)
  | Destroyed => destroyed
  end.

(** An error of a hook or watcher is handed to the host's handler; the
    instance goes on from the state the call left behind. *)
Fixpoint run (ops : list Op) (this : KeepAlive) : KeepAlive :=
  match ops with
  | [] => this
  | op :: rest => run rest (snd (step op this))
  end.

(** ** What the properties speak about *)

(** The capacity: [max] when it counts at all. *)
Definition capacity (m : option MaxProp) : option Z :=
  if max_set m
  then match m with Some p => parseInt p | None => None end
  else None.

(** The instance a key is cached with. *)
Definition holds_at (this : KeepAlive) (key : string) (i : Component) : Prop :=
  exists entry,
    entry_at (cache this) key = Some entry /\
    CacheEntry.componentInstance entry = Some i.

Definition holds (this : KeepAlive) (i : Component) : Prop :=
  exists key, holds_at this key i.

(** The instance of the pending candidate. *)
Definition stages (this : KeepAlive) (i : Component) : Prop :=
  exists vnode,
    vnodeToCache this = Some vnode /\ VNode.componentInstance vnode = Some i.

(** The [$destroy] calls one [pruneCacheEntry] makes. *)
Definition destroyed_by (key : string) (current : option VNode.t)
  (this : KeepAlive) : list Component :=
  match entry_at (cache this) key with
  | Some entry =>
      if tag_differs entry current
      then match CacheEntry.componentInstance entry with
           | Some i => [ i ]
           | None => []
           end
      else []
  | None => []
  end.

(** The props and the displayed node, which no function of the file
    assigns. *)
Definition same_config (this this' : KeepAlive) : Prop :=
  include this' = include this /\ exclude this' = exclude this /\
  max this' = max this /\ _vnode this' = _vnode this.

Definition same_staged (this this' : KeepAlive) : Prop :=
  vnodeToCache this' = vnodeToCache this /\ keyToCache this' = keyToCache this.

(** The shape of the store in every state the host can bring about:
    [cache] and [keys] in lockstep, no key twice, every cached node
    mounted. *)
Record consistent (this : KeepAlive) : Prop := {
  names_unique : NoDup (JS.property_names (cache this));
  keys_unique : NoDup (keys this);
  lockstep : forall k, In k (keys this) <-> entry_at (cache this) k <> None;
  entries_mounted :
    forall k entry,
      entry_at (cache this) k = Some entry ->
      CacheEntry.componentInstance entry <> None
}.

(** The pending candidate is mounted, has its key, and is not cached. *)
Definition pending (this : KeepAlive) : Prop :=
  forall vnode,
    vnodeToCache this = Some vnode ->
    VNode.componentInstance vnode <> None /\
    exists key, keyToCache this = Some key /\ entry_at (cache this) key = None.

(** The state after [cacheVNode] has stored the candidate and pushed its
    key, before it looks at [max]. *)
Definition admitted (this : KeepAlive) (key : string) (vnode : VNode.t)
  : KeepAlive :=
  with_keys
    (with_cache this
       (JS.set (cache this) key
          (Some {| CacheEntry.name :=
                     _getComponentName (VNode.componentOptions vnode);
                   CacheEntry.tag := VNode.tag vnode;
                   CacheEntry.componentInstance :=
                     VNode.componentInstance vnode |})))
    (keys this ++ [ key ]).

(** Who owns which instance: an instance is cached under one key, the
    pending candidate is not cached, and what was destroyed is gone. *)
Record owned (this : KeepAlive) : Prop := {
  held_once : forall k1 k2 i, holds_at this k1 i -> holds_at this k2 i -> k1 = k2;
  staged_not_held : forall i, stages this i -> ~ holds this i;
  destroyed_once : NoDup (destroyed_instances this);
  destroyed_released : forall i, In i (destroyed_instances this) -> ~ holds this i;
  destroyed_not_staged : forall i, In i (destroyed_instances this) -> ~ stages this i
}.

(** The instances held in the cache. *)
Definition held_instances (c : CacheEntryMap) : list Component :=
  flat_map
    (fun property =>
       match snd property with
       | Some entry =>
           match CacheEntry.componentInstance entry with
           | Some i => [ i ]
           | None => []
           end
       | None => []
       end) c.

(** A run of the host is checked step by step, each step against the
    state it starts from. *)
Fixpoint always (check : Op -> KeepAlive -> bool) (ops : list Op)
  (this : KeepAlive) : bool :=
  match ops with
  | [] => true
  | op :: rest => check op this && always check rest (snd (step op this))
  end.

(** [this'] is [this] after [pruneCacheEntry(cache, key, keys, current)]
    has returned. *)
Definition prunes (key : string) (current : option VNode.t)
  (this this' : KeepAlive) : Prop :=
  cache this' = JS.set (cache this) key None /\
  keys this' = remove (keys this) key /\
  destroyed_instances this' =
    destroyed_instances this ++ destroyed_by key current this /\
  same_config this this' /\ same_staged this this'.

(** [this'] is [this] with some entries taken out and nothing put in. *)
Record recedes (this this' : KeepAlive) : Prop := {
  recedes_config : same_config this this';
  recedes_staged : same_staged this this';
  recedes_names : JS.property_names (cache this') = JS.property_names (cache this);
  recedes_entries :
    forall k entry,
      entry_at (cache this') k = Some entry ->
      entry_at (cache this) k = Some entry;
  recedes_keys : forall k, In k (keys this') -> In k (keys this);
  recedes_length : (List.length (keys this') <= List.length (keys this))%nat;
  recedes_order : exists f, keys this' = filter f (keys this)
}.

(** What [this'] has destroyed since [this]: instances [this] held and
    [this'] does not, each once. *)
Definition releases (this this' : KeepAlive) : Prop :=
  exists delta,
    destroyed_instances this' = destroyed_instances this ++ delta /\
    NoDup delta /\
    forall i, In i delta -> holds this i /\ ~ holds this' i.

(** What [render] makes of the node it is given: it passes the node by
    (no component, or not admissible), finds its key cached, or stages
    it. *)
Inductive Lookup :=
| Bypass
| Hit (key : string) (entry : CacheEntry.t)
| Miss (key : string) (vnode : VNode.t).

Definition lookup (this : KeepAlive) (vnode : option VNode.t) : Lookup :=
  match vnode with
  | Some vnode =>
      match VNode.componentOptions vnode with
      | Some componentOptions =>
          if isAdmissible (_getComponentName (Some componentOptions))
               (include this) (exclude this)
          then
            let key := key_of vnode componentOptions in
            match entry_at (cache this) key with
            | Some entry => Hit key entry
            | None => Miss key vnode
            end
          else Bypass
      | None => Bypass
      end
  | None => Bypass
  end.

(** The node a step stages: the one [render] is given on a miss. *)
Definition staged_by (op : Op) (this : KeepAlive) : option VNode.t :=
  match op with
  | Render _ vnode =>
      match lookup this vnode with
      | Miss _ v => Some v
      | _ => None
      end
  | _ => None
  end.

(** What the host sees to for a node that is staged: by the time the hook
    runs, the node is mounted. *)
Definition mounted_on_miss (op : Op) (this : KeepAlive) : bool :=
  match staged_by op this with
  | Some v =>
      match VNode.componentInstance v with
      | Some _ => true
      | None => false
      end
  | None => true
  end.

(** And the instance it is mounted with is alive and not in the cache: the
    host builds a new instance for the node, or goes on with the one on
    display when the node takes its place. *)
Definition hosted (op : Op) (this : KeepAlive) : bool :=
  match staged_by op this with
  | Some v =>
      match VNode.componentInstance v with
      | Some i =>
          negb (existsb (Nat.eqb i) (destroyed_instances this)) &&
          negb (existsb (Nat.eqb i) (held_instances (cache this)))
      | None => false
      end
  | None => true
  end.

Definition all_mounted : list Op -> KeepAlive -> bool := always mounted_on_miss.

Definition well_hosted : list Op -> KeepAlive -> bool := always hosted.

(** What a step has destroyed: instances the store held, or had pending,
    before the step, and does not hold after it. *)
Definition discards (this this' : KeepAlive) : Prop :=
  exists delta,
    destroyed_instances this' = destroyed_instances this ++ delta /\
    forall i, In i delta -> (holds this i \/ stages this i) /\ ~ holds this' i.

(** The test [pruneCache] puts an entry to: [name && !filter(name)]. *)
Definition fails (filter : string -> bool) (entry : CacheEntry.t) : bool :=
  match CacheEntry.name entry with
  | Some name => JS.truthy_string name && negb (filter name)
  | None => false
  end.

(** The entry under [key] is one that [pruneCache] prunes. *)
Definition pruned_at (filter : string -> bool) (this : KeepAlive) (key : string)
  : bool :=
  match entry_at (cache this) key with
  | Some entry => fails filter entry
  | None => false
  end.

(** The entries a policy keeps when it is evaluated: those without a
    name, and the named ones it admits. *)
Definition kept (include exclude : option Pattern) (entry : CacheEntry.t) : bool :=
  negb (JS.truthy (CacheEntry.name entry)) ||
  isAdmissible (CacheEntry.name entry) include exclude.

Definition kept_at (include exclude : option Pattern) (this : KeepAlive)
  (key : string) : bool :=
  match entry_at (cache this) key with
  | Some entry => kept include exclude entry
  | None => true
  end.

(** The hook that commits the pending candidate. *)
Definition is_commit (op : Op) : bool :=
  match op with
  | Mounted | Updated => true
  | _ => false
  end.

Definition no_commit (ops : list Op) : bool :=
  forallb (fun op => negb (is_commit op)) ops.

(** Nothing has come into [cache] or [keys] between [this] and [this'],
    and the capacity is what it was. *)
Definition nothing_enters (this this' : KeepAlive) : Prop :=
  (forall k entry,
      entry_at (cache this') k = Some entry ->
      entry_at (cache this) k = Some entry) /\
  (forall k, In k (keys this') -> In k (keys this)) /\
  (List.length (keys this') <= List.length (keys this))%nat /\
  max this' = max this.

(** The spec's reading of a string specification: [segs] are the
    comma-separated segments of [s], each free of commas, and [s] is their
    concatenation with commas in between. *)
Definition segments_of (s : string) (segs : list string) : Prop :=
  segs <> [] /\
  Forall (fun seg => JS.has_comma seg = false) segs /\
  JS.join_comma segs = s.

(** The entry [cacheVNode] makes of a node. *)
Definition entry_of (vnode : VNode.t) : CacheEntry.t :=
  {| CacheEntry.name := _getComponentName (VNode.componentOptions vnode);
     CacheEntry.tag := VNode.tag vnode;
     CacheEntry.componentInstance := VNode.componentInstance vnode |}.

(** The key [render] gives a component node. *)
Definition node_key (vnode : VNode.t) : string :=
  match VNode.componentOptions vnode with
  | Some componentOptions => key_of vnode componentOptions
  | None => ""
  end.

(** A mounted component node that the policy admits. *)
Definition cacheable (include exclude : option Pattern) (vnode : VNode.t) : bool :=
  match VNode.componentOptions vnode, VNode.componentInstance vnode with
  | Some componentOptions, Some _ =>
      isAdmissible (_getComponentName (Some componentOptions)) include exclude
  | _, _ => false
  end.

(** The host renders a node and runs the hook, one node after the other. *)
Definition commit_each (vnodes : list VNode.t) : list Op :=
  flat_map (fun vnode => [ Render (Some [ vnode ]) (Some vnode); Updated ]) vnodes.

(** A pending candidate has its key. *)
Definition key_assigned (this : KeepAlive) : Prop :=
  vnodeToCache this <> None -> keyToCache this <> None.

(** ** Sample nodes and runs *)

(** A mounted component node with its own key. *)
Definition component_vnode (key name tag : string) (i : Component) : VNode.t :=
  {| VNode.tag := Some tag;
     VNode.key := Some key;
     VNode.data := Some {| VNodeData.keepAlive := false |};
     VNode.componentOptions :=
       Some {| VNodeComponentOptions.Ctor :=
                 {| Ctor.cid := 1; Ctor.options_name := Some name |};
               VNodeComponentOptions.tag := Some tag |};
     VNode.componentInstance := Some i |}.

Definition render_node (vnode : VNode.t) : Op :=
  Render (Some [ vnode ]) (Some vnode).

(** Alpha and Beta are cached, Alpha is looked up again, Gamma comes in. *)
Definition three_components : list Op :=
  [ render_node (component_vnode "A" "Alpha" "alpha" 1); Updated;
    render_node (component_vnode "B" "Beta" "beta" 2); Updated;
    render_node (component_vnode "A" "Alpha" "alpha" 3); Updated;
    render_node (component_vnode "C" "Gamma" "gamma" 4); Updated ].

(** Alpha and Beta are cached and Beta is on display; then Gamma is
    rendered and waits for its commit. *)
Definition beta_displayed : list Op :=
  [ render_node (component_vnode "A" "Alpha" "alpha" 1); Updated;
    render_node (component_vnode "B" "Beta" "beta" 2); Updated;
    Patch (Some (component_vnode "B" "Beta" "beta" 2)) ].

Definition gamma_pending : list Op :=
  beta_displayed ++ [ render_node (component_vnode "C" "Gamma" "gamma" 3) ].

(** Components a and b are cached; then the parent replaces both
    [include] and [exclude] in one update. *)
Definition both_replaced : list Op :=
  [ render_node (component_vnode "A" "a" "tag-a" 1); Updated;
    render_node (component_vnode "B" "b" "tag-b" 2); Updated;
    SetInclude (Some (PString "a,b"));
    SetExclude (Some (PString "b")) ].

(** Alpha is cached and on display; a new [include] prunes its entry but
    spares its instance, which is on display; [include] is lifted, Alpha is
    rendered again with the instance it has, and cached again. *)
Definition survivor_cached_again : list Op :=
  [ render_node (component_vnode "A" "Alpha" "alpha" 1); Mounted;
    Patch (Some (component_vnode "A" "Alpha" "alpha" 1));
    SetInclude (Some (PString "Beta"));
    render_node (component_vnode "A" "Alpha" "alpha" 1);
    IncludeChanged (Some (PString "Beta")); Updated;
    SetInclude (Some (PString "Alpha,Beta"));
    render_node (component_vnode "A" "Alpha" "alpha" 1);
    IncludeChanged (Some (PString "Alpha,Beta")); Updated ].

(** The tag that goes into a derived key: the tag of the options, when it
    is truthy. *)
Definition key_tag (componentOptions : VNodeComponentOptions.t) : option string :=
  if JS.truthy (VNodeComponentOptions.tag componentOptions)
  then VNodeComponentOptions.tag componentOptions
  else None.

Fixpoint has_colon (s : string) : bool :=
  match s with
  | EmptyString => false
  | String c rest => Ascii.eqb c ":"%char || has_colon rest
  end.

(** The steps that prune: the two watchers and the teardown. *)
Definition is_pruning (op : Op) : bool :=
  match op with
  | IncludeChanged _ | ExcludeChanged _ | Destroyed => true
  | _ => false
  end.

Definition no_pruning (ops : list Op) : bool :=
  forallb (fun op => negb (is_pruning op)) ops.

(** [names_kept c c']: every property that [for (key in c)] visits is one
    that [for (key in c')] visits: none has been deleted. *)
Definition names_kept (c c' : CacheEntryMap) : Prop :=
  forall key, In key (JS.for_in_keys c) -> In key (JS.for_in_keys c').

(** Runs in which the props [include] and [exclude] keep the values the
    component was created with. *)
Definition fixed_policy (ops : list Op) : bool :=
  forallb (fun op => match op with
                     | SetInclude _ | SetExclude _ => false
                     | _ => true
                     end) ops.

(** [conforms this]: the component of every live entry, and of the
    candidate, is one the props of [this] admit. *)
Definition conforms (this : KeepAlive) : Prop :=
  (forall key entry,
      entry_at (cache this) key = Some entry ->
      isAdmissible (CacheEntry.name entry) (include this) (exclude this) = true) /\
  (forall vnode,
      vnodeToCache this = Some vnode ->
      isAdmissible (_getComponentName (VNode.componentOptions vnode))
                   (include this) (exclude this) = true).

(** *** Admissibility, in the words of the spec

    What the spec calls a specification that is set and a name that is
    present or absent, and when a specification matches a name, written
    down without the functions of the component.  The empty string is no
    specification and no name. *)
Module Spec.

(** [spec] is set, and [p] is what it is set to. *)
Definition is_set (spec : option Pattern) (p : Pattern) : Prop :=
  spec = Some p /\ p <> PString "".

Definition present (name : option string) (n : string) : Prop :=
  name = Some n /\ n <> ""%string.

Definition absent (name : option string) : Prop :=
  name = None \/ name = Some ""%string.

(** A string matches the names that are one of its comma-separated
    segments, a list the names that are one of its elements, a pattern the
    names it accepts. *)
Inductive matches : Pattern -> string -> Prop :=
| matches_segment s segs n :
    segments_of s segs -> In n segs -> matches (PString s) n
| matches_element l n : In n l -> matches (PArray l) n
| matches_pattern r n : RegExp.test r n = true -> matches (PRegExp r) n.

(** An include specification is set and the name is absent or does not
    match it. *)
Definition not_included (name : option string) (include : option Pattern)
  : Prop :=
  exists p,
    is_set include p /\
    (absent name \/ exists n, present name n /\ ~ matches p n).

(** An exclude specification is set and the name is present and matches
    it. *)
Definition excluded (name : option string) (exclude : option Pattern) : Prop :=
  exists p n, is_set exclude p /\ present name n /\ matches p n.

End Spec.

(** ** Facts about the host-language helpers *)

Module JSFacts.
Import JS.

Section ObjectFacts.
Context {V : Type}.
Implicit Types (o : object V) (k : string) (v : V).

Lemma get_set_same o k v : get (set o k v) k = Some v.
Proof.
  induction o as [| [k' v'] o IH]; simpl.
  - now rewrite String.eqb_refl.
  - destruct (k' =? k) eqn:E; simpl; rewrite E; auto.
Qed.

Lemma get_set_other o k k' v : k <> k' -> get (set o k v) k' = get o k'.
Proof.
  intros Hne. induction o as [| [k0 v0] o IH]; simpl.
  - destruct (k =? k') eqn:E; auto.
    apply String.eqb_eq in E. contradiction.
  - destruct (k0 =? k) eqn:E; simpl.
    + apply String.eqb_eq in E. subst k0.
      destruct (k =? k') eqn:E'; auto.
      apply String.eqb_eq in E'. contradiction.
    + now rewrite IH.
Qed.

Lemma get_In o k v : get o k = Some v -> In k (property_names o).
Proof.
  induction o as [| [k0 v0] o IH]; simpl; [discriminate |].
  destruct (k0 =? k) eqn:E; intros H.
  - apply String.eqb_eq in E. now left.
  - right. now apply IH.
Qed.

Lemma get_None o k : get o k = None <-> ~ In k (property_names o).
Proof.
  induction o as [| [k0 v0] o IH]; simpl.
  - tauto.
  - destruct (k0 =? k) eqn:E.
    + apply String.eqb_eq in E. split; [discriminate | intros H; tauto].
    + apply String.eqb_neq in E. rewrite IH. tauto.
Qed.

Lemma In_get o k : In k (property_names o) -> exists v, get o k = Some v.
Proof.
  intros H. destruct (get o k) eqn:E; eauto.
  apply get_None in E. contradiction.
Qed.

Lemma property_names_set_present o k v :
  In k (property_names o) ->
  property_names (set o k v) = property_names o.
Proof.
  induction o as [| [k0 v0] o IH]; simpl; [tauto |].
  intros H. destruct (k0 =? k) eqn:E; simpl; auto.
  apply String.eqb_neq in E. f_equal. apply IH. tauto.
Qed.

Lemma property_names_set_absent o k v :
  ~ In k (property_names o) ->
  property_names (set o k v) = property_names o ++ [ k ].
Proof.
  induction o as [| [k0 v0] o IH]; simpl; auto.
  intros H. destruct (k0 =? k) eqn:E.
  - apply String.eqb_eq in E. tauto.
  - simpl. f_equal. apply IH. tauto.
Qed.

Lemma In_property_names_set o k v k' :
  In k' (property_names (set o k v)) <-> k' = k \/ In k' (property_names o).
Proof.
  destruct (in_dec string_dec k (property_names o)) as [Hin | Hout].
  - rewrite property_names_set_present by assumption.
    split; [tauto | intros [-> | H]; assumption].
  - rewrite property_names_set_absent by assumption.
    rewrite in_app_iff. simpl. intuition.
Qed.

Lemma NoDup_property_names_set o k v :
  NoDup (property_names o) -> NoDup (property_names (set o k v)).
Proof.
  intros H.
  destruct (in_dec string_dec k (property_names o)) as [Hin | Hout].
  - now rewrite property_names_set_present.
  - rewrite property_names_set_absent by assumption.
    apply NoDup_app; auto.
    + repeat constructor. simpl. tauto.
    + intros x Hx [<- | []]. contradiction.
Qed.
End ObjectFacts.

(** The enumeration of [for ... in] visits every own property once. *)

Lemma insert_index_perm x l : Permutation (x :: l) (insert_index x l).
Proof.
  induction l as [| y l IH]; simpl; auto.
  destruct (fst x <=? fst y)%Z; auto.
  rewrite perm_swap. now constructor.
Qed.

Lemma sort_indices_perm l : Permutation l (sort_indices l).
Proof.
  induction l as [| x l IH]; simpl; auto.
  rewrite <- insert_index_perm. now constructor.
Qed.

Lemma index_names_snd names :
  map snd (index_names names) = filter is_array_index names.
Proof.
  induction names as [| k names IH]; simpl; auto.
  unfold is_array_index. destruct (array_index k); simpl; now rewrite IH.
Qed.

Lemma filter_partition_perm {A} (f : A -> bool) (l : list A) :
  Permutation l (filter f l ++ filter (fun x => negb (f x)) l).
Proof.
  induction l as [| x l IH]; simpl; auto.
  destruct (f x); simpl.
  - now constructor.
  - rewrite <- Permutation_middle. now constructor.
Qed.

Lemma for_in_keys_perm {V} (o : object V) :
  Permutation (property_names o) (for_in_keys o).
Proof.
  unfold for_in_keys.
  rewrite <- (Permutation_map snd (sort_indices_perm _)).
  rewrite index_names_snd.
  apply filter_partition_perm.
Qed.

Lemma In_for_in_keys {V} (o : object V) k :
  In k (for_in_keys o) <-> In k (property_names o).
Proof.
  split; apply Permutation_in;
    [symmetry |]; apply for_in_keys_perm.
Qed.

Lemma NoDup_for_in_keys {V} (o : object V) :
  NoDup (property_names o) -> NoDup (for_in_keys o).
Proof. apply Permutation_NoDup, for_in_keys_perm. Qed.

End JSFacts.

(** ** Facts about [remove] *)

Lemma remove_absent arr item : ~ In item arr -> remove arr item = arr.
Proof.
  induction arr as [| x arr IH]; simpl; auto.
  intros H. destruct (x =? item) eqn:E.
  - apply String.eqb_eq in E. tauto.
  - f_equal. apply IH. tauto.
Qed.

Lemma remove_length arr item :
  In item arr -> S (List.length (remove arr item)) = List.length arr.
Proof.
  induction arr as [| x arr IH]; simpl; [tauto |].
  intros H. destruct (x =? item) eqn:E; auto.
  apply String.eqb_neq in E. simpl. f_equal. apply IH.
  destruct H; [contradiction | assumption].
Qed.

Lemma remove_length_le arr item :
  (List.length (remove arr item) <= List.length arr)%nat.
Proof.
  destruct (in_dec string_dec item arr) as [Hin | Hout].
  - pose proof (remove_length arr item Hin). lia.
  - rewrite remove_absent; auto.
Qed.

Lemma remove_head x arr : remove (x :: arr) x = arr.
Proof. simpl. now rewrite String.eqb_refl. Qed.

Lemma In_remove arr item x : In x (remove arr item) -> In x arr.
Proof.
  induction arr as [| y arr IH]; simpl; auto.
  destruct (y =? item); simpl; intuition.
Qed.

Lemma In_remove_other arr item x : x <> item -> In x arr -> In x (remove arr item).
Proof.
  intros Hne. induction arr as [| y arr IH]; simpl; auto.
  destruct (y =? item) eqn:E; simpl.
  - apply String.eqb_eq in E. subst y. intros [-> | H]; [contradiction | auto].
  - intuition.
Qed.

Lemma NoDup_remove arr item : NoDup arr -> NoDup (remove arr item).
Proof.
  induction 1 as [| x arr Hx Hnd IH]; simpl; [constructor |].
  destruct (x =? item); auto.
  constructor; auto. intros H. apply Hx. eapply In_remove; eauto.
Qed.

Lemma remove_gone arr item : NoDup arr -> ~ In item (remove arr item).
Proof.
  induction 1 as [| x arr Hx Hnd IH]; simpl; auto.
  destruct (x =? item) eqn:E.
  - apply String.eqb_eq in E. now subst.
  - apply String.eqb_neq in E. simpl. tauto.
Qed.

(** On an array without repetition, [remove] filters the item out: the
    other keys keep their relative order. *)
Lemma remove_filter arr item :
  NoDup arr -> remove arr item = filter (fun x => negb (x =? item)) arr.
Proof.
  induction 1 as [| x arr Hx Hnd IH]; simpl; auto.
  destruct (x =? item) eqn:E; simpl.
  - apply String.eqb_eq in E. subst x.
    rewrite <- IH. symmetry. now apply remove_absent.
  - now rewrite IH.
Qed.

(** ** Reading the cache after an assignment *)

Lemma entry_at_set_same c key v : entry_at (JS.set c key v) key = v.
Proof.
  unfold entry_at. rewrite JSFacts.get_set_same. now destruct v.
Qed.

Lemma entry_at_set_other c key key' v :
  key <> key' -> entry_at (JS.set c key v) key' = entry_at c key'.
Proof.
  intros H. unfold entry_at. now rewrite JSFacts.get_set_other.
Qed.

Lemma entry_at_set c key key' v :
  entry_at (JS.set c key v) key' = if key =? key' then v else entry_at c key'.
Proof.
  destruct (key =? key') eqn:E.
  - apply String.eqb_eq in E. subst. apply entry_at_set_same.
  - apply String.eqb_neq in E. now apply entry_at_set_other.
Qed.

Lemma entry_at_In c key entry :
  entry_at c key = Some entry -> In key (JS.property_names c).
Proof.
  unfold entry_at. destruct (JS.get c key) as [v |] eqn:E; [| discriminate].
  intros _. eapply JSFacts.get_In; eauto.
Qed.

Lemma same_config_refl this : same_config this this.
Proof. repeat split. Qed.

Lemma same_staged_refl this : same_staged this this.
Proof. repeat split. Qed.

Lemma same_config_trans a b c :
  same_config a b -> same_config b c -> same_config a c.
Proof. unfold same_config. intuition congruence. Qed.

Lemma same_staged_trans a b c :
  same_staged a b -> same_staged b c -> same_staged a c.
Proof. unfold same_staged. intuition congruence. Qed.

Create HintDb keepalive.
#[local] Hint Resolve same_config_refl same_staged_refl : keepalive.

(** ** [pruneCacheEntry] *)

Lemma pruneCacheEntry_returns key current this :
  (forall entry,
      entry_at (cache this) key = Some entry ->
      CacheEntry.componentInstance entry <> None) ->
  exists this',
    pruneCacheEntry key current this = (Normal tt, this') /\
    prunes key current this this'.
Proof.
  intros Hmounted. unfold pruneCacheEntry, prunes, destroyed_by.
  destruct (entry_at (cache this) key) as [entry |] eqn:E.
  - specialize (Hmounted entry eq_refl).
    destruct (tag_differs entry current);
      [destruct (CacheEntry.componentInstance entry) as [i |]; [| congruence] |];
      cbn; eexists; (split; [reflexivity |]); cbn;
      rewrite ?app_nil_r; repeat split.
  - cbn. eexists. split; [reflexivity |]. cbn.
    rewrite app_nil_r. repeat split.
Qed.

Lemma holds_at_prunes key current this this' k i :
  prunes key current this this' ->
  holds_at this' k i <-> (k <> key /\ holds_at this k i).
Proof.
  intros (Hc & _). unfold holds_at. rewrite Hc.
  split.
  - intros (entry & He & Hi). rewrite entry_at_set in He.
    destruct (key =? k) eqn:E; [discriminate |].
    apply String.eqb_neq in E. split; [congruence | eauto].
  - intros (Hne & entry & He & Hi). exists entry.
    rewrite entry_at_set_other; auto.
Qed.

Lemma prunes_recedes key current this this' :
  consistent this ->
  In key (JS.property_names (cache this)) ->
  prunes key current this this' ->
  recedes this this'.
Proof.
  intros Hcons Hin (Hc & Hk & Hd & Hcfg & Hst).
  constructor; auto.
  - rewrite Hc. now apply JSFacts.property_names_set_present.
  - intros k entry. rewrite Hc, entry_at_set.
    destruct (key =? k); [discriminate | auto].
  - intros k. rewrite Hk. apply In_remove.
  - rewrite Hk. apply remove_length_le.
  - rewrite Hk. eexists. apply remove_filter. apply (keys_unique _ Hcons).
Qed.

Lemma prunes_consistent key current this this' :
  consistent this -> prunes key current this this' -> consistent this'.
Proof.
  intros [Hn Hk Hl Hm] (Hc & Hkeys & Hd & Hcfg & Hvn & Hkc).
  constructor.
  - rewrite Hc. now apply JSFacts.NoDup_property_names_set.
  - rewrite Hkeys. now apply NoDup_remove.
  - intros k. rewrite Hkeys, Hc, entry_at_set.
    destruct (key =? k) eqn:E.
    + apply String.eqb_eq in E. subst k. split; [| congruence].
      intros H. exfalso. eapply remove_gone; eauto.
    + apply String.eqb_neq in E. rewrite <- Hl. split.
      * apply In_remove.
      * apply In_remove_other. congruence.
  - intros k entry. rewrite Hc, entry_at_set.
    destruct (key =? k); [discriminate | apply Hm].
Qed.

Lemma recedes_pending this this' :
  recedes this this' -> pending this -> pending this'.
Proof.
  intros Hr Hp vnode. destruct (recedes_staged _ _ Hr) as (Hvn & Hkc).
  rewrite Hvn, Hkc. intros Hv.
  destruct (Hp vnode Hv) as (Hi & key & Hkey & Hnone).
  split; auto. exists key. split; auto.
  destruct (entry_at (cache this') key) as [entry |] eqn:E; auto.
  apply (recedes_entries _ _ Hr) in E. congruence.
Qed.

Lemma destroyed_by_holds key current this i :
  In i (destroyed_by key current this) -> holds_at this key i.
Proof.
  unfold destroyed_by, holds_at.
  destruct (entry_at (cache this) key) as [entry |]; [| intros []].
  destruct (tag_differs entry current); [| intros []].
  destruct (CacheEntry.componentInstance entry) as [j |] eqn:E; [| intros []].
  intros [<- | []]. eauto.
Qed.

Lemma destroyed_by_NoDup key current this :
  NoDup (destroyed_by key current this).
Proof.
  unfold destroyed_by.
  destruct (entry_at (cache this) key) as [entry |]; [| constructor].
  destruct (tag_differs entry current); [| constructor].
  destruct (CacheEntry.componentInstance entry); repeat constructor.
  simpl. tauto.
Qed.

Lemma prunes_releases key current this this' :
  owned this -> prunes key current this this' -> releases this this'.
Proof.
  intros Hown Hp. pose proof Hp as (_ & _ & Hd & _).
  exists (destroyed_by key current this).
  split; [assumption |]. split; [apply destroyed_by_NoDup |].
  intros i Hi. apply destroyed_by_holds in Hi. split.
  - now exists key.
  - intros (k & Hk). apply (holds_at_prunes _ _ _ _ k i Hp) in Hk.
    destruct Hk as (Hne & Hk). apply Hne.
    eapply held_once; eauto.
Qed.

(** ** Receding and releasing compose *)

Lemma filter_all {A} (l : list A) : filter (fun _ => true) l = l.
Proof. induction l; simpl; congruence. Qed.

Lemma filter_twice {A} (f g : A -> bool) (l : list A) :
  filter f (filter g l) = filter (fun x => g x && f x) l.
Proof.
  induction l as [| x l IH]; simpl; auto.
  destruct (g x); simpl; [destruct (f x) |]; now rewrite IH.
Qed.

Lemma recedes_refl this : recedes this this.
Proof.
  constructor; auto with keepalive.
  exists (fun _ => true). now rewrite filter_all.
Qed.

Lemma recedes_trans a b c : recedes a b -> recedes b c -> recedes a c.
Proof.
  intros [? ? ? ? ? ? (f & Hf)] [? ? ? ? ? ? (g & Hg)].
  constructor; eauto using same_config_trans, same_staged_trans.
  - congruence.
  - lia.
  - rewrite Hg, Hf, filter_twice. eauto.
Qed.

Lemma recedes_holds_at this this' k i :
  recedes this this' -> holds_at this' k i -> holds_at this k i.
Proof.
  intros Hr (entry & He & Hi). exists entry. split; auto.
  now apply (recedes_entries _ _ Hr).
Qed.

Lemma recedes_holds this this' i :
  recedes this this' -> holds this' i -> holds this i.
Proof. intros Hr (k & Hk). exists k. eapply recedes_holds_at; eauto. Qed.

Lemma recedes_stages this this' i :
  recedes this this' -> stages this' i <-> stages this i.
Proof.
  intros Hr. destruct (recedes_staged _ _ Hr) as (Hv & _).
  unfold stages. now rewrite Hv.
Qed.

Lemma releases_refl this : releases this this.
Proof.
  exists []. rewrite app_nil_r. repeat split; try constructor; contradiction.
Qed.

Lemma releases_trans a b c :
  recedes a b -> recedes b c -> releases a b -> releases b c -> releases a c.
Proof.
  intros Hab Hbc (d1 & E1 & N1 & H1) (d2 & E2 & N2 & H2).
  exists (d1 ++ d2). split; [| split].
  - now rewrite E2, E1, app_assoc.
  - apply NoDup_app; auto.
    intros i Hi1 Hi2. apply (H1 i Hi1). apply (H2 i Hi2).
  - intros i Hi. apply in_app_or in Hi. destruct Hi as [Hi | Hi].
    + split; [apply (H1 i Hi) |].
      intros Hc. apply (H1 i Hi). eapply recedes_holds; eauto.
    + split; [| apply (H2 i Hi)].
      eapply recedes_holds; eauto. apply (H2 i Hi).
Qed.

Lemma recedes_owned this this' :
  recedes this this' -> releases this this' -> owned this -> owned this'.
Proof.
  intros Hr (delta & Hd & Hnd & Hdelta) [Hh Hs Ho Hrel Hns].
  constructor.
  - intros k1 k2 i H1 H2.
    eapply Hh; eapply recedes_holds_at; eauto.
  - intros i Hi Hheld. apply (Hs i).
    + now apply (recedes_stages _ _ i Hr).
    + eapply recedes_holds; eauto.
  - rewrite Hd. apply NoDup_app; auto.
    intros i Hi1 Hi2. apply (Hrel i Hi1). apply (Hdelta i Hi2).
  - intros i. rewrite Hd, in_app_iff. intros [Hi | Hi].
    + intros Hc. apply (Hrel i Hi). eapply recedes_holds; eauto.
    + apply (Hdelta i Hi).
  - intros i. rewrite Hd, in_app_iff, (recedes_stages _ _ i Hr).
    intros [Hi | Hi]; [now apply Hns |].
    intros Hst. apply (Hs i Hst). apply (Hdelta i Hi).
Qed.

(** ** The two loops over the cache *)

Lemma for_each_returns (P : KeepAlive -> Prop) body names :
  (forall key this,
      In key names -> P this ->
      exists this', body key this = (Normal tt, this') /\ P this') ->
  forall this,
    P this ->
    exists this', for_each names body this = (Normal tt, this') /\ P this'.
Proof.
  induction names as [| key names IH]; intros Hbody this HP; simpl.
  - exists this. split; [reflexivity | assumption].
  - destruct (Hbody key this) as (this1 & E1 & HP1); [now left | assumption |].
    unfold bind at 1. rewrite E1.
    apply IH; auto. intros k t Hk. apply Hbody. now right.
Qed.

(** A loop whose body, at each key, either does nothing or calls
    [pruneCacheEntry] on that key. *)
Lemma pruning_loop_returns current body names this0 :
  (forall key this,
      body key this = ret tt this \/
      body key this = pruneCacheEntry key current this) ->
  incl names (JS.property_names (cache this0)) ->
  consistent this0 ->
  exists this',
    for_each names body this0 = (Normal tt, this') /\
    consistent this' /\ recedes this0 this' /\
    (owned this0 -> releases this0 this').
Proof.
  intros Hbody Hincl Hcons.
  apply (for_each_returns
           (fun this => consistent this /\ recedes this0 this /\
                        (owned this0 -> releases this0 this))).
  - intros key this Hin (Hc & Hr & Hrel).
    destruct (Hbody key this) as [E | E]; rewrite E.
    + exists this. split; [reflexivity | auto].
    + destruct (pruneCacheEntry_returns key current this) as (this' & E' & Hp).
      { intros entry. apply (entries_mounted _ Hc). }
      exists this'. split; [assumption |].
      assert (Hr' : recedes this this').
      { eapply prunes_recedes; eauto.
        rewrite (recedes_names _ _ Hr). now apply Hincl. }
      split; [eapply prunes_consistent; eauto |].
      split; [eapply recedes_trans; eauto |].
      intros Hown. specialize (Hrel Hown).
      eapply releases_trans; eauto.
      eapply prunes_releases; eauto.
      eapply recedes_owned; eauto.
  - split; [assumption |]. split; [apply recedes_refl |].
    intros _. apply releases_refl.
Qed.

Lemma pruneCache_returns filter this :
  consistent this ->
  exists this',
    pruneCache filter this = (Normal tt, this') /\
    consistent this' /\ recedes this this' /\
    (owned this -> releases this this').
Proof.
  intros Hc. unfold pruneCache.
  apply pruning_loop_returns with (current := _vnode this); auto.
  - intros key t.
    destruct (entry_at (cache t) key) as [entry |]; auto.
    destruct (CacheEntry.name entry) as [name |]; auto.
    destruct (JS.truthy_string name && negb (filter name)); auto.
  - intros k. apply JSFacts.In_for_in_keys.
Qed.

Lemma destroyed_returns this :
  consistent this ->
  exists this',
    destroyed this = (Normal tt, this') /\
    consistent this' /\ recedes this this' /\
    (owned this -> releases this this').
Proof.
  intros Hc. unfold destroyed.
  apply pruning_loop_returns with (current := None); auto.
  intros k. apply JSFacts.In_for_in_keys.
Qed.

(** ** [cacheVNode] *)

Lemma consistent_ext this this' :
  cache this' = cache this -> keys this' = keys this ->
  consistent this -> consistent this'.
Proof.
  intros Hc Hk [Hn Hu Hl Hm].
  constructor; rewrite ?Hc, ?Hk; auto.
Qed.

Lemma holds_at_ext this this' k i :
  cache this' = cache this -> holds_at this' k i <-> holds_at this k i.
Proof. intros Hc. unfold holds_at. now rewrite Hc. Qed.

Lemma holds_ext this this' i :
  cache this' = cache this -> holds this' i <-> holds this i.
Proof.
  intros Hc. unfold holds.
  split; intros (k & Hk); exists k;
    now apply (holds_at_ext this this' k i Hc).
Qed.

Lemma cacheVNode_idle this :
  vnodeToCache this = None -> cacheVNode this = (Normal tt, this).
Proof. unfold cacheVNode. now intros ->. Qed.

Lemma cacheVNode_admits this vnode key :
  vnodeToCache this = Some vnode ->
  keyToCache this = Some key ->
  (forall k entry,
      entry_at (cache (admitted this key vnode)) k = Some entry ->
      CacheEntry.componentInstance entry <> None) ->
  exists mid,
    cacheVNode this = (Normal tt, with_vnodeToCache mid None) /\
    if over_max (max this) (S (List.length (keys this)))
    then prunes (hd key (keys this)) (_vnode this) (admitted this key vnode) mid
    else mid = admitted this key vnode.
Proof.
  intros Hv Hk Hm. unfold cacheVNode. rewrite Hv, Hk.
  unfold bind, modify. cbn.
  rewrite length_app, Nat.add_1_r.
  fold (admitted this key vnode).
  destruct (over_max (max this) (S (List.length (keys this)))).
  - assert (E : keys this ++ [ key ] = hd key (keys this) :: tl (keys this ++ [ key ])).
    { now destruct (keys this). }
    rewrite E.
    destruct (pruneCacheEntry_returns (hd key (keys this)) (_vnode this)
                (admitted this key vnode)) as (mid & Hmid & Hp).
    { intros entry. apply Hm. }
    rewrite Hmid. exists mid. split; [reflexivity | assumption].
  - exists (admitted this key vnode). split; reflexivity.
Qed.

Lemma entry_at_admitted this key vnode k :
  entry_at (cache (admitted this key vnode)) k =
  if key =? k
  then Some {| CacheEntry.name := _getComponentName (VNode.componentOptions vnode);
               CacheEntry.tag := VNode.tag vnode;
               CacheEntry.componentInstance := VNode.componentInstance vnode |}
  else entry_at (cache this) k.
Proof. cbn. apply entry_at_set. Qed.

Lemma holds_at_admitted this key vnode k i :
  holds_at (admitted this key vnode) k i <->
  (k = key /\ VNode.componentInstance vnode = Some i) \/
  (k <> key /\ holds_at this k i).
Proof.
  unfold holds_at. setoid_rewrite entry_at_admitted.
  destruct (key =? k) eqn:E.
  - apply String.eqb_eq in E. subst k. split.
    + intros (entry & [= <-] & Hi). left. auto.
    + intros [(_ & Hi) | (Hne & _)]; [eauto | congruence].
  - apply String.eqb_neq in E. split.
    + intros H. right. split; [congruence | assumption].
    + intros [(-> & _) | (_ & H)]; [congruence | assumption].
Qed.

Lemma admitted_consistent this key vnode :
  consistent this ->
  entry_at (cache this) key = None ->
  VNode.componentInstance vnode <> None ->
  consistent (admitted this key vnode).
Proof.
  intros [Hn Hu Hl Hm] Hnone Hi.
  assert (Hfresh : ~ In key (keys this)).
  { rewrite Hl. tauto. }
  constructor.
  - cbn. now apply JSFacts.NoDup_property_names_set.
  - cbn. apply NoDup_app; auto.
    + repeat constructor. simpl. tauto.
    + intros x Hx [<- | []]. contradiction.
  - intros k. rewrite entry_at_admitted.
    cbn [keys admitted with_keys]. rewrite in_app_iff. simpl.
    destruct (key =? k) eqn:E.
    + apply String.eqb_eq in E. split; [congruence | auto].
    + apply String.eqb_neq in E. rewrite <- Hl. tauto.
  - intros k entry. rewrite entry_at_admitted.
    destruct (key =? k); [| apply Hm].
    intros [= <-]. assumption.
Qed.

Lemma prunes_cleared key current this this' :
  prunes key current this this' ->
  prunes key current (with_vnodeToCache this None) (with_vnodeToCache this' None).
Proof.
  intros (Hc & Hk & Hd & (H1 & H2 & H3 & H4) & (_ & H6)).
  unfold prunes, same_config, same_staged, destroyed_by in *. cbn.
  repeat split; assumption.
Qed.

(** What a commit with a pending candidate comes to: the candidate is
    admitted, the candidate slot is cleared, and when [max] is exceeded the
    head of [keys] is pruned. *)
Lemma cacheVNode_commits this vnode :
  consistent this -> pending this ->
  vnodeToCache this = Some vnode ->
  exists key this',
    keyToCache this = Some key /\
    entry_at (cache this) key = None /\
    VNode.componentInstance vnode <> None /\
    cacheVNode this = (Normal tt, this') /\
    vnodeToCache this' = None /\
    consistent (with_vnodeToCache (admitted this key vnode) None) /\
    if over_max (max this) (S (List.length (keys this)))
    then prunes (hd key (keys this)) (_vnode this)
           (with_vnodeToCache (admitted this key vnode) None) this'
    else this' = with_vnodeToCache (admitted this key vnode) None.
Proof.
  intros Hc Hp Hv.
  destruct (Hp vnode Hv) as (Hi & key & Hk & Hnone).
  assert (Ha : consistent (admitted this key vnode))
    by now apply admitted_consistent.
  destruct (cacheVNode_admits this vnode key Hv Hk) as (mid & E & Hmid).
  { apply (entries_mounted _ Ha). }
  exists key, (with_vnodeToCache mid None).
  repeat (split; [assumption || reflexivity |]).
  split; [now apply (consistent_ext (admitted this key vnode)) |].
  destruct (over_max (max this) (S (List.length (keys this)))).
  - now apply prunes_cleared.
  - now subst mid.
Qed.

Lemma hd_admitted_named this key vnode :
  consistent this ->
  In (hd key (keys this))
     (JS.property_names (cache (with_vnodeToCache (admitted this key vnode) None))).
Proof.
  intros Hc. cbn. apply JSFacts.In_property_names_set.
  destruct (keys this) as [| first rest] eqn:E; simpl; [now left |].
  right. assert (Hin : In first (keys this)) by (rewrite E; now left).
  apply (lockstep _ Hc) in Hin.
  destruct (entry_at (cache this) first) as [entry |] eqn:He; [| congruence].
  eapply entry_at_In; eauto.
Qed.

Lemma cacheVNode_returns this :
  consistent this -> pending this ->
  exists this',
    cacheVNode this = (Normal tt, this') /\
    consistent this' /\ pending this' /\ same_config this this' /\
    vnodeToCache this' = None.
Proof.
  intros Hc Hp. destruct (vnodeToCache this) as [vnode |] eqn:Hv.
  - destruct (cacheVNode_commits this vnode Hc Hp Hv)
      as (key & this' & Hk & Hnone & Hi & E & Hv' & Ha & Hover).
    exists this'. split; [assumption |].
    assert (Hpend : pending this') by (intros v; rewrite Hv'; discriminate).
    destruct (over_max (max this) (S (List.length (keys this)))).
    + split; [eapply prunes_consistent; eauto |].
      split; [assumption |]. split; [| assumption].
      destruct Hover as (_ & _ & _ & Hcfg & _). exact Hcfg.
    + subst this'. split; [assumption |]. split; [assumption |].
      split; [| reflexivity]. repeat split.
  - rewrite cacheVNode_idle by assumption.
    exists this. split; [reflexivity |]. split; [assumption |].
    split; [assumption |]. split; [apply same_config_refl | assumption].
Qed.

(** A commit never lets [keys] outgrow a positive capacity. *)
Lemma cacheVNode_within_capacity this this' n :
  consistent this -> pending this ->
  capacity (max this) = Some n -> (0 < n)%Z ->
  (Z.of_nat (List.length (keys this)) <= n)%Z ->
  cacheVNode this = (Normal tt, this') ->
  (Z.of_nat (List.length (keys this')) <= n)%Z.
Proof.
  intros Hc Hp Hcap Hpos Hlen E.
  destruct (vnodeToCache this) as [vnode |] eqn:Hv.
  - destruct (cacheVNode_commits this vnode Hc Hp Hv)
      as (key & this1 & Hk & Hnone & Hi & E1 & Hv' & Ha & Hover).
    rewrite E in E1. injection E1 as <-.
    unfold capacity in Hcap. unfold over_max in Hover.
    destruct (max_set (max this)); [| discriminate].
    destruct (max this) as [p |]; [| discriminate].
    rewrite Hcap in Hover. cbn [andb] in Hover.
    destruct (n <? Z.of_nat (S (List.length (keys this))))%Z eqn:Hcmp.
    + destruct Hover as (_ & Hkeys & _). rewrite Hkeys.
      cbn [keys admitted with_keys with_vnodeToCache].
      assert (Hin : In (hd key (keys this)) (keys this ++ [ key ])).
      { destruct (keys this); simpl; auto. }
      pose proof (remove_length _ _ Hin) as Hl.
      rewrite length_app in Hl. simpl in Hl. lia.
    + subst this'. cbn. rewrite length_app. simpl.
      apply Z.ltb_ge in Hcmp. lia.
  - rewrite cacheVNode_idle in E by assumption. now injection E as <-.
Qed.

(** ** [render] *)

Lemma render_bypass slot vnode this :
  lookup this vnode = Bypass ->
  snd (render slot vnode this) = this.
Proof.
  unfold lookup, render, isAdmissible.
  destruct vnode as [v |]; [| reflexivity].
  destruct (VNode.componentOptions v) as [co |]; [| reflexivity].
  destruct (not_included _ _ || excluded _ _); [reflexivity |].
  cbn [negb]. destruct (entry_at _ _); discriminate.
Qed.

Lemma render_hit slot vnode this key entry :
  lookup this vnode = Hit key entry ->
  let this' := snd (render slot vnode this) in
  entry_at (cache this) key = Some entry /\
  cache this' = cache this /\
  keys this' = remove (keys this) key ++ [ key ] /\
  destroyed_instances this' = destroyed_instances this /\
  same_config this this' /\ same_staged this this'.
Proof.
  unfold lookup, render, isAdmissible.
  destruct vnode as [v |]; [| discriminate].
  destruct (VNode.componentOptions v) as [co |]; [| discriminate].
  destruct (not_included _ _ || excluded _ _); [discriminate |].
  cbn [negb]. destruct (entry_at _ _) as [e |] eqn:E; [| discriminate].
  intros [= <- <-].
  unfold set_keepAlive, bind, modify, ret, throw. cbn.
  destruct (VNode.data v); cbn; repeat split; auto.
Qed.

Lemma render_miss slot vnode this key v :
  lookup this vnode = Miss key v ->
  let this' := snd (render slot vnode this) in
  vnode = Some v /\
  entry_at (cache this) key = None /\
  cache this' = cache this /\
  keys this' = keys this /\
  destroyed_instances this' = destroyed_instances this /\
  same_config this this' /\
  keyToCache this' = Some key /\
  exists staged,
    vnodeToCache this' = Some staged /\
    VNode.tag staged = VNode.tag v /\
    VNode.componentOptions staged = VNode.componentOptions v /\
    VNode.componentInstance staged = VNode.componentInstance v.
Proof.
  unfold lookup, render, isAdmissible.
  destruct vnode as [v0 |]; [| discriminate].
  destruct (VNode.componentOptions v0) as [co |]; [| discriminate].
  destruct (not_included _ _ || excluded _ _); [discriminate |].
  cbn [negb]. destruct (entry_at _ _) as [e |] eqn:E; [discriminate |].
  intros [= <- <-].
  unfold set_keepAlive, bind, modify, ret, throw. cbn.
  destruct (VNode.data v0); cbn; repeat split; eauto.
Qed.

(** ** Ownership across a commit *)

Lemma holds_at_cleared_admitted this key vnode k i :
  holds_at (with_vnodeToCache (admitted this key vnode) None) k i <->
  (k = key /\ VNode.componentInstance vnode = Some i) \/
  (k <> key /\ holds_at this k i).
Proof.
  rewrite <- holds_at_admitted. now apply holds_at_ext.
Qed.

Lemma holds_cleared_admitted this key vnode i :
  vnodeToCache this = Some vnode ->
  holds (with_vnodeToCache (admitted this key vnode) None) i ->
  holds this i \/ stages this i.
Proof.
  intros Hv (k & Hk). apply holds_at_cleared_admitted in Hk.
  destruct Hk as [(_ & Hi) | (_ & Hk)].
  - right. now exists vnode.
  - left. now exists k.
Qed.

Lemma not_stages_cleared this i : ~ stages (with_vnodeToCache this None) i.
Proof. intros (v & Hv & _). discriminate. Qed.

Lemma admitted_owned this key vnode :
  owned this ->
  vnodeToCache this = Some vnode ->
  owned (with_vnodeToCache (admitted this key vnode) None).
Proof.
  intros [Hh Hs Ho Hrel Hns] Hv.
  assert (Hstaged : forall i, VNode.componentInstance vnode = Some i -> stages this i).
  { intros i Hi. now exists vnode. }
  constructor.
  - intros k1 k2 i H1 H2.
    apply holds_at_cleared_admitted in H1, H2.
    destruct H1 as [(-> & Hi1) | (Hn1 & H1)], H2 as [(-> & Hi2) | (Hn2 & H2)];
      auto.
    + exfalso. apply (Hs i); auto. now exists k2.
    + exfalso. apply (Hs i); auto. now exists k1.
    + eapply Hh; eauto.
  - intros i Hi. exfalso. eapply not_stages_cleared; eauto.
  - exact Ho.
  - intros i Hi Hheld.
    destruct (holds_cleared_admitted _ _ _ _ Hv Hheld).
    + now apply (Hrel i).
    + now apply (Hns i).
  - intros i _. apply not_stages_cleared.
Qed.

Lemma releases_discards this this' : releases this this' -> discards this this'.
Proof.
  intros (delta & Hd & _ & H). exists delta. split; auto.
  intros i Hi. destruct (H i Hi). auto.
Qed.

Lemma discards_nothing this this' :
  destroyed_instances this' = destroyed_instances this -> discards this this'.
Proof.
  intros H. exists []. rewrite app_nil_r. split; auto. intros i [].
Qed.

Lemma cacheVNode_owned this this' :
  consistent this -> pending this ->
  cacheVNode this = (Normal tt, this') ->
  owned this ->
  owned this' /\ discards this this'.
Proof.
  intros Hc Hp E Hown.
  destruct (vnodeToCache this) as [vnode |] eqn:Hv.
  - destruct (cacheVNode_commits this vnode Hc Hp Hv)
      as (key & this1 & Hk & Hnone & Hi & E1 & Hv' & Ha & Hover).
    rewrite E in E1. injection E1 as <-.
    pose proof (admitted_owned this key vnode Hown Hv) as Hown0.
    destruct (over_max (max this) (S (List.length (keys this)))).
    + assert (Hr : recedes (with_vnodeToCache (admitted this key vnode) None) this').
      { eapply prunes_recedes; eauto. now apply hd_admitted_named. }
      pose proof (prunes_releases _ _ _ _ Hown0 Hover) as Hrel.
      split; [eapply recedes_owned; eauto |].
      destruct Hrel as (delta & Hd & _ & Hdelta).
      exists delta. split; [exact Hd |].
      intros i Hin. destruct (Hdelta i Hin) as (Hheld & Hgone).
      split; [| assumption].
      eapply holds_cleared_admitted; eauto.
    + subst this'. split; [assumption |]. now apply discards_nothing.
  - rewrite cacheVNode_idle in E by assumption. injection E as <-.
    split; [assumption |]. now apply discards_nothing.
Qed.

(** ** One step of the host *)

Lemma step_render slot vnode this :
  snd (step (Render slot vnode) this) = snd (render slot vnode this).
Proof.
  unfold step, bind. now destruct (render slot vnode this) as [[a |] this'].
Qed.

Lemma In_promoted arr key k :
  In key arr -> In k (remove arr key ++ [ key ]) <-> In k arr.
Proof.
  intros Hin. rewrite in_app_iff. simpl. split.
  - intros [H | [<- | []]]; auto. eapply In_remove; eauto.
  - intros H. destruct (string_dec k key) as [-> | Hne]; auto.
    left. now apply In_remove_other.
Qed.

Lemma NoDup_promoted arr key : NoDup arr -> NoDup (remove arr key ++ [ key ]).
Proof.
  intros H. apply NoDup_app.
  - now apply NoDup_remove.
  - repeat constructor. simpl. tauto.
  - intros x Hx [<- | []]. eapply remove_gone; eauto.
Qed.

Lemma staged_by_miss slot vnode this key v :
  lookup this vnode = Miss key v ->
  staged_by (Render slot vnode) this = Some v.
Proof. unfold staged_by. now intros ->. Qed.

Lemma mounted_on_miss_render slot vnode this key v :
  mounted_on_miss (Render slot vnode) this = true ->
  lookup this vnode = Miss key v ->
  exists i, VNode.componentInstance v = Some i.
Proof.
  intros Hm L. unfold mounted_on_miss in Hm.
  rewrite (staged_by_miss _ _ _ _ _ L) in Hm.
  destruct (VNode.componentInstance v) as [i |]; [eauto | discriminate].
Qed.

Lemma holds_held this i : holds this i -> In i (held_instances (cache this)).
Proof.
  intros (key & entry & He & Hi). unfold held_instances.
  apply in_flat_map. exists (key, Some entry). split.
  - unfold entry_at in He. induction (cache this) as [| [k v] c IH];
      simpl in *; [discriminate |].
    destruct (k =? key) eqn:E.
    + apply String.eqb_eq in E. subst k.
      destruct v as [e |]; [| discriminate]. injection He as ->. now left.
    + right. now apply IH.
  - cbn. rewrite Hi. now left.
Qed.

Lemma hosted_render slot vnode this key v :
  hosted (Render slot vnode) this = true ->
  lookup this vnode = Miss key v ->
  exists i,
    VNode.componentInstance v = Some i /\
    ~ In i (destroyed_instances this) /\ ~ holds this i.
Proof.
  intros Hh L. unfold hosted in Hh.
  rewrite (staged_by_miss _ _ _ _ _ L) in Hh.
  destruct (VNode.componentInstance v) as [i |]; [| discriminate].
  apply andb_true_iff in Hh. destruct Hh as (Hd & Hheld).
  apply negb_true_iff in Hd, Hheld.
  exists i. split; [reflexivity |]. split.
  - intros Hin.
    assert (existsb (Nat.eqb i) (destroyed_instances this) = true);
      [| congruence].
    apply existsb_exists. exists i. split; [assumption | apply Nat.eqb_refl].
  - intros Hin. apply holds_held in Hin.
    assert (existsb (Nat.eqb i) (held_instances (cache this)) = true);
      [| congruence].
    apply existsb_exists. exists i. split; [assumption | apply Nat.eqb_refl].
Qed.

Lemma hosted_mounted op this :
  hosted op this = true -> mounted_on_miss op this = true.
Proof.
  unfold hosted, mounted_on_miss.
  destruct (staged_by op this) as [v |]; auto.
  destruct (VNode.componentInstance v); auto.
Qed.

Lemma render_hit_consistent slot vnode this key entry :
  lookup this vnode = Hit key entry ->
  consistent this -> pending this ->
  consistent (snd (render slot vnode this)) /\
  pending (snd (render slot vnode this)).
Proof.
  intros L Hc Hp.
  destruct (render_hit slot vnode this key entry L)
    as (He & Hcache & Hkeys & Hd & Hcfg & Hvn & Hkc).
  assert (Hin : In key (keys this)).
  { apply (lockstep _ Hc). congruence. }
  split.
  - destruct Hc as [Hn Hu Hl Hmt]. constructor; rewrite ?Hcache, ?Hkeys; auto.
    + now apply NoDup_promoted.
    + intros k. rewrite In_promoted by assumption. apply Hl.
  - intros v. rewrite Hvn, Hkc, Hcache. apply Hp.
Qed.

Lemma render_consistent slot vnode this :
  mounted_on_miss (Render slot vnode) this = true ->
  consistent this -> pending this ->
  consistent (snd (render slot vnode this)) /\
  pending (snd (render slot vnode this)).
Proof.
  intros Hm Hc Hp. destruct (lookup this vnode) as [| key entry | key v] eqn:L.
  - rewrite render_bypass by assumption. auto.
  - eapply render_hit_consistent; eauto.
  - destruct (render_miss slot vnode this key v L)
      as (-> & He & Hcache & Hkeys & Hd & Hcfg & Hkc & staged & Hvn & _ & _ & Hi).
    destruct (mounted_on_miss_render _ _ _ _ _ Hm L) as (i & Hinst).
    split.
    + eapply consistent_ext; eauto.
    + intros v0. rewrite Hvn. intros [= <-].
      split; [congruence |]. exists key. rewrite Hcache. auto.
Qed.

Lemma render_owned slot vnode this :
  hosted (Render slot vnode) this = true ->
  owned this ->
  owned (snd (render slot vnode this)).
Proof.
  intros Hh Hown.
  destruct (lookup this vnode) as [| key entry | key v] eqn:L.
  - now rewrite render_bypass.
  - destruct (render_hit slot vnode this key entry L)
      as (He & Hcache & Hkeys & Hd & Hcfg & Hvn & Hkc).
    set (this' := snd (render slot vnode this)) in *.
    assert (Hst : forall i, stages this' i <-> stages this i).
    { intros i. unfold stages. now rewrite Hvn. }
    destruct Hown as [Hh' Hs Ho Hrel Hns].
    constructor.
    + intros k1 k2 i H1 H2.
      apply (holds_at_ext this this' _ _ Hcache) in H1, H2. eauto.
    + intros i Hi. rewrite (holds_ext this this' i Hcache).
      apply Hs. now apply Hst.
    + now rewrite Hd.
    + intros i. rewrite Hd, (holds_ext this this' i Hcache). apply Hrel.
    + intros i. rewrite Hd, Hst. apply Hns.
  - destruct (render_miss slot vnode this key v L)
      as (-> & He & Hcache & Hkeys & Hd & Hcfg & Hkc & staged & Hvn & _ & _ & Hi).
    destruct (hosted_render _ _ _ _ _ Hh L) as (i0 & Hinst & Halive & Hfree).
    set (this' := snd (render slot (Some v) this)) in *.
    assert (Hst : forall i, stages this' i <-> i = i0).
    { intros i. unfold stages. rewrite Hvn. split.
      - intros (v0 & [= <-] & Hv0). congruence.
      - intros ->. exists staged. split; congruence. }
    destruct Hown as [Hh' Hs Ho Hrel Hns].
    constructor.
    + intros k1 k2 i H1 H2.
      apply (holds_at_ext this this' _ _ Hcache) in H1, H2. eauto.
    + intros i Hi0. apply Hst in Hi0. subst i.
      now rewrite (holds_ext this this' i0 Hcache).
    + now rewrite Hd.
    + intros i. rewrite Hd, (holds_ext this this' i Hcache). apply Hrel.
    + intros i. rewrite Hd, Hst. intros Hin ->. contradiction.
Qed.

Lemma render_config slot vnode this :
  same_config this (snd (render slot vnode this)) /\
  destroyed_instances (snd (render slot vnode this)) = destroyed_instances this /\
  cache (snd (render slot vnode this)) = cache this.
Proof.
  destruct (lookup this vnode) as [| key entry | key v] eqn:L.
  - rewrite render_bypass by assumption. repeat split.
  - destruct (render_hit slot vnode this key entry L)
      as (He & Hcache & Hkeys & Hd & Hcfg & Hst). auto.
  - destruct (render_miss slot vnode this key v L)
      as (_ & He & Hcache & Hkeys & Hd & Hcfg & _). auto.
Qed.

Lemma owned_ext this this' :
  cache this' = cache this ->
  vnodeToCache this' = vnodeToCache this ->
  destroyed_instances this' = destroyed_instances this ->
  owned this -> owned this'.
Proof.
  intros Hc Hv Hd [Hh Hs Ho Hrel Hns].
  assert (Hst : forall i, stages this' i <-> stages this i).
  { intros i. unfold stages. now rewrite Hv. }
  constructor.
  - intros k1 k2 i H1 H2.
    apply (holds_at_ext this this' _ _ Hc) in H1, H2. eauto.
  - intros i. rewrite Hst, (holds_ext this this' i Hc). apply Hs.
  - now rewrite Hd.
  - intros i. rewrite Hd, (holds_ext this this' i Hc). apply Hrel.
  - intros i. rewrite Hd, Hst. apply Hns.
Qed.

Lemma pending_ext this this' :
  cache this' = cache this ->
  vnodeToCache this' = vnodeToCache this ->
  keyToCache this' = keyToCache this ->
  pending this -> pending this'.
Proof.
  intros Hc Hv Hk Hp vnode. rewrite Hv, Hk, Hc. apply Hp.
Qed.

(** Every step returns a store of the same shape, with [max] as it was. *)
Lemma step_consistent op this :
  mounted_on_miss op this = true ->
  consistent this -> pending this ->
  let this' := snd (step op this) in
  consistent this' /\ pending this' /\ max this' = max this.
Proof.
  intros Hm Hc Hp.
  destruct op as [slot vnode | | | val | val | val | val | vnode |]; cbv zeta.
  - rewrite step_render.
    destruct (render_consistent slot vnode this Hm Hc Hp) as (H1 & H2).
    destruct (render_config slot vnode this) as ((_ & _ & H3 & _) & _).
    auto.
  - destruct (cacheVNode_returns this Hc Hp)
      as (this' & E & H1 & H2 & (_ & _ & H3 & _) & _).
    unfold step, mounted. rewrite E. auto.
  - destruct (cacheVNode_returns this Hc Hp)
      as (this' & E & H1 & H2 & (_ & _ & H3 & _) & _).
    unfold step, updated. rewrite E. auto.
  - cbn. split; [apply (consistent_ext this); try reflexivity; assumption |].
    split; [apply (pending_ext this); try reflexivity; assumption | reflexivity].
  - cbn. split; [apply (consistent_ext this); try reflexivity; assumption |].
    split; [apply (pending_ext this); try reflexivity; assumption | reflexivity].
  - destruct (pruneCache_returns (fun name => matches val name) this Hc)
      as (this' & E & H1 & Hr & _).
    unfold step, include_changed. rewrite E. cbn [snd].
    split; [assumption |]. split; [eapply recedes_pending; eauto |].
    now destruct (recedes_config _ _ Hr) as (_ & _ & H3 & _).
  - destruct (pruneCache_returns (fun name => negb (matches val name)) this Hc)
      as (this' & E & H1 & Hr & _).
    unfold step, exclude_changed. rewrite E. cbn [snd].
    split; [assumption |]. split; [eapply recedes_pending; eauto |].
    now destruct (recedes_config _ _ Hr) as (_ & _ & H3 & _).
  - cbn. split; [apply (consistent_ext this); try reflexivity; assumption |].
    split; [apply (pending_ext this); try reflexivity; assumption | reflexivity].
  - destruct (destroyed_returns this Hc) as (this' & E & H1 & Hr & _).
    unfold step. rewrite E. cbn [snd].
    split; [assumption |]. split; [eapply recedes_pending; eauto |].
    now destruct (recedes_config _ _ Hr) as (_ & _ & H3 & _).
Qed.

(** Every step keeps the ownership of instances in order, and destroys
    only what it takes out of the store. *)
Lemma step_owned op this :
  hosted op this = true ->
  consistent this -> pending this -> owned this ->
  let this' := snd (step op this) in
  owned this' /\ discards this this'.
Proof.
  intros Hh Hc Hp Hown.
  destruct op as [slot vnode | | | val | val | val | val | vnode |]; cbv zeta.
  - rewrite step_render.
    destruct (render_config slot vnode this) as (_ & Hd & _).
    split; [now apply render_owned | now apply discards_nothing].
  - destruct (cacheVNode_returns this Hc Hp) as (this' & E & _).
    unfold step, mounted. rewrite E. cbn [snd].
    eapply cacheVNode_owned; eauto.
  - destruct (cacheVNode_returns this Hc Hp) as (this' & E & _).
    unfold step, updated. rewrite E. cbn [snd].
    eapply cacheVNode_owned; eauto.
  - cbn. split; [apply (owned_ext this); try reflexivity; assumption |].
    now apply discards_nothing.
  - cbn. split; [apply (owned_ext this); try reflexivity; assumption |].
    now apply discards_nothing.
  - destruct (pruneCache_returns (fun name => matches val name) this Hc)
      as (this' & E & H1 & Hr & Hrel).
    unfold step, include_changed. rewrite E. cbn [snd].
    specialize (Hrel Hown).
    split; [eapply recedes_owned; eauto | now apply releases_discards].
  - destruct (pruneCache_returns (fun name => negb (matches val name)) this Hc)
      as (this' & E & H1 & Hr & Hrel).
    unfold step, exclude_changed. rewrite E. cbn [snd].
    specialize (Hrel Hown).
    split; [eapply recedes_owned; eauto | now apply releases_discards].
  - cbn. split; [apply (owned_ext this); try reflexivity; assumption |].
    now apply discards_nothing.
  - destruct (destroyed_returns this Hc) as (this' & E & H1 & Hr & Hrel).
    unfold step. rewrite E. cbn [snd].
    specialize (Hrel Hown).
    split; [eapply recedes_owned; eauto | now apply releases_discards].
Qed.

Lemma step_within_capacity op this n :
  mounted_on_miss op this = true ->
  consistent this -> pending this ->
  capacity (max this) = Some n -> (0 < n)%Z ->
  (Z.of_nat (List.length (keys this)) <= n)%Z ->
  (Z.of_nat (List.length (keys (snd (step op this)))) <= n)%Z.
Proof.
  intros Hm Hc Hp Hcap Hpos Hlen.
  destruct op as [slot vnode | | | val | val | val | val | vnode |].
  - rewrite step_render.
    destruct (lookup this vnode) as [| key entry | key v] eqn:L.
    + now rewrite render_bypass.
    + destruct (render_hit slot vnode this key entry L)
        as (He & _ & Hkeys & _).
      rewrite Hkeys, length_app. simpl.
      assert (Hin : In key (keys this)).
      { apply (lockstep _ Hc). congruence. }
      pose proof (remove_length _ _ Hin). lia.
    + destruct (render_miss slot vnode this key v L)
        as (_ & _ & _ & Hkeys & _).
      now rewrite Hkeys.
  - destruct (cacheVNode_returns this Hc Hp) as (this' & E & _).
    unfold step, mounted. rewrite E. cbn [snd].
    eapply cacheVNode_within_capacity; eauto.
  - destruct (cacheVNode_returns this Hc Hp) as (this' & E & _).
    unfold step, updated. rewrite E. cbn [snd].
    eapply cacheVNode_within_capacity; eauto.
  - assumption.
  - assumption.
  - destruct (pruneCache_returns (fun name => matches val name) this Hc)
      as (this' & E & _ & Hr & _).
    unfold step, include_changed. rewrite E. cbn [snd].
    pose proof (recedes_length _ _ Hr). lia.
  - destruct (pruneCache_returns (fun name => negb (matches val name)) this Hc)
      as (this' & E & _ & Hr & _).
    unfold step, exclude_changed. rewrite E. cbn [snd].
    pose proof (recedes_length _ _ Hr). lia.
  - assumption.
  - destruct (destroyed_returns this Hc) as (this' & E & _ & Hr & _).
    unfold step. rewrite E. cbn [snd].
    pose proof (recedes_length _ _ Hr). lia.
Qed.

(** ** Runs from [created] *)

Lemma run_app ops1 ops2 this :
  run (ops1 ++ ops2) this = run ops2 (run ops1 this).
Proof.
  revert this. induction ops1 as [| op ops1 IH]; intros this; simpl; auto.
Qed.

Lemma created_consistent inc exc mx : consistent (created inc exc mx).
Proof.
  constructor; cbn.
  - constructor.
  - constructor.
  - intros k. split; [intros [] | congruence].
  - discriminate.
Qed.

Lemma created_pending inc exc mx : pending (created inc exc mx).
Proof. intros vnode. discriminate. Qed.

Lemma created_owned inc exc mx : owned (created inc exc mx).
Proof.
  constructor; cbn.
  - intros k1 k2 i (entry & H & _). discriminate.
  - intros i (v & H & _). discriminate.
  - constructor.
  - intros i [].
  - intros i [].
Qed.

Lemma always_app check ops rest this :
  always check (ops ++ rest) this =
  always check ops this && always check rest (run ops this).
Proof.
  revert this. induction ops as [| op ops IH]; intros this; simpl; auto.
  now rewrite IH, andb_assoc.
Qed.

Lemma well_hosted_mounted ops this :
  well_hosted ops this = true -> all_mounted ops this = true.
Proof.
  unfold well_hosted, all_mounted. revert this.
  induction ops as [| op ops IH]; intros this; simpl; auto.
  intros H. apply andb_true_iff in H. destruct H as (Hop & H).
  now rewrite (hosted_mounted _ _ Hop), IH.
Qed.

Lemma run_consistent ops this :
  all_mounted ops this = true ->
  consistent this -> pending this ->
  consistent (run ops this) /\ pending (run ops this) /\
  max (run ops this) = max this.
Proof.
  unfold all_mounted. revert this.
  induction ops as [| op ops IH]; intros this Hm Hc Hp; simpl.
  - auto.
  - simpl in Hm. apply andb_true_iff in Hm. destruct Hm as (Hop & Hm).
    destruct (step_consistent op this Hop Hc Hp) as (H1 & H2 & H3).
    destruct (IH _ Hm H1 H2) as (H4 & H5 & H6).
    split; [assumption |]. split; [assumption | congruence].
Qed.

Lemma run_owned ops this :
  well_hosted ops this = true ->
  consistent this -> pending this -> owned this ->
  owned (run ops this).
Proof.
  unfold well_hosted. revert this.
  induction ops as [| op ops IH]; intros this Hh Hc Hp Hown; simpl.
  - assumption.
  - simpl in Hh. apply andb_true_iff in Hh. destruct Hh as (Hop & Hh).
    destruct (step_consistent op this (hosted_mounted _ _ Hop) Hc Hp)
      as (H1 & H2 & _).
    destruct (step_owned op this Hop Hc Hp Hown) as (H3 & _).
    now apply IH.
Qed.

Lemma run_within_capacity ops this n :
  all_mounted ops this = true ->
  consistent this -> pending this ->
  capacity (max this) = Some n -> (0 < n)%Z ->
  (Z.of_nat (List.length (keys this)) <= n)%Z ->
  (Z.of_nat (List.length (keys (run ops this))) <= n)%Z.
Proof.
  unfold all_mounted. revert this.
  induction ops as [| op ops IH]; intros this Hm Hc Hp Hcap Hpos Hlen; simpl.
  - assumption.
  - simpl in Hm. apply andb_true_iff in Hm. destruct Hm as (Hop & Hm).
    destruct (step_consistent op this Hop Hc Hp) as (H1 & H2 & H3).
    apply IH; auto.
    + now rewrite H3.
    + now apply step_within_capacity.
Qed.

(** The recency order never holds a key twice. *)
Lemma keys_NoDup_reachable inc exc mx ops :
  all_mounted ops (created inc exc mx) = true ->
  NoDup (keys (run ops (created inc exc mx))).
Proof.
  intros Hm.
  destruct (run_consistent ops (created inc exc mx) Hm) as (Hc & _).
  - apply created_consistent.
  - apply created_pending.
  - apply (keys_unique _ Hc).
Qed.

(** ** The candidate and its key are assigned together *)

Lemma for_each_invariant (P : KeepAlive -> Prop) body names :
  (forall key this, P this -> P (snd (body key this))) ->
  forall this, P this -> P (snd (for_each names body this)).
Proof.
  intros Hbody. induction names as [| key names IH]; intros this HP; simpl.
  - assumption.
  - unfold bind at 1. specialize (Hbody key this HP).
    destruct (body key this) as [[[] |] this1]; cbn [snd] in *; auto.
Qed.

Lemma pruneCacheEntry_staged key current this :
  same_staged this (snd (pruneCacheEntry key current this)).
Proof.
  unfold pruneCacheEntry, bind, modify, ret, destroy, throw.
  destruct (entry_at (cache this) key) as [entry |]; [| repeat split].
  destruct (tag_differs entry current); [| repeat split].
  destruct (CacheEntry.componentInstance entry); repeat split.
Qed.

Lemma pruneCacheEntry_key_assigned key current this :
  key_assigned this -> key_assigned (snd (pruneCacheEntry key current this)).
Proof.
  unfold key_assigned.
  destruct (pruneCacheEntry_staged key current this) as (-> & ->). auto.
Qed.

Lemma step_key_assigned op this :
  key_assigned this -> key_assigned (snd (step op this)).
Proof.
  intros HP.
  assert (Hcommit : key_assigned (snd (cacheVNode this))).
  { unfold cacheVNode.
    destruct (vnodeToCache this) as [vnode |] eqn:Hv; [| exact HP].
    destruct (keyToCache this) as [key |] eqn:Hk; [| exact HP].
    unfold bind, modify. cbn.
    destruct (over_max _ _);
      [| unfold key_assigned; cbn; rewrite Hk; congruence].
    destruct (keys this ++ [ key ]) as [| first rest];
      [unfold key_assigned; cbn; rewrite Hk; congruence |].
    match goal with
    | |- context [pruneCacheEntry first ?cur ?s] =>
        pose proof (pruneCacheEntry_staged first cur s) as (_ & Hkc);
        destruct (pruneCacheEntry first cur s) as [[[] |] this1]
    end; cbn in *; unfold key_assigned; cbn; rewrite Hkc, Hk; congruence. }
  assert (Hloop : forall filter,
             key_assigned (snd (pruneCache filter this))).
  { intros filter. unfold pruneCache. apply for_each_invariant; auto.
    intros key t Ht.
    destruct (entry_at (cache t) key) as [entry |]; auto.
    destruct (CacheEntry.name entry) as [name |]; auto.
    destruct (JS.truthy_string name && negb (filter name)); auto.
    now apply pruneCacheEntry_key_assigned. }
  destruct op as [slot vnode | | | val | val | val | val | vnode |];
    try assumption.
  - rewrite step_render. unfold render.
    destruct vnode as [v |]; [| exact HP].
    destruct (VNode.componentOptions v) as [co |]; [| exact HP].
    destruct (not_included _ _ || excluded _ _); [exact HP |].
    destruct (entry_at _ _) as [entry |];
      unfold bind, modify, set_keepAlive, ret, throw; cbn;
      destruct (VNode.data v); cbn; unfold key_assigned; cbn; auto;
      congruence.
  - apply Hloop.
  - apply Hloop.
  - unfold step, destroyed. apply for_each_invariant; auto.
    intros key t. apply pruneCacheEntry_key_assigned.
Qed.

(** Whatever the host does, mounted nodes or not, a pending candidate has
    its key. *)
Lemma staged_key_assigned inc exc mx ops :
  key_assigned (run ops (created inc exc mx)).
Proof.
  assert (H : forall this, key_assigned this -> key_assigned (run ops this)).
  { induction ops as [| op ops IH]; intros this HP; simpl; auto.
    apply IH. now apply step_key_assigned. }
  apply H. intros Hv. now cbn in Hv.
Qed.

(** ** The capacity invariant *)

(** C1.  Whatever the host does to a store created with a positive integer
    capacity (every rendered node being mounted by the time its hook runs),
    the recency order [keys] is never longer than the capacity; in
    particular it is within the capacity after every commit. *)
Theorem keys_within_capacity inc exc mx n ops :
  capacity mx = Some n -> (0 < n)%Z ->
  all_mounted ops (created inc exc mx) = true ->
  (Z.of_nat (List.length (keys (run ops (created inc exc mx)))) <= n)%Z.
Proof.
  intros Hcap Hpos Hm.
  apply run_within_capacity; auto.
  - apply created_consistent.
  - apply created_pending.
  - cbn. lia.
Qed.

Lemma keys_within_capacity_witness :
  (Z.of_nat
     (List.length
        (keys (run three_components (created None None (Some (MaxNumber 2))))))
   <= 2)%Z.
Proof.
  apply (keys_within_capacity None None (Some (MaxNumber 2)) 2 three_components);
    [reflexivity | lia | reflexivity].
Defined.

(** ** Destroyed once, and only on removal *)

(** C2.  Across every run of the host (lookups and stagings by [render],
    commits, policy watchers, teardown) in which the instance of a staged
    node is alive and not yet in the cache, no instance is destroyed twice,
    no destroyed instance is still held by the cache, and what a step
    destroys is what it has just taken out of the store. *)
Theorem destroy_once_on_removal inc exc mx ops op :
  well_hosted (ops ++ [ op ]) (created inc exc mx) = true ->
  let before := run ops (created inc exc mx) in
  let after := snd (step op before) in
  NoDup (destroyed_instances after) /\
  (forall i, In i (destroyed_instances after) ->
             forall key, In key (keys after) -> ~ holds_at after key i) /\
  (forall i, In i (destroyed_instances after) -> ~ holds after i) /\
  discards before after.
Proof.
  intros Hh before after.
  unfold well_hosted in Hh. rewrite always_app in Hh.
  apply andb_true_iff in Hh. destruct Hh as (Hops & Hop).
  fold before in Hop. cbn [always] in Hop. rewrite andb_true_r in Hop.
  destruct (run_consistent ops (created inc exc mx)) as (Hc & Hp & _);
    [now apply well_hosted_mounted | apply created_consistent
    | apply created_pending |].
  assert (Hown : owned before).
  { apply run_owned; auto using created_consistent, created_pending, created_owned. }
  fold before in Hc, Hp.
  destruct (step_owned op before Hop Hc Hp Hown) as (Hown' & Hdis).
  fold after in Hown', Hdis.
  split; [apply (destroyed_once _ Hown') |].
  split; [| split; [apply (destroyed_released _ Hown') | assumption]].
  intros i Hi key _ Hheld.
  apply (destroyed_released _ Hown' i Hi). now exists key.
Qed.

Lemma destroy_once_on_removal_witness :
  let before := run survivor_cached_again (created None None None) in
  let after := snd (step Destroyed before) in
  NoDup (destroyed_instances after) /\
  (forall i, In i (destroyed_instances after) ->
             forall key, In key (keys after) -> ~ holds_at after key i) /\
  (forall i, In i (destroyed_instances after) -> ~ holds after i) /\
  discards before after.
Proof.
  apply (destroy_once_on_removal None None None survivor_cached_again Destroyed).
  reflexivity.
Defined.

(** ** Teardown *)

Lemma KeepAlive_ext (a b : KeepAlive) :
  same_config a b -> same_staged a b ->
  cache b = cache a -> keys b = keys a ->
  destroyed_instances b = destroyed_instances a ->
  b = a.
Proof.
  destruct a, b. unfold same_config, same_staged. cbn.
  intros (-> & -> & -> & ->) (-> & ->) -> -> ->. reflexivity.
Qed.

Lemma set_same_value {V} (o : JS.object V) k v :
  JS.get o k = Some v -> JS.set o k v = o.
Proof.
  induction o as [| [k0 v0] o IH]; simpl; [discriminate |].
  destruct (k0 =? k) eqn:E.
  - now intros [= ->].
  - intros H. now rewrite IH.
Qed.

Lemma tombstone_get c key :
  In key (JS.property_names c) -> entry_at c key = None ->
  JS.get c key = Some None.
Proof.
  intros Hin. unfold entry_at.
  destruct (JSFacts.In_get c key Hin) as (v & ->).
  destruct v; [discriminate | reflexivity].
Qed.

Lemma pruneCacheEntry_tombstone key current this :
  In key (JS.property_names (cache this)) ->
  entry_at (cache this) key = None ->
  ~ In key (keys this) ->
  pruneCacheEntry key current this = (Normal tt, this).
Proof.
  intros Hin Hnone Hout. unfold pruneCacheEntry. rewrite Hnone.
  unfold bind, modify, ret. cbn. f_equal.
  apply KeepAlive_ext; cbn; try (repeat split; fail).
  - apply set_same_value. now apply tombstone_get.
  - now apply remove_absent.
Qed.

Lemma tag_differs_no_current entry : tag_differs entry None = true.
Proof. reflexivity. Qed.

Lemma teardown_loop names this :
  consistent this ->
  incl names (JS.property_names (cache this)) ->
  exists this',
    for_each names (fun key => pruneCacheEntry key None) this = (Normal tt, this') /\
    consistent this' /\ recedes this this' /\
    (forall k, In k names -> entry_at (cache this') k = None) /\
    (forall i, In i (destroyed_instances this) -> In i (destroyed_instances this')) /\
    (forall i, holds this i -> holds this' i \/ In i (destroyed_instances this')).
Proof.
  revert this. induction names as [| key names IH]; intros this Hc Hincl.
  - exists this. simpl. split; [reflexivity |]. split; [assumption |].
    split; [apply recedes_refl |]. split; [intros k [] |]. auto.
  - destruct (pruneCacheEntry_returns key None this) as (this1 & E1 & Hp).
    { intros entry. apply (entries_mounted _ Hc). }
    assert (Hr1 : recedes this this1).
    { eapply prunes_recedes; eauto. apply Hincl. now left. }
    assert (Hc1 : consistent this1) by (eapply prunes_consistent; eauto).
    destruct (IH this1 Hc1) as (this' & E & Hc' & Hr & Hnone & Hmono & Hleak).
    { rewrite (recedes_names _ _ Hr1). intros k Hk. apply Hincl. now right. }
    exists this'. simpl. unfold bind at 1. rewrite E1.
    split; [assumption |]. split; [assumption |].
    split; [eapply recedes_trans; eauto |].
    pose proof Hp as (Hcache & _ & Hd & _).
    split; [| split].
    + intros k [<- | Hk]; [| now apply Hnone].
      destruct (entry_at (cache this') key) as [entry |] eqn:He; auto.
      apply (recedes_entries _ _ Hr) in He.
      rewrite Hcache, entry_at_set_same in He. discriminate.
    + intros i Hi. apply Hmono. rewrite Hd. apply in_or_app. now left.
    + intros i (k & Hk). destruct (string_dec k key) as [-> | Hne].
      * right. apply Hmono. rewrite Hd. apply in_or_app. right.
        destruct Hk as (entry & He & Hi). unfold destroyed_by.
        rewrite He, tag_differs_no_current, Hi. now left.
      * apply Hleak. exists k. apply (holds_at_prunes _ _ _ _ k i Hp). auto.
Qed.

Lemma teardown_idle this :
  (forall k, entry_at (cache this) k = None) ->
  keys this = [] ->
  destroyed this = (Normal tt, this).
Proof.
  intros Hnone Hkeys. unfold destroyed.
  assert (Hincl : incl (JS.for_in_keys (cache this)) (JS.property_names (cache this))).
  { intros k. apply JSFacts.In_for_in_keys. }
  induction (JS.for_in_keys (cache this)) as [| key names IH]; [reflexivity |].
  simpl. unfold bind at 1.
  rewrite pruneCacheEntry_tombstone; auto.
  - apply IH. intros k Hk. apply Hincl. now right.
  - apply Hincl. now left.
  - rewrite Hkeys. intros [].
Qed.

(** C7.  Teardown of a store in any state the host can bring about returns,
    and has then destroyed exactly the instances the cache held, each once
    and whatever its tag; no key is left in [keys] and no entry in [cache];
    a second teardown destroys nothing and leaves the store as it is. *)
Theorem teardown_destroys_all this :
  consistent this -> owned this ->
  exists this' delta,
    destroyed this = (Normal tt, this') /\
    destroyed_instances this' = destroyed_instances this ++ delta /\
    NoDup delta /\
    (forall i, In i delta <-> holds this i) /\
    (forall k, entry_at (cache this') k = None) /\
    keys this' = [] /\
    destroyed this' = (Normal tt, this').
Proof.
  intros Hc Hown.
  destruct (destroyed_returns this Hc) as (this' & E & Hc' & Hr & Hrel).
  destruct (Hrel Hown) as (delta & Hd & Hnd & Hdelta).
  destruct (teardown_loop (JS.for_in_keys (cache this)) this Hc)
    as (this1 & E1 & _ & _ & Hnone & _ & Hleak).
  { intros k. apply JSFacts.In_for_in_keys. }
  unfold destroyed in E. rewrite E in E1. injection E1 as <-.
  assert (Hall : forall k, entry_at (cache this') k = None).
  { intros k. destruct (entry_at (cache this') k) as [entry |] eqn:He; auto.
    rewrite <- He. apply Hnone. apply JSFacts.In_for_in_keys.
    rewrite <- (recedes_names _ _ Hr). eapply entry_at_In; eauto. }
  assert (Hkeys : keys this' = []).
  { destruct (keys this') as [| k rest] eqn:Hk; auto.
    assert (Hin : In k (keys this')) by (rewrite Hk; now left).
    apply (lockstep _ Hc') in Hin. now rewrite Hall in Hin. }
  exists this', delta.
  split; [exact E |]. split; [assumption |]. split; [assumption |].
  split; [| split; [assumption | split; [assumption |]]].
  - intros i. split; [intros Hi; apply (Hdelta i Hi) |].
    intros Hheld. destruct (Hleak i Hheld) as [(k & entry & He & _) | Hin].
    + rewrite Hall in He. discriminate.
    + rewrite Hd in Hin. apply in_app_or in Hin. destruct Hin; auto.
      exfalso. eapply destroyed_released; eauto.
  - now apply teardown_idle.
Qed.

(** ** Policy pruning, entry by entry *)

Lemma In_destroyed_by key current this i :
  In i (destroyed_by key current this) <->
  exists entry,
    entry_at (cache this) key = Some entry /\
    tag_differs entry current = true /\
    CacheEntry.componentInstance entry = Some i.
Proof.
  unfold destroyed_by.
  destruct (entry_at (cache this) key) as [entry |];
    [| split; [intros [] | intros (e & H & _); discriminate]].
  destruct (tag_differs entry current) eqn:Ht;
    [| split; [intros [] | intros (e & [= <-] & H & _); congruence]].
  destruct (CacheEntry.componentInstance entry) as [j |] eqn:Hj;
    [| split; [intros [] | intros (e & [= <-] & _ & H); congruence]].
  split.
  - intros [<- | []]. exists entry. auto.
  - intros (e & [= <-] & _ & H). left. congruence.
Qed.

Lemma pruneCache_loop filter current names this :
  consistent this ->
  incl names (JS.property_names (cache this)) ->
  exists this' delta,
    for_each names
      (fun key this =>
         match entry_at (cache this) key with
         | Some entry =>
             match CacheEntry.name entry with
             | Some name =>
                 if JS.truthy_string name && negb (filter name)
                 then pruneCacheEntry key current this
                 else ret tt this
             | None => ret tt this
             end
         | None => ret tt this
         end) this = (Normal tt, this') /\
    consistent this' /\ recedes this this' /\
    (forall k entry,
        entry_at (cache this') k = Some entry <->
        entry_at (cache this) k = Some entry /\
        ~ (In k names /\ fails filter entry = true)) /\
    destroyed_instances this' = destroyed_instances this ++ delta /\
    (forall i,
        In i delta <->
        exists k entry,
          In k names /\ entry_at (cache this) k = Some entry /\
          fails filter entry = true /\ tag_differs entry current = true /\
          CacheEntry.componentInstance entry = Some i).
Proof.
  revert this. induction names as [| key names IH]; intros this Hc Hincl.
  - exists this, []. simpl. split; [reflexivity |]. split; [assumption |].
    split; [apply recedes_refl |]. split; [| split].
    + intros k entry. tauto.
    + now rewrite app_nil_r.
    + intros i. split; [intros [] | intros (k & e & [] & _)].
  - assert (Hrest : incl names (JS.property_names (cache this))).
    { intros k Hk. apply Hincl. now right. }
    destruct (pruned_at filter this key) eqn:Hpr.
    + (* the entry under [key] is pruned *)
      unfold pruned_at in Hpr.
      destruct (entry_at (cache this) key) as [e0 |] eqn:He0; [| discriminate].
      destruct (pruneCacheEntry_returns key current this) as (this1 & E1 & Hp).
      { intros entry. apply (entries_mounted _ Hc). }
      assert (Hr1 : recedes this this1).
      { eapply prunes_recedes; eauto. apply Hincl. now left. }
      assert (Hc1 : consistent this1) by (eapply prunes_consistent; eauto).
      destruct (IH this1 Hc1) as (this' & delta & E & Hc' & Hr & Hent & Hd & Hdelta).
      { now rewrite (recedes_names _ _ Hr1). }
      pose proof Hp as (Hcache & _ & Hd1 & _).
      exists this', (destroyed_by key current this ++ delta).
      split.
      { simpl. unfold bind at 1. rewrite He0.
        unfold fails in Hpr. destruct (CacheEntry.name e0) as [name |];
          [| discriminate].
        rewrite Hpr, E1. exact E. }
      split; [assumption |]. split; [eapply recedes_trans; eauto |].
      split; [| split].
      * intros k entry. rewrite Hent, Hcache, entry_at_set. simpl.
        destruct (key =? k) eqn:Ek.
        -- apply String.eqb_eq in Ek. subst k.
           split; [intros ([=] & _) |].
           intros (H & Hn). exfalso. apply Hn. split; [now left |].
           congruence.
        -- apply String.eqb_neq in Ek. intuition.
      * now rewrite Hd, Hd1, app_assoc.
      * intros i. rewrite in_app_iff, In_destroyed_by, Hdelta. split.
        -- intros [(e & He & Ht & Hi) | (k & e & Hk & He & Hf & Ht & Hi)].
           ++ exists key, e. rewrite He0 in He. injection He as <-.
              repeat split; auto. now left.
           ++ exists k, e. rewrite Hcache, entry_at_set in He.
              destruct (key =? k); [discriminate |].
              repeat split; auto. now right.
        -- intros (k & e & Hk & He & Hf & Ht & Hi).
           destruct (string_dec key k) as [<- | Hne].
           ++ left. eauto.
           ++ right. exists k, e. destruct Hk as [Hk | Hk]; [contradiction |].
              rewrite Hcache, entry_at_set_other by assumption. auto.
    + (* the entry under [key] stays *)
      destruct (IH this Hc Hrest) as (this' & delta & E & Hc' & Hr & Hent & Hd & Hdelta).
      assert (Hstay : forall e, entry_at (cache this) key = Some e ->
                                fails filter e = false).
      { intros e He. unfold pruned_at in Hpr. now rewrite He in Hpr. }
      exists this', delta.
      split.
      { simpl. unfold bind at 1.
        destruct (entry_at (cache this) key) as [e0 |] eqn:He0; [| exact E].
        specialize (Hstay e0 eq_refl). unfold fails in Hstay.
        destruct (CacheEntry.name e0) as [name |]; [| exact E].
        rewrite Hstay. exact E. }
      split; [assumption |]. split; [assumption |].
      split; [| split; [assumption |]].
      * intros k entry. rewrite Hent. simpl. split.
        -- intros (He & Hn). split; [assumption |].
           intros ([<- | Hk] & Hf); [| tauto].
           rewrite (Hstay entry He) in Hf. discriminate.
        -- intros (He & Hn). tauto.
      * intros i. rewrite Hdelta. split.
        -- intros (k & e & Hk & H). exists k, e. split; [now right | exact H].
        -- intros (k & e & [<- | Hk] & He & Hf & H).
           ++ rewrite (Hstay e He) in Hf. discriminate.
           ++ exists k, e. auto.
Qed.

Lemma pruned_at_entry filter this k entry :
  entry_at (cache this) k = Some entry ->
  pruned_at filter this k = fails filter entry.
Proof. unfold pruned_at. now intros ->. Qed.

(** [pruneCache] returns, and what it leaves is the store without the
    entries that fail the filter. *)
Lemma pruneCache_exact filter this :
  consistent this ->
  exists this' delta,
    pruneCache filter this = (Normal tt, this') /\
    consistent this' /\ recedes this this' /\
    (forall k,
        entry_at (cache this') k =
        if pruned_at filter this k then None else entry_at (cache this) k) /\
    keys this' = List.filter (fun k => negb (pruned_at filter this k)) (keys this) /\
    destroyed_instances this' = destroyed_instances this ++ delta /\
    (forall i,
        In i delta <->
        exists k entry,
          entry_at (cache this) k = Some entry /\
          fails filter entry = true /\
          tag_differs entry (_vnode this) = true /\
          CacheEntry.componentInstance entry = Some i).
Proof.
  intros Hc.
  destruct (pruneCache_loop filter (_vnode this) (JS.for_in_keys (cache this)) this Hc)
    as (this' & delta & E & Hc' & Hr & Hent & Hd & Hdelta).
  { intros k. apply JSFacts.In_for_in_keys. }
  assert (Hnamed : forall k entry,
             entry_at (cache this) k = Some entry ->
             In k (JS.for_in_keys (cache this))).
  { intros k entry He. apply JSFacts.In_for_in_keys. eapply entry_at_In; eauto. }
  assert (Hentries : forall k,
             entry_at (cache this') k =
             if pruned_at filter this k then None else entry_at (cache this) k).
  { intros k. unfold pruned_at.
    destruct (entry_at (cache this) k) as [entry |] eqn:He.
    - destruct (fails filter entry) eqn:Hf.
      + destruct (entry_at (cache this') k) as [e' |] eqn:He'; auto.
        apply Hent in He'. destruct He' as (He1 & Hn).
        exfalso. apply Hn. split; [eauto | congruence].
      + apply Hent. split; [assumption |]. intros (_ & H). congruence.
    - destruct (entry_at (cache this') k) as [e' |] eqn:He'; auto.
      apply Hent in He'. destruct He'. congruence. }
  exists this', delta.
  split; [exact E |]. split; [assumption |]. split; [assumption |].
  split; [assumption |]. split; [| split; [assumption |]].
  - destruct (recedes_order _ _ Hr) as (f & Hf). rewrite Hf.
    apply filter_ext_in. intros k Hk.
    assert (Hlive : entry_at (cache this) k <> None) by now apply (lockstep _ Hc).
    destruct (f k) eqn:Efk.
    + assert (Hin : In k (keys this')).
      { rewrite Hf. apply filter_In. auto. }
      apply (lockstep _ Hc') in Hin. rewrite Hentries in Hin.
      destruct (pruned_at filter this k); [congruence | reflexivity].
    + destruct (pruned_at filter this k) eqn:Hp; [reflexivity |].
      assert (Hin : In k (keys this')).
      { apply (lockstep _ Hc'). now rewrite Hentries, Hp. }
      rewrite Hf in Hin. apply filter_In in Hin. destruct Hin. congruence.
  - intros i. rewrite Hdelta. split.
    + intros (k & e & _ & H). eauto.
    + intros (k & e & He & H). exists k, e. eauto.
Qed.

Lemma run_created_consistent inc exc mx ops :
  all_mounted ops (created inc exc mx) = true ->
  consistent (run ops (created inc exc mx)) /\
  pending (run ops (created inc exc mx)).
Proof.
  intros Hm.
  destruct (run_consistent ops (created inc exc mx) Hm) as (Hc & Hp & _);
    auto using created_consistent, created_pending.
Qed.

Lemma run_created_owned inc exc mx ops :
  well_hosted ops (created inc exc mx) = true ->
  owned (run ops (created inc exc mx)).
Proof.
  intros Hh.
  apply run_owned; auto using created_consistent, created_pending, created_owned.
Qed.

(** ** The tag tie-break *)

(** C4.  In a store whose displayed node is [current], an entry that the
    commit evicts, or that a policy watcher prunes, is taken out of [cache]
    and [keys] in either case, and its instance is destroyed if and only if
    its tag differs from the tag of [current]. *)
Theorem tag_tie_break this key entry current :
  consistent this -> pending this -> owned this ->
  _vnode this = Some current ->
  entry_at (cache this) key = Some entry ->
  exists i,
    CacheEntry.componentInstance entry = Some i /\
    (forall vnode,
        vnodeToCache this = Some vnode ->
        hd_error (keys this) = Some key ->
        over_max (max this) (S (List.length (keys this))) = true ->
        exists this',
          cacheVNode this = (Normal tt, this') /\
          entry_at (cache this') key = None /\
          ~ In key (keys this') /\
          destroyed_instances this' =
            destroyed_instances this ++
            (if JS.strict_neq (CacheEntry.tag entry) (VNode.tag current)
             then [ i ] else [])) /\
    (forall filter,
        fails filter entry = true ->
        exists this',
          pruneCache filter this = (Normal tt, this') /\
          entry_at (cache this') key = None /\
          ~ In key (keys this') /\
          (In i (destroyed_instances this') <->
           JS.strict_neq (CacheEntry.tag entry) (VNode.tag current) = true)).
Proof.
  intros Hc Hp Hown Hcur He.
  destruct (CacheEntry.componentInstance entry) as [i |] eqn:Hi;
    [| exfalso; eapply (entries_mounted _ Hc); eauto].
  exists i. split; [reflexivity |]. split.
  - intros vnode Hv Hhd Hover.
    destruct (cacheVNode_commits this vnode Hc Hp Hv)
      as (key0 & this' & Hk0 & Hnone & _ & E & _ & Ha & Hpr).
    rewrite Hover in Hpr.
    assert (Hfirst : hd key0 (keys this) = key).
    { destruct (keys this); simpl in *; congruence. }
    rewrite Hfirst in Hpr.
    assert (Hne : key0 <> key) by congruence.
    pose proof (prunes_consistent _ _ _ _ Ha Hpr) as Hc'.
    destruct Hpr as (Hcache & Hkeys & Hd & _).
    assert (Hgone : entry_at (cache this') key = None).
    { rewrite Hcache. apply entry_at_set_same. }
    exists this'. split; [assumption |]. split; [assumption |]. split.
    + rewrite (lockstep _ Hc'). tauto.
    + rewrite Hd. cbn [destroyed_instances with_vnodeToCache admitted
                         with_keys with_cache].
      f_equal. unfold destroyed_by. cbn [cache with_vnodeToCache].
      rewrite entry_at_admitted.
      apply String.eqb_neq in Hne. rewrite Hne, He, Hi, Hcur. reflexivity.
  - intros filter Hf.
    destruct (pruneCache_exact filter this Hc)
      as (this' & delta & E & Hc' & _ & Hent & _ & Hd & Hdelta).
    assert (Hgone : entry_at (cache this') key = None).
    { rewrite Hent, (pruned_at_entry _ _ _ _ He), Hf. reflexivity. }
    exists this'. split; [assumption |]. split; [assumption |]. split.
    + rewrite (lockstep _ Hc'). tauto.
    + assert (Hheld : holds_at this key i) by (exists entry; auto).
      rewrite Hd, in_app_iff, Hdelta. split.
      * intros [Hin | (k & e & Hk & _ & Ht & Hie)].
        -- exfalso. eapply destroyed_released; eauto. now exists key.
        -- assert (k = key) as ->.
           { eapply held_once; eauto. exists e. auto. }
           rewrite He in Hk. injection Hk as <-.
           now rewrite Hcur in Ht.
      * intros Ht. right. exists key, entry. rewrite Hcur. auto.
Qed.

Lemma tag_tie_break_witness :
  (let this := run gamma_pending (created None None (Some (MaxNumber 2))) in
   exists this',
     cacheVNode this = (Normal tt, this') /\
     entry_at (cache this') "A" = None /\
     ~ In "A" (keys this') /\
     destroyed_instances this' = [ 1 ]) /\
  (let this := run beta_displayed (created None None (Some (MaxNumber 2))) in
   exists this',
     include_changed (Some (PString "Alpha")) this = (Normal tt, this') /\
     entry_at (cache this') "B" = None /\
     ~ In "B" (keys this') /\
     ~ In 2 (destroyed_instances this')).
Proof.
  split.
  - intros this.
    destruct (tag_tie_break this "A"
                {| CacheEntry.name := Some "Alpha";
                   CacheEntry.tag := Some "alpha";
                   CacheEntry.componentInstance := Some 1 |}
                (component_vnode "B" "Beta" "beta" 2))
      as (i & Hi & Hevict & _).
    + apply run_created_consistent. reflexivity.
    + apply run_created_consistent. reflexivity.
    + apply run_created_owned. reflexivity.
    + reflexivity.
    + reflexivity.
    + injection Hi as <-.
      destruct (Hevict (VNode.with_data (component_vnode "C" "Gamma" "gamma" 3)
                          {| VNodeData.keepAlive := true |}))
        as (this' & E & Hgone & Hout & Hd); [reflexivity .. |].
      exists this'. repeat split; assumption.
  - intros this.
    destruct (tag_tie_break this "B"
                {| CacheEntry.name := Some "Beta";
                   CacheEntry.tag := Some "beta";
                   CacheEntry.componentInstance := Some 2 |}
                (component_vnode "B" "Beta" "beta" 2))
      as (i & Hi & _ & Hprune).
    + apply run_created_consistent. reflexivity.
    + apply run_created_consistent. reflexivity.
    + apply run_created_owned. reflexivity.
    + reflexivity.
    + reflexivity.
    + injection Hi as <-.
      destruct (Hprune (fun name => matches (Some (PString "Alpha")) name))
        as (this' & E & Hgone & Hout & Hd); [reflexivity |].
      exists this'. split; [exact E |]. split; [exact Hgone |].
      split; [exact Hout |]. intros Hin. apply Hd in Hin. discriminate.
Defined.

Lemma teardown_destroys_all_witness :
  let this := run beta_displayed (created None None (Some (MaxNumber 2))) in
  exists this' delta,
    destroyed this = (Normal tt, this') /\
    destroyed_instances this' = destroyed_instances this ++ delta /\
    NoDup delta /\
    (forall i, In i delta <-> holds this i) /\
    (forall k, entry_at (cache this') k = None) /\
    keys this' = [] /\
    destroyed this' = (Normal tt, this').
Proof.
  intros this. apply teardown_destroys_all.
  - apply run_created_consistent. reflexivity.
  - apply run_created_owned. reflexivity.
Defined.

(** ** Policy changes *)


Lemma matches_empty_string name :
  JS.truthy_string name = true -> matches (Some (PString "")) name = false.
Proof.
  unfold JS.truthy_string. cbn. intros H. apply negb_true_iff in H.
  now rewrite H.
Qed.

Lemma fails_include val entry :
  pattern_set val = true ->
  fails (fun name => matches val name) entry = negb (kept val None entry).
Proof.
  intros Hset. unfold fails, kept, isAdmissible, not_included, excluded.
  rewrite Hset. cbn [pattern_set andb orb].
  destruct (CacheEntry.name entry) as [name |]; cbn; [| reflexivity].
  destruct (JS.truthy_string name); cbn; [| reflexivity].
  destruct (matches val name); reflexivity.
Qed.

Lemma fails_exclude val entry :
  fails (fun name => negb (matches val name)) entry = negb (kept None val entry).
Proof.
  unfold fails, kept, isAdmissible, not_included, excluded.
  cbn [pattern_set andb orb].
  destruct (CacheEntry.name entry) as [name |]; cbn; [| reflexivity].
  destruct (JS.truthy_string name) eqn:Ht; cbn; [| reflexivity].
  destruct (pattern_set val) eqn:Hset; cbn.
  - reflexivity.
  - destruct val as [[s | r | l] |]; cbn in Hset; try discriminate.
    + unfold JS.truthy_string in Hset. apply negb_false_iff in Hset.
      apply String.eqb_eq in Hset. subst s.
      now rewrite matches_empty_string.
    + reflexivity.
Qed.

(** C5, where the code departs from it.  [include] was "Alpha,Beta" and
    both components are cached; [include] is then replaced by the empty
    string.  [render] takes an empty [include] as no restriction, so that
    both names are admissible, and yet the watcher of [include], which asks
    [matches] alone, prunes both entries and destroys both instances; handed
    [undefined] it does the same.  A render of Alpha afterwards is admitted
    and finds nothing cached. *)
Theorem emptied_include_prunes_admitted_entries :
  let alpha := component_vnode "A" "Alpha" "alpha" 1 in
  let beta := component_vnode "B" "Beta" "beta" 2 in
  let this :=
    run [ render_node alpha; Updated; render_node beta; Updated;
          SetInclude (Some (PString "")) ]
        (created (Some (PString "Alpha,Beta")) None None) in
  let this' := snd (include_changed (include this) this) in
  keys this = [ "A"; "B" ] /\
  option_map CacheEntry.name (entry_at (cache this) "A") = Some (Some "Alpha") /\
  option_map CacheEntry.name (entry_at (cache this) "B") = Some (Some "Beta") /\
  isAdmissible (Some "Alpha") (include this) (exclude this) = true /\
  isAdmissible (Some "Beta") (include this) (exclude this) = true /\
  include_changed (include this) this = (Normal tt, this') /\
  include_changed None this = (Normal tt, this') /\
  keys this' = [] /\
  entry_at (cache this') "A" = None /\
  entry_at (cache this') "B" = None /\
  destroyed_instances this' = [ 1; 2 ] /\
  lookup this' (Some alpha) = Miss "A" alpha.
Proof. vm_compute. repeat split; reflexivity. Qed.

(** ** Pruning one key *)

(** C9.  [pruneCacheEntry] on a store in any state the host can bring
    about returns; the key has no entry in [cache] and no place in [keys]
    afterwards, the other keys keep their entries and their relative order
    (wherever in the order the key was); when the key has no live entry,
    nothing is destroyed and neither the live entries nor [keys] change. *)
Theorem prune_removes_key this key current :
  consistent this ->
  exists this',
    pruneCacheEntry key current this = (Normal tt, this') /\
    entry_at (cache this') key = None /\
    ~ In key (keys this') /\
    keys this' = filter (fun k => negb (k =? key)) (keys this) /\
    (forall k, k <> key -> entry_at (cache this') k = entry_at (cache this) k) /\
    (entry_at (cache this) key = None ->
     keys this' = keys this /\
     destroyed_instances this' = destroyed_instances this /\
     forall k, entry_at (cache this') k = entry_at (cache this) k).
Proof.
  intros Hc.
  destruct (pruneCacheEntry_returns key current this) as (this' & E & Hp).
  { intros entry. apply (entries_mounted _ Hc). }
  pose proof Hp as (Hcache & Hkeys & Hd & _).
  exists this'. split; [assumption |].
  split; [rewrite Hcache; apply entry_at_set_same |].
  split; [rewrite Hkeys; apply remove_gone, (keys_unique _ Hc) |].
  split; [rewrite Hkeys; apply remove_filter, (keys_unique _ Hc) |].
  split.
  - intros k Hne. rewrite Hcache. apply entry_at_set_other. congruence.
  - intros Hnone. split; [| split].
    + rewrite Hkeys. apply remove_absent. rewrite (lockstep _ Hc). tauto.
    + rewrite Hd. unfold destroyed_by. rewrite Hnone. apply app_nil_r.
    + intros k. rewrite Hcache, entry_at_set.
      destruct (key =? k) eqn:Ek; auto.
      apply String.eqb_eq in Ek. now subst.
Qed.

Lemma prune_removes_key_witness :
  let this := run three_components (created None None None) in
  exists this',
    pruneCacheEntry "A" None this = (Normal tt, this') /\
    keys this' = [ "B"; "C" ].
Proof.
  intros this.
  destruct (prune_removes_key this "A" None)
    as (this' & E & _ & _ & Hkeys & _).
  - apply run_created_consistent. reflexivity.
  - exists this'. split; [exact E |]. rewrite Hkeys. reflexivity.
Defined.

(** ** The pending candidate stays outside the store *)

Lemma nothing_enters_refl this : nothing_enters this this.
Proof. repeat split; auto. Qed.

Lemma nothing_enters_trans a b c :
  nothing_enters a b -> nothing_enters b c -> nothing_enters a c.
Proof.
  intros (H1 & H2 & H3 & H4) (G1 & G2 & G3 & G4).
  repeat split; auto; [lia | congruence].
Qed.

Lemma recedes_nothing_enters this this' :
  recedes this this' -> nothing_enters this this'.
Proof.
  intros Hr. destruct (recedes_config _ _ Hr) as (_ & _ & Hmax & _).
  repeat split; auto.
  - apply (recedes_entries _ _ Hr).
  - apply (recedes_keys _ _ Hr).
  - apply (recedes_length _ _ Hr).
Qed.

Lemma step_nothing_enters op this :
  is_commit op = false ->
  consistent this ->
  nothing_enters this (snd (step op this)).
Proof.
  intros Hop Hc.
  destruct op as [slot vnode | | | val | val | val | val | vnode |];
    try discriminate.
  - rewrite step_render.
    destruct (lookup this vnode) as [| key entry | key v] eqn:L.
    + rewrite render_bypass by assumption. apply nothing_enters_refl.
    + destruct (render_hit slot vnode this key entry L)
        as (He & Hcache & Hkeys & _ & (_ & _ & Hmax & _) & _).
      assert (Hin : In key (keys this)).
      { apply (lockstep _ Hc). congruence. }
      split; [now rewrite Hcache |]. split; [| split; [| assumption]].
      * intros k. rewrite Hkeys. now apply In_promoted.
      * rewrite Hkeys, length_app. simpl.
        pose proof (remove_length _ _ Hin). lia.
    + destruct (render_miss slot vnode this key v L)
        as (_ & _ & Hcache & Hkeys & _ & (_ & _ & Hmax & _) & _).
      split; [now rewrite Hcache |]. rewrite Hkeys. auto.
  - cbn. repeat split; auto.
  - cbn. repeat split; auto.
  - destruct (pruneCache_returns (fun name => matches val name) this Hc)
      as (this' & E & _ & Hr & _).
    unfold step, include_changed. rewrite E.
    now apply recedes_nothing_enters.
  - destruct (pruneCache_returns (fun name => negb (matches val name)) this Hc)
      as (this' & E & _ & Hr & _).
    unfold step, exclude_changed. rewrite E.
    now apply recedes_nothing_enters.
  - cbn. repeat split; auto.
  - destruct (destroyed_returns this Hc) as (this' & E & _ & Hr & _).
    unfold step. rewrite E.
    now apply recedes_nothing_enters.
Qed.

Lemma run_nothing_enters ops this :
  all_mounted ops this = true -> no_commit ops = true ->
  consistent this -> pending this ->
  nothing_enters this (run ops this).
Proof.
  unfold all_mounted. revert this. induction ops as [| op ops IH]; intros this Hm Hn Hc Hp; simpl.
  - apply nothing_enters_refl.
  - simpl in Hm, Hn. apply andb_true_iff in Hm, Hn.
    destruct Hm as (Hop & Hm), Hn as (Hnop & Hn).
    apply negb_true_iff in Hnop.
    destruct (step_consistent op this Hop Hc Hp) as (H1 & H2 & _).
    apply (nothing_enters_trans this (snd (step op this))).
    + now apply step_nothing_enters.
    + now apply IH.
Qed.

(** C8.  Staging a candidate leaves [cache], [keys], [max] and the
    destroyed instances as they are; as long as no commit runs, whatever
    else the host does, no entry and no key comes into the store; and a
    commit with no pending candidate returns the store unchanged. *)
Theorem staged_candidate_stays_outside this :
  consistent this -> pending this ->
  (forall slot vnode key v,
      lookup this vnode = Miss key v ->
      let this' := snd (render slot vnode this) in
      cache this' = cache this /\ keys this' = keys this /\
      max this' = max this /\
      destroyed_instances this' = destroyed_instances this /\
      keyToCache this' = Some key) /\
  (forall ops,
      all_mounted ops this = true -> no_commit ops = true ->
      nothing_enters this (run ops this)) /\
  (vnodeToCache this = None -> cacheVNode this = (Normal tt, this)).
Proof.
  intros Hc Hp. split; [| split].
  - intros slot vnode key v L.
    destruct (render_miss slot vnode this key v L)
      as (_ & _ & Hcache & Hkeys & Hd & (_ & _ & Hmax & _) & Hk & _).
    cbv zeta. auto.
  - intros ops Hm Hn. now apply run_nothing_enters.
  - apply cacheVNode_idle.
Qed.

Lemma staged_candidate_stays_outside_witness :
  let this := run beta_displayed (created None None (Some (MaxNumber 2))) in
  nothing_enters this
    (run [ render_node (component_vnode "C" "Gamma" "gamma" 3);
           IncludeChanged (Some (PString "Alpha")) ] this) /\
  cacheVNode this = (Normal tt, this).
Proof.
  intros this.
  destruct (staged_candidate_stays_outside this) as (_ & Hrun & Hidle).
  - apply run_created_consistent. reflexivity.
  - apply run_created_consistent. reflexivity.
  - split; [apply Hrun; reflexivity | apply Hidle; reflexivity].
Defined.

(** ** A removed key is looked up as a key never seen *)

Lemma pruned_leaves_tombstone key current this this' :
  prunes key current this this' -> JS.get (cache this') key = Some None.
Proof. intros (Hc & _). rewrite Hc. apply JSFacts.get_set_same. Qed.

(** What [render] returns for an admissible component node whose key has
    no live entry, be the property [null] or not there at all. *)
Lemma render_not_cached slot v co this :
  VNode.componentOptions v = Some co ->
  isAdmissible (_getComponentName (Some co)) (include this) (exclude this) = true ->
  entry_at (cache this) (key_of v co) = None ->
  render slot (Some v) this =
  match VNode.data v with
  | Some _ =>
      let staged := VNode.with_data v {| VNodeData.keepAlive := true |} in
      (Normal (Some staged),
       with_vnodeToCache
         (with_keyToCache (with_vnodeToCache this (Some v)) (Some (key_of v co)))
         (Some staged))
  | None =>
      (Throw,
       with_keyToCache (with_vnodeToCache this (Some v)) (Some (key_of v co)))
  end.
Proof.
  intros Hco Hadm Hnone. unfold render. rewrite Hco.
  unfold isAdmissible in Hadm. apply negb_true_iff in Hadm.
  rewrite Hadm, Hnone.
  unfold bind, modify, set_keepAlive, ret, throw. cbn.
  destruct (VNode.data v); reflexivity.
Qed.

Lemma render_not_admitted slot v co this :
  VNode.componentOptions v = Some co ->
  isAdmissible (_getComponentName (Some co)) (include this) (exclude this) = false ->
  render slot (Some v) this = (Normal (Some v), this).
Proof.
  intros Hco Hadm. unfold render. rewrite Hco.
  unfold isAdmissible in Hadm. apply negb_false_iff in Hadm.
  now rewrite Hadm.
Qed.

(** C10.  Take a store in which the key of a component node has been
    removed (its property is the [null] tombstone) and a store that never
    cached the key, under the same policy.  [render] gives the same answer
    in both: no cached instance is handed out, [cache] and [keys] stay as
    they were, and when the node is admissible it becomes the pending
    candidate under its key. *)
Theorem removed_key_is_a_miss this never slot v co :
  VNode.componentOptions v = Some co ->
  JS.get (cache this) (key_of v co) = Some None ->
  JS.get (cache never) (key_of v co) = None ->
  include never = include this -> exclude never = exclude this ->
  let after := render slot (Some v) this in
  let after_never := render slot (Some v) never in
  fst after = fst after_never /\
  (forall r, fst after = Normal (Some r) ->
             VNode.componentInstance r = VNode.componentInstance v) /\
  cache (snd after) = cache this /\
  keys (snd after) = keys this /\
  destroyed_instances (snd after) = destroyed_instances this /\
  (isAdmissible (_getComponentName (Some co)) (include this) (exclude this) = true ->
   lookup this (Some v) = Miss (key_of v co) v /\
   lookup never (Some v) = Miss (key_of v co) v /\
   keyToCache (snd after) = Some (key_of v co) /\
   keyToCache (snd after_never) = Some (key_of v co) /\
   vnodeToCache (snd after) = vnodeToCache (snd after_never) /\
   exists staged,
     vnodeToCache (snd after) = Some staged /\
     VNode.componentInstance staged = VNode.componentInstance v).
Proof.
  intros Hco Htomb Habsent Hinc Hexc after after_never.
  assert (Hnone : entry_at (cache this) (key_of v co) = None).
  { unfold entry_at. now rewrite Htomb. }
  assert (Hnone' : entry_at (cache never) (key_of v co) = None).
  { unfold entry_at. now rewrite Habsent. }
  destruct (isAdmissible (_getComponentName (Some co)) (include this) (exclude this))
    eqn:Hadm.
  - assert (Hadm' : isAdmissible (_getComponentName (Some co))
                      (include never) (exclude never) = true)
      by now rewrite Hinc, Hexc.
    subst after after_never.
    rewrite (render_not_cached slot v co this Hco Hadm Hnone).
    rewrite (render_not_cached slot v co never Hco Hadm' Hnone').
    unfold lookup. rewrite Hco, Hadm, Hadm', Hnone, Hnone'.
    destruct (VNode.data v); cbn.
    + repeat split; auto.
      * intros r [= <-]. reflexivity.
      * eexists. split; reflexivity.
    + repeat split; auto.
      * intros r [=].
      * eexists. split; reflexivity.
  - assert (Hadm' : isAdmissible (_getComponentName (Some co))
                      (include never) (exclude never) = false)
      by now rewrite Hinc, Hexc.
    subst after after_never.
    rewrite (render_not_admitted slot v co this Hco Hadm).
    rewrite (render_not_admitted slot v co never Hco Hadm').
    cbn. repeat split; auto; try discriminate.
    intros r [= <-]. reflexivity.
Qed.

Lemma removed_key_is_a_miss_witness :
  let this := run three_components (created None None (Some (MaxNumber 2))) in
  let never :=
    run [ render_node (component_vnode "A" "Alpha" "alpha" 1); Updated;
          render_node (component_vnode "C" "Gamma" "gamma" 4); Updated ]
      (created None None (Some (MaxNumber 2))) in
  let v := component_vnode "B" "Beta" "beta" 5 in
  fst (render None (Some v) this) = fst (render None (Some v) never) /\
  keys (snd (render None (Some v) this)) = keys this /\
  keyToCache (snd (render None (Some v) this)) = Some "B".
Proof.
  intros this never v.
  destruct (removed_key_is_a_miss this never None v
              {| VNodeComponentOptions.Ctor :=
                   {| Ctor.cid := 1; Ctor.options_name := Some "Beta" |};
                 VNodeComponentOptions.tag := Some "beta" |})
    as (Hsame & _ & _ & Hkeys & _ & Hstage); try reflexivity.
  destruct Hstage as (_ & _ & Hkey & _); [reflexivity |].
  auto.
Defined.

(** ** Admissibility *)





Lemma split_one seg :
  JS.has_comma seg = false -> JS.split_comma seg = [ seg ].
Proof.
  induction seg as [| c seg IH]; [reflexivity |].
  simpl. intros H. apply orb_false_iff in H. destruct H as (Ec & H).
  now rewrite Ec, IH.
Qed.

Lemma split_more seg rest :
  JS.has_comma seg = false ->
  JS.split_comma (seg ++ String JS.comma rest) = seg :: JS.split_comma rest.
Proof.
  induction seg as [| c seg IH]; intros H.
  - cbn [append JS.split_comma]. now rewrite Ascii.eqb_refl.
  - simpl in H. apply orb_false_iff in H. destruct H as (Ec & H).
    cbn [append JS.split_comma]. now rewrite Ec, IH.
Qed.

Lemma split_join segs :
  segs <> [] ->
  Forall (fun seg => JS.has_comma seg = false) segs ->
  JS.split_comma (JS.join_comma segs) = segs.
Proof.
  induction segs as [| seg segs IH]; [congruence |].
  intros _ Hall. inversion Hall as [| ? ? Hseg Hrest]; subst.
  destruct segs as [| seg2 more].
  - now apply split_one.
  - cbn [JS.join_comma]. rewrite split_more by assumption.
    f_equal. apply IH; [discriminate | assumption].
Qed.








(** ** Least recently used *)

Lemma over_max_capacity mx n len :
  capacity mx = Some n -> over_max mx len = (n <? Z.of_nat len)%Z.
Proof.
  unfold capacity, over_max.
  destruct (max_set mx); [| discriminate].
  destruct mx as [p |]; [| discriminate].
  now intros ->.
Qed.

Lemma cacheable_lookup inc exc this v :
  include this = inc -> exclude this = exc ->
  cacheable inc exc v = true ->
  entry_at (cache this) (node_key v) = None ->
  lookup this (Some v) = Miss (node_key v) v /\
  mounted_on_miss (Render (Some [ v ]) (Some v)) this = true.
Proof.
  intros <- <-. unfold cacheable, mounted_on_miss, staged_by, lookup, node_key.
  destruct (VNode.componentOptions v) as [co |]; [| discriminate].
  destruct (VNode.componentInstance v) eqn:Hi; [| discriminate].
  intros -> ->. now rewrite Hi.
Qed.

(** One node rendered on a miss and committed. *)
Lemma commit_miss v this :
  consistent this -> pending this ->
  cacheable (include this) (exclude this) v = true ->
  entry_at (cache this) (node_key v) = None ->
  let this' := run [ Render (Some [ v ]) (Some v); Updated ] this in
  let first := hd (node_key v) (keys this) in
  let over := over_max (max this) (S (List.length (keys this))) in
  consistent this' /\ pending this' /\ same_config this this' /\
  keys this' =
    (if over then remove (keys this ++ [ node_key v ]) first
     else keys this ++ [ node_key v ]) /\
  (forall k,
      entry_at (cache this') k =
      if over && (first =? k) then None
      else if node_key v =? k then Some (entry_of v)
           else entry_at (cache this) k) /\
  destroyed_instances this' =
    destroyed_instances this ++
    (if over
     then match (if node_key v =? first then Some (entry_of v)
                 else entry_at (cache this) first) with
          | Some entry =>
              if tag_differs entry (_vnode this)
              then match CacheEntry.componentInstance entry with
                   | Some i => [ i ]
                   | None => []
                   end
              else []
          | None => []
          end
     else []).
Proof.
  intros Hc Hp Hcb Hnone this' first over.
  destruct (cacheable_lookup _ _ this v eq_refl eq_refl Hcb Hnone) as (L & Hm).
  destruct (render_miss (Some [ v ]) (Some v) this _ v L)
    as (_ & _ & Hcache & Hkeys & Hd & Hcfg & Hkc & staged & Hvn & Htag & Hco & Hi).
  destruct (render_consistent (Some [ v ]) (Some v) this Hm Hc Hp) as (Hc1 & Hp1).
  subst this'. cbn [run]. rewrite step_render.
  set (this1 := snd (render (Some [ v ]) (Some v) this)) in *.
  destruct (cacheVNode_commits this1 staged Hc1 Hp1 Hvn)
    as (key & this2 & Hk & _ & _ & E & Hv2 & Ha & Hover).
  rewrite Hkc in Hk. injection Hk as <-.
  unfold step, updated. rewrite E. cbn [snd].
  destruct Hcfg as (Hinc & Hexc & Hmax & Hcur).
  rewrite Hmax, Hkeys in Hover. fold over first in Hover.
  assert (Hentry : entry_of staged = entry_of v).
  { unfold entry_of. now rewrite Htag, Hco, Hi. }
  assert (Hadm : forall k,
             entry_at (cache (with_vnodeToCache
                                (admitted this1 (node_key v) staged) None)) k =
             if node_key v =? k then Some (entry_of v)
             else entry_at (cache this) k).
  { intros k. cbn [cache with_vnodeToCache]. rewrite entry_at_admitted.
    fold (entry_of staged). now rewrite Hentry, Hcache. }
  assert (Hpend : pending this2) by (intros v0; rewrite Hv2; discriminate).
  destruct over.
  - pose proof (prunes_consistent _ _ _ _ Ha Hover) as Hc2.
    destruct Hover as (Hcache2 & Hkeys2 & Hd2 & (Hinc2 & Hexc2 & Hmax2 & Hcur2) & _).
    split; [assumption |]. split; [assumption |]. split.
    { cbn in Hinc2, Hexc2, Hmax2, Hcur2. unfold same_config.
      repeat split; congruence. }
    split; [| split].
    + rewrite Hkeys2. cbn. now rewrite Hkeys.
    + intros k. rewrite Hcache2, entry_at_set. cbn [andb].
      destruct (first =? k); auto.
    + rewrite Hd2. cbn [destroyed_instances with_vnodeToCache admitted
                          with_keys with_cache]. rewrite Hd. f_equal.
      unfold destroyed_by. rewrite Hadm. now rewrite Hcur.
  - subst this2. split; [assumption |]. split; [assumption |]. split.
    { unfold same_config. cbn. repeat split; congruence. }
    split; [| split].
    + cbn. now rewrite Hkeys.
    + intros k. cbn [andb]. apply Hadm.
    + cbn. now rewrite Hd, app_nil_r.
Qed.

(** Nodes committed one after the other while the store has room. *)
Lemma commit_each_fills vs this n :
  consistent this -> pending this ->
  capacity (max this) = Some n ->
  (Z.of_nat (List.length (keys this) + List.length vs) <= n)%Z ->
  Forall (fun v => cacheable (include this) (exclude this) v = true) vs ->
  NoDup (map node_key vs) ->
  (forall v, In v vs -> entry_at (cache this) (node_key v) = None) ->
  let this' := run (commit_each vs) this in
  consistent this' /\ pending this' /\ same_config this this' /\
  keys this' = keys this ++ map node_key vs /\
  destroyed_instances this' = destroyed_instances this /\
  (forall v, In v vs -> entry_at (cache this') (node_key v) = Some (entry_of v)) /\
  (forall k, ~ In k (map node_key vs) ->
             entry_at (cache this') k = entry_at (cache this) k).
Proof.
  revert this.
  induction vs as [| v vs IH]; intros this Hc Hp Hcap Hlen Hall Hnd Hnone.
  - cbn. rewrite app_nil_r.
    split; [assumption |]. split; [assumption |].
    split; [apply same_config_refl |]. split; [reflexivity |].
    split; [reflexivity |]. split; [intros v [] | reflexivity].
  - cbv zeta. change (commit_each (v :: vs))
      with ([ Render (Some [ v ]) (Some v); Updated ] ++ commit_each vs).
    rewrite run_app.
    inversion Hall as [| ? ? Hv Hvs]; subst.
    inversion Hnd as [| ? ? Hfresh Hnd']; subst.
    destruct (commit_miss v this Hc Hp Hv) as (Hc1 & Hp1 & Hcfg & Hkeys & Hent & Hd).
    { apply Hnone. now left. }
    set (this1 := run [ Render (Some [ v ]) (Some v); Updated ] this) in *.
    assert (Hover : over_max (max this) (S (List.length (keys this))) = false).
    { rewrite (over_max_capacity _ n) by assumption.
      apply Z.ltb_ge. simpl in Hlen. lia. }
    rewrite Hover in Hkeys, Hent, Hd. cbn [andb] in Hent.
    rewrite app_nil_r in Hd.
    pose proof Hcfg as (Hinc & Hexc & Hmax & Hcur).
    destruct (IH this1) as (Hc' & Hp' & Hcfg' & Hkeys' & Hd' & Hin' & Hout'); auto.
    + now rewrite Hmax.
    + rewrite Hkeys, length_app. simpl in *. lia.
    + now rewrite Hinc, Hexc.
    + intros w Hw. rewrite Hent.
      destruct (node_key v =? node_key w) eqn:E.
      * apply String.eqb_eq in E. exfalso. apply Hfresh. rewrite E.
        now apply in_map.
      * apply Hnone. now right.
    + split; [assumption |]. split; [assumption |].
      split; [eapply same_config_trans; eauto |].
      split; [| split; [congruence | split]].
      * rewrite Hkeys', Hkeys, <- app_assoc. reflexivity.
      * intros w [<- | Hw]; [| now apply Hin'].
        rewrite Hout' by assumption. rewrite Hent.
        now rewrite String.eqb_refl.
      * intros k Hk. simpl in Hk. rewrite Hout' by tauto. rewrite Hent.
        destruct (node_key v =? k) eqn:E; auto.
        apply String.eqb_eq in E. tauto.
Qed.

Lemma commit_each_app vs ws :
  commit_each (vs ++ ws) = commit_each vs ++ commit_each ws.
Proof. apply flat_map_app. Qed.

Lemma cacheable_instance inc exc v :
  cacheable inc exc v = true -> exists i, VNode.componentInstance v = Some i.
Proof.
  unfold cacheable. destruct (VNode.componentOptions v); [| discriminate].
  destruct (VNode.componentInstance v) as [i |]; [eauto | discriminate].
Qed.

(** Capacity N and N+1 distinct keys committed in order: the first is
    evicted and destroyed, the others stay cached in their order. *)
Lemma first_in_first_out inc exc mx current first middle last :
  capacity mx = Some (Z.of_nat (S (List.length middle))) ->
  Forall (fun v => cacheable inc exc v = true) (first :: middle ++ [ last ]) ->
  NoDup (map node_key (first :: middle ++ [ last ])) ->
  tag_differs (entry_of first) current = true ->
  let final :=
    run (commit_each (first :: middle ++ [ last ]))
        (with_vnode (created inc exc mx) current) in
  keys final = map node_key (middle ++ [ last ]) /\
  (exists i, VNode.componentInstance first = Some i /\
             destroyed_instances final = [ i ]) /\
  entry_at (cache final) (node_key first) = None /\
  (forall v, In v (middle ++ [ last ]) ->
             entry_at (cache final) (node_key v) = Some (entry_of v)).
Proof.
  intros Hcap Hall Hnd Htag.
  set (start := with_vnode (created inc exc mx) current).
  assert (Hc : consistent start).
  { apply (consistent_ext (created inc exc mx)); try reflexivity.
    apply created_consistent. }
  assert (Hp : pending start) by (intros v; discriminate).
  change (first :: middle ++ [ last ]) with ((first :: middle) ++ [ last ]) in *.
  rewrite map_app in Hnd. cbn [map] in Hnd.
  apply Forall_app in Hall. destruct Hall as (Hinit & Hlast).
  inversion Hlast as [| ? ? Hlast' _]; subst. clear Hlast.
  pose proof (NoDup_remove_2 _ _ _ Hnd) as Hlast_fresh.
  rewrite app_nil_r in Hlast_fresh.
  pose proof (NoDup_remove_1 _ _ _ Hnd) as Hnd_init.
  rewrite app_nil_r in Hnd_init.
  cbv zeta. rewrite commit_each_app, run_app.
  destruct (commit_each_fills (first :: middle) start
              (Z.of_nat (S (List.length middle))) Hc Hp Hcap)
    as (Hc1 & Hp1 & Hcfg1 & Hkeys1 & Hd1 & Hin1 & Hout1); auto.
  { cbn. lia. }
  set (mid := run (commit_each (first :: middle)) start) in *.
  pose proof Hcfg1 as (Hinc & Hexc & Hmax & Hcur).
  cbn [keys start with_vnode created app] in Hkeys1.
  assert (Hfresh : entry_at (cache mid) (node_key last) = None).
  { now rewrite Hout1. }
  assert (Hcb : cacheable (include mid) (exclude mid) last = true).
  { now rewrite Hinc, Hexc. }
  change (commit_each [ last ])
    with [ Render (Some [ last ]) (Some last); Updated ].
  destruct (commit_miss last mid Hc1 Hp1 Hcb Hfresh)
    as (Hc2 & _ & _ & Hkeys2 & Hent2 & Hd2).
  set (final := run [ Render (Some [ last ]) (Some last); Updated ] mid) in *.
  assert (Hover : over_max (max mid) (S (List.length (keys mid))) = true).
  { rewrite Hmax. rewrite (over_max_capacity _ _ _ Hcap).
    apply Z.ltb_lt. rewrite Hkeys1. cbn [List.length map].
    rewrite length_map. lia. }
  rewrite Hover in Hkeys2, Hent2, Hd2.
  rewrite Hkeys1 in Hkeys2, Hent2, Hd2. cbn [map hd andb] in Hkeys2, Hent2, Hd2.
  assert (Hne : node_key last <> node_key first).
  { intros E. apply Hlast_fresh. rewrite E. now left. }
  assert (Hfirst : entry_at (cache mid) (node_key first) = Some (entry_of first)).
  { apply Hin1. now left. }
  split; [| split; [| split]].
  - rewrite Hkeys2. cbn [app]. rewrite remove_head. now rewrite map_app.
  - destruct (cacheable_instance _ _ _ (Forall_inv Hinit)) as (i & Hi).
    exists i. split; [assumption |].
    rewrite Hd2, Hd1. apply String.eqb_neq in Hne. rewrite Hne, Hfirst, Hcur.
    cbn [_vnode start with_vnode]. rewrite Htag.
    cbn [CacheEntry.componentInstance entry_of]. now rewrite Hi.
  - rewrite Hent2. now rewrite String.eqb_refl.
  - intros v Hv. rewrite Hent2.
    cbn [map] in Hnd_init. inversion Hnd_init as [| ? ? Hfirst_fresh Hnd_mid]; subst.
    apply in_app_or in Hv. destruct Hv as [Hv | [<- | []]].
    + assert (Hk : In (node_key v) (map node_key middle)) by now apply in_map.
      destruct (node_key first =? node_key v) eqn:E1.
      { apply String.eqb_eq in E1. rewrite E1 in Hfirst_fresh. contradiction. }
      destruct (node_key last =? node_key v) eqn:E2.
      { apply String.eqb_eq in E2. exfalso. apply Hlast_fresh.
        rewrite E2. now right. }
      apply Hin1. now right.
    + destruct (node_key first =? node_key last) eqn:E1.
      { apply String.eqb_eq in E1. congruence. }
      now rewrite String.eqb_refl.
Qed.

(** A hit moves the key to the tail; when the order holds another key,
    the next overflow evicts the head of the new order, which is not the
    key that was hit. *)
Lemma promoted_key_survives this slot v key entry v2 other :
  consistent this -> pending this ->
  lookup this (Some v) = Hit key entry ->
  let hit := snd (render slot (Some v) this) in
  keys hit = remove (keys this) key ++ [ key ] /\
  (In other (keys this) -> other <> key ->
   cacheable (include this) (exclude this) v2 = true ->
   entry_at (cache this) (node_key v2) = None ->
   over_max (max this) (S (List.length (keys this))) = true ->
   let final := run [ Render (Some [ v2 ]) (Some v2); Updated ] hit in
   let head := hd key (keys hit) in
   head <> key /\
   entry_at (cache final) head = None /\ ~ In head (keys final) /\
   entry_at (cache final) key = Some entry /\ In key (keys final)).
Proof.
  intros Hc Hp L hit.
  destruct (render_hit slot (Some v) this key entry L)
    as (He & Hcache & Hkeys & Hd & (Hinc & Hexc & Hmax & Hcur) & _).
  destruct (render_hit_consistent slot (Some v) this key entry L Hc Hp)
    as (Hc1 & Hp1).
  fold hit in Hcache, Hkeys, Hd, Hinc, Hexc, Hmax, Hcur, Hc1, Hp1.
  split; [assumption |].
  intros Hother Hne Hcb Hfresh Hover final head.
  assert (Hin : In key (keys this)).
  { apply (lockstep _ Hc). congruence. }
  assert (Hlen : List.length (keys hit) = List.length (keys this)).
  { rewrite Hkeys, length_app. simpl.
    pose proof (remove_length _ _ Hin). lia. }
  assert (Hrest : In other (remove (keys this) key)).
  { now apply In_remove_other. }
  assert (Hhead : In head (remove (keys this) key)).
  { subst head. rewrite Hkeys.
    destruct (remove (keys this) key) as [| h t]; [contradiction | now left]. }
  assert (Hhk : head <> key).
  { intros E. rewrite E in Hhead.
    eapply remove_gone; eauto. apply (keys_unique _ Hc). }
  destruct (commit_miss v2 hit Hc1 Hp1) as (Hc2 & _ & _ & _ & Hent & _).
  { now rewrite Hinc, Hexc. }
  { now rewrite Hcache. }
  fold final in Hc2, Hent.
  rewrite Hmax, Hlen, Hover in Hent. cbn [andb] in Hent.
  assert (Hfirst : hd (node_key v2) (keys hit) = head).
  { subst head. rewrite Hkeys.
    destruct (remove (keys this) key); [contradiction | reflexivity]. }
  rewrite Hfirst in Hent.
  assert (Hgone : entry_at (cache final) head = None).
  { rewrite Hent. now rewrite String.eqb_refl. }
  assert (Hstays : entry_at (cache final) key = Some entry).
  { rewrite Hent. apply String.eqb_neq in Hhk. rewrite Hhk.
    destruct (node_key v2 =? key) eqn:E.
    - apply String.eqb_eq in E. congruence.
    - now rewrite Hcache. }
  split; [assumption |]. split; [assumption |].
  split; [rewrite (lockstep _ Hc2); tauto |].
  split; [assumption |]. apply (lockstep _ Hc2). congruence.
Qed.

(** C3, as the code has it.  With capacity N, committing N+1 nodes with
    distinct keys (the tag of the first differing from the tag of the
    displayed node) evicts and destroys exactly the first and leaves the
    others cached, in order.  A hit on a key makes it the tail of [keys];
    when [keys] holds another key as well, the overflow of the next commit
    evicts the head of the new order and leaves the key that was hit cached,
    wherever in the order it stood before the hit. *)
Theorem least_recently_used :
  (forall inc exc mx current first middle last,
      capacity mx = Some (Z.of_nat (S (List.length middle))) ->
      Forall (fun v => cacheable inc exc v = true) (first :: middle ++ [ last ]) ->
      NoDup (map node_key (first :: middle ++ [ last ])) ->
      tag_differs (entry_of first) current = true ->
      let final :=
        run (commit_each (first :: middle ++ [ last ]))
            (with_vnode (created inc exc mx) current) in
      keys final = map node_key (middle ++ [ last ]) /\
      (exists i, VNode.componentInstance first = Some i /\
                 destroyed_instances final = [ i ]) /\
      entry_at (cache final) (node_key first) = None /\
      (forall v, In v (middle ++ [ last ]) ->
                 entry_at (cache final) (node_key v) = Some (entry_of v))) /\
  (forall this slot v key entry v2 other,
      consistent this -> pending this ->
      lookup this (Some v) = Hit key entry ->
      let hit := snd (render slot (Some v) this) in
      keys hit = remove (keys this) key ++ [ key ] /\
      (In other (keys this) -> other <> key ->
       cacheable (include this) (exclude this) v2 = true ->
       entry_at (cache this) (node_key v2) = None ->
       over_max (max this) (S (List.length (keys this))) = true ->
       let final := run [ Render (Some [ v2 ]) (Some v2); Updated ] hit in
       let head := hd key (keys hit) in
       head <> key /\
       entry_at (cache final) head = None /\ ~ In head (keys final) /\
       entry_at (cache final) key = Some entry /\ In key (keys final))).
Proof.
  split.
  - apply first_in_first_out.
  - apply promoted_key_survives.
Qed.

Lemma least_recently_used_witness :
  (let nodes :=
     [ component_vnode "A" "Alpha" "alpha" 1;
       component_vnode "B" "Beta" "beta" 2;
       component_vnode "C" "Gamma" "gamma" 3 ] in
   let final :=
     run (commit_each nodes)
         (with_vnode (created None None (Some (MaxNumber 2))) None) in
   keys final = [ "B"; "C" ] /\ destroyed_instances final = [ 1 ]) /\
  (let this :=
     run [ render_node (component_vnode "A" "Alpha" "alpha" 1); Updated;
           render_node (component_vnode "B" "Beta" "beta" 2); Updated ]
         (created None None (Some (MaxNumber 2))) in
   let hit := snd (render None (Some (component_vnode "A" "Alpha" "alpha" 4)) this) in
   let final := run [ render_node (component_vnode "C" "Gamma" "gamma" 3); Updated ] hit in
   keys hit = [ "B"; "A" ] /\
   entry_at (cache final) "B" = None /\
   entry_at (cache final) "A" <> None /\ In "A" (keys final)).
Proof.
  split.
  - intros nodes final.
    destruct (proj1 least_recently_used None None (Some (MaxNumber 2)) None
                (component_vnode "A" "Alpha" "alpha" 1)
                [ component_vnode "B" "Beta" "beta" 2 ]
                (component_vnode "C" "Gamma" "gamma" 3))
      as (Hkeys & (i & Hi & Hd) & _).
    + reflexivity.
    + repeat constructor.
    + repeat constructor; simpl; intuition discriminate.
    + reflexivity.
    + injection Hi as <-. split; assumption.
  - intros this hit final.
    destruct (proj2 least_recently_used this None
                (component_vnode "A" "Alpha" "alpha" 4) "A"
                {| CacheEntry.name := Some "Alpha";
                   CacheEntry.tag := Some "alpha";
                   CacheEntry.componentInstance := Some 1 |}
                (component_vnode "C" "Gamma" "gamma" 3) "B")
      as (Hkeys & Hnext).
    + apply run_created_consistent. reflexivity.
    + apply run_created_consistent. reflexivity.
    + reflexivity.
    + destruct Hnext as (_ & Hgone & _ & Hstays & Hin);
        [simpl; tauto | discriminate | reflexivity | reflexivity | reflexivity |].
      split; [exact Hkeys |]. split; [exact Hgone |].
      split; [| exact Hin].
      intros E. pose proof (eq_trans (eq_sym Hstays) E). discriminate.
Defined.

(** The claim C3 as the spec words it fails when the key that is hit is
    the only one in the order: with capacity 1, A is cached and looked up,
    which leaves it tail and head at once, and the commit of B evicts and
    destroys A. *)
Lemma sole_key_evicted_after_hit :
  let this :=
    run [ render_node (component_vnode "A" "Alpha" "alpha" 1); Updated ]
        (created None None (Some (MaxNumber 1))) in
  let hit := snd (render None (Some (component_vnode "A" "Alpha" "alpha" 2)) this) in
  let final :=
    run [ render_node (component_vnode "B" "Beta" "beta" 3); Updated ] hit in
  (exists entry,
      lookup this (Some (component_vnode "A" "Alpha" "alpha" 2)) = Hit "A" entry) /\
  keys hit = [ "A" ] /\
  over_max (max hit) (S (List.length (keys hit))) = true /\
  entry_at (cache final) "A" = None /\
  keys final = [ "B" ] /\
  destroyed_instances final = [ 1 ].
Proof.
  split; [eexists; reflexivity |]. repeat split; reflexivity.
Qed.

(** ** Two runs worked out *)

(** The scenario of the spec: capacity 2; A and B are committed, A is
    looked up, C is committed.  B, the head after the promotion of A, is
    evicted and its instance destroyed; the order ends as A, C. *)
Example end_to_end_scenario :
  let final := run three_components (created None None (Some (MaxString "2"))) in
  keys final = [ "A"; "C" ] /\
  destroyed_instances final = [ 2 ] /\
  entry_at (cache final) "B" = None /\
  JS.get (cache final) "B" = Some None.
Proof. repeat split; reflexivity. Qed.

(** * Further properties of the component *)

(** ** The store in lockstep *)

(** X1.  In every state the host can bring about (each staged node being
    mounted by the time its hook runs), [keys] holds no key twice, a key is
    in [keys] exactly when [cache] has a live entry for it, the cache object
    has each property once, and the key of a pending candidate is not in
    [keys]. *)
Theorem lockstep_reachable inc exc mx ops :
  all_mounted ops (created inc exc mx) = true ->
  let this := run ops (created inc exc mx) in
  NoDup (keys this) /\
  (forall key, In key (keys this) <-> entry_at (cache this) key <> None) /\
  NoDup (JS.property_names (cache this)) /\
  (forall vnode key,
      vnodeToCache this = Some vnode -> keyToCache this = Some key ->
      ~ In key (keys this)).
Proof.
  intros Hm this.
  destruct (run_consistent ops (created inc exc mx) Hm) as (Hc & Hp & _);
    [apply created_consistent | apply created_pending |].
  fold this in Hc, Hp.
  split; [apply (keys_unique _ Hc) |].
  split; [apply (lockstep _ Hc) |].
  split; [apply (names_unique _ Hc) |].
  intros vnode key Hv Hk Hin.
  destruct (Hp vnode Hv) as (_ & key' & Hk' & Hnone).
  apply (lockstep _ Hc) in Hin. congruence.
Qed.

Lemma lockstep_reachable_witness :
  let this := run survivor_cached_again (created None None (Some (MaxString "1"))) in
  NoDup (keys this) /\
  (forall key, In key (keys this) <-> entry_at (cache this) key <> None).
Proof.
  intros this.
  destruct (lockstep_reachable None None (Some (MaxString "1")) survivor_cached_again)
    as (H1 & H2 & _); [reflexivity |].
  split; assumption.
Defined.

(** ** Derived keys *)

Lemma no_colon_in_decimal d : has_colon (NilEmpty.string_of_uint d) = false.
Proof. induction d; simpl; auto. Qed.

Lemma no_colon_in_number n : has_colon (JS.number_to_string n) = false.
Proof.
  unfold JS.number_to_string, NilZero.string_of_uint.
  destruct (N.to_uint n); try apply no_colon_in_decimal. reflexivity.
Qed.

Lemma number_to_string_inj n m :
  JS.number_to_string n = JS.number_to_string m -> n = m.
Proof.
  unfold JS.number_to_string. intros E.
  assert (Hnonnil : forall k, N.to_uint k <> Decimal.Nil).
  { intros [| p]; [discriminate | apply DecimalPos.Unsigned.to_uint_nonnil]. }
  apply DecimalN.Unsigned.to_uint_inj.
  pose proof (NilZero.usu _ (Hnonnil n)) as Hn.
  pose proof (NilZero.usu _ (Hnonnil m)) as Hm.
  rewrite E in Hn. congruence.
Qed.

Lemma split_at_colon (a b x y : string) :
  has_colon a = false -> has_colon b = false ->
  (a ++ String ":" x)%string = (b ++ String ":" y)%string -> a = b /\ x = y.
Proof.
  revert b. induction a as [| c a IH]; intros [| d b] Ha Hb E; simpl in *.
  - injection E as ->. auto.
  - injection E as <- _. discriminate.
  - injection E as -> _. discriminate.
  - injection E as -> E.
    apply orb_false_iff in Ha, Hb. destruct Ha as (_ & Ha), Hb as (_ & Hb).
    destruct (IH b Ha Hb E) as (-> & ->). auto.
Qed.

Lemma has_colon_app (a x : string) : has_colon (a ++ String ":" x) = true.
Proof.
  induction a as [| c a IH]; simpl; [reflexivity |].
  rewrite IH. apply orb_true_r.
Qed.

Lemma append_empty (s : string) : (s ++ "")%string = s.
Proof. induction s as [| c s IH]; simpl; congruence. Qed.

Lemma key_of_derived v co :
  VNode.key v = None ->
  key_of v co =
  (JS.number_to_string (Ctor.cid (VNodeComponentOptions.Ctor co)) ++
   match key_tag co with
   | Some t => String ":" (String ":" t)
   | None => ""
   end)%string.
Proof.
  intros Hk. unfold key_of, key_tag. rewrite Hk.
  destruct (VNodeComponentOptions.tag co) as [t |]; cbn [JS.truthy];
    [destruct (JS.truthy_string t) |]; reflexivity.
Qed.

(** X2.  For nodes without a key of their own, the key [render] derives
    tells constructor and tag apart: two derived keys are equal exactly when
    the [cid]s are equal and the tags that count (a tag that is absent or
    empty does not) are equal. *)
Theorem derived_key_injective v1 co1 v2 co2 :
  VNode.key v1 = None -> VNode.key v2 = None ->
  key_of v1 co1 = key_of v2 co2 <->
  Ctor.cid (VNodeComponentOptions.Ctor co1) =
    Ctor.cid (VNodeComponentOptions.Ctor co2) /\
  key_tag co1 = key_tag co2.
Proof.
  intros H1 H2. rewrite (key_of_derived v1 co1 H1), (key_of_derived v2 co2 H2).
  set (c1 := Ctor.cid (VNodeComponentOptions.Ctor co1)).
  set (c2 := Ctor.cid (VNodeComponentOptions.Ctor co2)).
  pose proof (no_colon_in_number c1) as Hc1.
  pose proof (no_colon_in_number c2) as Hc2.
  split; [| intros (-> & ->); reflexivity].
  destruct (key_tag co1) as [t1 |], (key_tag co2) as [t2 |]; intros E.
  - apply split_at_colon in E; auto. destruct E as (E & [= ->]).
    apply number_to_string_inj in E. now rewrite E.
  - rewrite append_empty in E. apply (f_equal has_colon) in E.
    rewrite has_colon_app, Hc2 in E. discriminate.
  - rewrite append_empty in E. apply (f_equal has_colon) in E.
    rewrite has_colon_app, Hc1 in E. discriminate.
  - rewrite !append_empty in E. apply number_to_string_inj in E.
    now rewrite E.
Qed.

Lemma derived_key_injective_witness :
  let co1 := {| VNodeComponentOptions.Ctor :=
                  {| Ctor.cid := 7; Ctor.options_name := None |};
                VNodeComponentOptions.tag := Some "foo" |} in
  let co2 := {| VNodeComponentOptions.Ctor :=
                  {| Ctor.cid := 7; Ctor.options_name := None |};
                VNodeComponentOptions.tag := Some "bar" |} in
  let node co :=
    {| VNode.tag := None; VNode.key := None; VNode.data := None;
       VNode.componentOptions := Some co; VNode.componentInstance := None |} in
  key_of (node co1) co1 <> key_of (node co2) co2.
Proof.
  intros co1 co2 node E.
  apply (derived_key_injective (node co1) co1 (node co2) co2) in E;
    [| reflexivity | reflexivity].
  destruct E as (_ & E). discriminate.
Defined.

(** ** Lookups *)

(** What [render] returns for an admissible component node whose key is
    cached. *)
Lemma render_cached slot v co this entry :
  VNode.componentOptions v = Some co ->
  isAdmissible (_getComponentName (Some co)) (include this) (exclude this) = true ->
  entry_at (cache this) (key_of v co) = Some entry ->
  render slot (Some v) this =
  let found :=
    VNode.with_componentInstance v (CacheEntry.componentInstance entry) in
  let promoted :=
    with_keys (with_keys this (remove (keys this) (key_of v co)))
              (remove (keys this) (key_of v co) ++ [ key_of v co ]) in
  match VNode.data v with
  | Some _ =>
      (Normal (Some (VNode.with_data found {| VNodeData.keepAlive := true |})),
       promoted)
  | None => (Throw, promoted)
  end.
Proof.
  intros Hco Hadm He. unfold render. rewrite Hco.
  unfold isAdmissible in Hadm. apply negb_true_iff in Hadm.
  rewrite Hadm, He.
  unfold bind, modify, set_keepAlive, ret, throw. cbn.
  destruct (VNode.data v); reflexivity.
Qed.

Lemma lookup_cases this v :
  match lookup this (Some v) with
  | Bypass =>
      VNode.componentOptions v = None \/
      exists co,
        VNode.componentOptions v = Some co /\
        isAdmissible (_getComponentName (Some co)) (include this) (exclude this)
        = false
  | Hit key entry =>
      exists co,
        VNode.componentOptions v = Some co /\ key = key_of v co /\
        isAdmissible (_getComponentName (Some co)) (include this) (exclude this)
        = true /\
        entry_at (cache this) key = Some entry
  | Miss key v' =>
      exists co,
        v' = v /\ VNode.componentOptions v = Some co /\ key = key_of v co /\
        isAdmissible (_getComponentName (Some co)) (include this) (exclude this)
        = true /\
        entry_at (cache this) key = None
  end.
Proof.
  unfold lookup.
  destruct (VNode.componentOptions v) as [co |]; [| now left].
  destruct (isAdmissible _ _ _) eqn:Hadm; [| right; eauto].
  destruct (entry_at _ _) as [entry |] eqn:He.
  - exists co. auto.
  - exists co. auto.
Qed.

(** X3.  What is committed is found again.  After a node is rendered on a
    miss and committed (and is not itself the victim of the overflow, which
    happens only in an empty store whose [max] is below one), a render of
    any admissible node with the same key is a hit on the entry made of the
    committed node; the node it returns carries the committed instance, and
    the key ends up at the tail of [keys]. *)
Theorem committed_node_is_found this v w co slot :
  consistent this -> pending this ->
  cacheable (include this) (exclude this) v = true ->
  entry_at (cache this) (node_key v) = None ->
  (keys this = [] -> over_max (max this) 1 = false) ->
  VNode.componentOptions w = Some co -> key_of w co = node_key v ->
  isAdmissible (_getComponentName (Some co)) (include this) (exclude this) = true ->
  let committed := run [ Render (Some [ v ]) (Some v); Updated ] this in
  lookup committed (Some w) = Hit (node_key v) (entry_of v) /\
  (forall r, fst (render slot (Some w) committed) = Normal (Some r) ->
             VNode.componentInstance r = VNode.componentInstance v) /\
  (VNode.data w <> None ->
   exists r, fst (render slot (Some w) committed) = Normal (Some r)) /\
  last (keys (snd (render slot (Some w) committed))) "" = node_key v.
Proof.
  intros Hc Hp Hcb Hfresh Hroom Hco Hkey Hadm committed.
  destruct (commit_miss v this Hc Hp Hcb Hfresh)
    as (Hc' & _ & (Hinc & Hexc & _) & _ & Hent & _).
  fold committed in Hc', Hinc, Hexc, Hent.
  assert (Hlive : entry_at (cache committed) (node_key v) = Some (entry_of v)).
  { rewrite Hent, String.eqb_refl.
    destruct (keys this) as [| first rest] eqn:Hkeys.
    - cbn [List.length]. rewrite Hroom by reflexivity. reflexivity.
    - cbn [hd]. destruct (first =? node_key v) eqn:E.
      + apply String.eqb_eq in E. exfalso.
        assert (Hin : In first (keys this)) by (rewrite Hkeys; now left).
        apply (lockstep _ Hc) in Hin. congruence.
      + now rewrite andb_false_r. }
  assert (Hadm' : isAdmissible (_getComponentName (Some co))
                    (include committed) (exclude committed) = true)
    by now rewrite Hinc, Hexc.
  assert (L : lookup committed (Some w) = Hit (node_key v) (entry_of v)).
  { unfold lookup. now rewrite Hco, Hadm', Hkey, Hlive. }
  rewrite <- Hkey in Hlive.
  rewrite (render_cached slot w co committed (entry_of v) Hco Hadm' Hlive).
  split; [assumption |]. cbv zeta. rewrite Hkey.
  destruct (VNode.data w) as [d |]; cbn [fst snd keys with_keys].
  - split; [intros r [= <-]; reflexivity |].
    split; [eauto | apply last_last].
  - split; [intros r [=] |].
    split; [congruence | apply last_last].
Qed.

Lemma committed_node_is_found_witness :
  let this := run beta_displayed (created None None (Some (MaxNumber 2))) in
  let v := component_vnode "C" "Gamma" "gamma" 3 in
  let w := component_vnode "C" "Gamma" "gamma" 9 in
  let committed := run [ Render (Some [ v ]) (Some v); Updated ] this in
  lookup committed (Some w) =
    Hit "C" {| CacheEntry.name := Some "Gamma"; CacheEntry.tag := Some "gamma";
               CacheEntry.componentInstance := Some 3 |}.
Proof.
  intros this v w committed.
  destruct (committed_node_is_found this v w
              {| VNodeComponentOptions.Ctor :=
                   {| Ctor.cid := 1; Ctor.options_name := Some "Gamma" |};
                 VNodeComponentOptions.tag := Some "gamma" |} None)
    as (L & _); [| | reflexivity .. | exact L].
  - apply run_created_consistent. reflexivity.
  - apply run_created_consistent. reflexivity.
Defined.

(** X4.  [render] never destroys an instance and never changes [cache],
    the props or the displayed node; all it does to [keys] is to move the
    key it hits to the tail, the other keys keeping their order. *)
Theorem render_only_reorders slot vnode this :
  consistent this ->
  let this' := snd (render slot vnode this) in
  cache this' = cache this /\
  destroyed_instances this' = destroyed_instances this /\
  same_config this this' /\
  Permutation (keys this) (keys this') /\
  match lookup this vnode with
  | Hit key _ =>
      keys this' = filter (fun k => negb (k =? key)) (keys this) ++ [ key ]
  | _ => keys this' = keys this
  end.
Proof.
  intros Hc this'.
  destruct (render_config slot vnode this) as (Hcfg & Hd & Hcache).
  fold this' in Hcfg, Hd, Hcache.
  split; [assumption |]. split; [assumption |]. split; [assumption |].
  destruct (lookup this vnode) as [| key entry | key v] eqn:L.
  - subst this'. rewrite render_bypass by assumption. auto.
  - destruct (render_hit slot vnode this key entry L) as (He & _ & Hkeys & _).
    fold this' in Hkeys.
    assert (Hnd : NoDup (keys this)) by apply (keys_unique _ Hc).
    assert (Hin : In key (keys this)).
    { apply (lockstep _ Hc). congruence. }
    split; [| now rewrite Hkeys, remove_filter].
    rewrite Hkeys. apply NoDup_Permutation; auto.
    + now apply NoDup_promoted.
    + intros k. symmetry. now apply In_promoted.
  - destruct (render_miss slot vnode this key v L) as (_ & _ & _ & Hkeys & _).
    fold this' in Hkeys. rewrite Hkeys. auto.
Qed.

Lemma render_only_reorders_witness :
  let this := run three_components (created None None None) in
  keys this = [ "B"; "A"; "C" ] /\
  keys (snd (render None (Some (component_vnode "B" "Beta" "beta" 7)) this))
  = [ "A"; "C"; "B" ].
Proof.
  intros this. split; [reflexivity |].
  destruct (render_only_reorders None
              (Some (component_vnode "B" "Beta" "beta" 7)) this)
    as (_ & _ & _ & _ & Hkeys).
  - apply run_created_consistent. reflexivity.
  - exact Hkeys.
Defined.

Lemma remove_appended arr key :
  ~ In key arr -> remove (arr ++ [ key ]) key = arr.
Proof.
  induction arr as [| x arr IH]; simpl; intros H.
  - now rewrite String.eqb_refl.
  - destruct (x =? key) eqn:E.
    + apply String.eqb_eq in E. tauto.
    + f_equal. apply IH. tauto.
Qed.

(** X5.  Rendering the same node twice with no commit in between is as
    rendering it once: the second call returns what the first returned and
    leaves the instance as the first left it (a key that was hit stays at the
    tail, a node that was staged stays the pending candidate). *)
Theorem render_twice slot vnode this :
  consistent this ->
  render slot vnode (snd (render slot vnode this)) = render slot vnode this.
Proof.
  intros Hc. destruct vnode as [v |]; [| reflexivity].
  pose proof (lookup_cases this v) as Hl.
  destruct (lookup this (Some v)) as [| key entry | key v'] eqn:L.
  - destruct Hl as [Hco | (co & Hco & Hadm)].
    + unfold render. now rewrite Hco.
    + rewrite (render_not_admitted slot v co this Hco Hadm). cbn [snd].
      apply (render_not_admitted slot v co this Hco Hadm).
  - destruct Hl as (co & Hco & -> & Hadm & He).
    rewrite (render_cached slot v co this entry Hco Hadm He). cbv zeta.
    set (key := key_of v co) in *.
    set (promoted := with_keys (with_keys this (remove (keys this) key))
                               (remove (keys this) key ++ [ key ])).
    assert (E : render slot (Some v) promoted =
                match VNode.data v with
                | Some _ =>
                    (Normal (Some (VNode.with_data
                                     (VNode.with_componentInstance v
                                        (CacheEntry.componentInstance entry))
                                     {| VNodeData.keepAlive := true |})),
                     promoted)
                | None => (Throw, promoted)
                end).
    { rewrite (render_cached slot v co promoted entry Hco Hadm He). cbv zeta.
      fold key.
      assert (Hsame : with_keys
                        (with_keys promoted (remove (keys promoted) key))
                        (remove (keys promoted) key ++ [ key ]) = promoted).
      { apply KeepAlive_ext; try (repeat split; fail).
        cbn [keys with_keys promoted].
        rewrite remove_appended; [reflexivity |].
        apply remove_gone, (keys_unique _ Hc). }
      rewrite Hsame. reflexivity. }
    destruct (VNode.data v); exact E.
  - destruct Hl as (co & -> & Hco & -> & Hadm & He).
    assert (Hagain : forall staged : KeepAlive,
               include staged = include this -> exclude staged = exclude this ->
               cache staged = cache this ->
               render slot (Some v) staged =
               match VNode.data v with
               | Some _ =>
                   let node := VNode.with_data v {| VNodeData.keepAlive := true |} in
                   (Normal (Some node),
                    with_vnodeToCache
                      (with_keyToCache (with_vnodeToCache staged (Some v))
                         (Some (key_of v co)))
                      (Some node))
               | None =>
                   (Throw,
                    with_keyToCache (with_vnodeToCache staged (Some v))
                      (Some (key_of v co)))
               end).
    { intros staged Hi Hx Hcache.
      apply render_not_cached; auto; now rewrite ?Hi, ?Hx, ?Hcache. }
    rewrite (Hagain this eq_refl eq_refl eq_refl).
    destruct (VNode.data v) as [d |] eqn:Hd; cbv zeta; cbn [snd].
    + rewrite Hagain by reflexivity. reflexivity.
    + rewrite Hagain by reflexivity. reflexivity.
Qed.

Lemma render_twice_witness :
  let this := run three_components (created None None None) in
  let node := Some (component_vnode "B" "Beta" "beta" 7) in
  render None node (snd (render None node this)) = render None node this.
Proof.
  intros this node. apply render_twice.
  apply run_created_consistent. reflexivity.
Defined.

(** X6.  Staging replaces the candidate.  When two nodes are rendered on a
    miss one after the other with no commit in between, the hook that
    follows commits the second alone; the run ends as if the first had never
    been rendered. *)
Theorem staging_replaces_candidate this slot1 v1 key1 slot2 v2 key2 :
  lookup this (Some v1) = Miss key1 v1 ->
  lookup this (Some v2) = Miss key2 v2 ->
  run [ Render slot1 (Some v1); Render slot2 (Some v2); Updated ] this =
  run [ Render slot2 (Some v2); Updated ] this.
Proof.
  intros L1 L2. cbn [run]. rewrite !step_render. f_equal. f_equal.
  pose proof (lookup_cases this v1) as H1. rewrite L1 in H1.
  destruct H1 as (co1 & _ & Hco1 & -> & Hadm1 & He1).
  pose proof (lookup_cases this v2) as H2. rewrite L2 in H2.
  destruct H2 as (co2 & _ & Hco2 & -> & Hadm2 & He2).
  assert (Hsecond : forall staged : KeepAlive,
             include staged = include this -> exclude staged = exclude this ->
             cache staged = cache this ->
             render slot2 (Some v2) staged =
             match VNode.data v2 with
             | Some _ =>
                 let node := VNode.with_data v2 {| VNodeData.keepAlive := true |} in
                 (Normal (Some node),
                  with_vnodeToCache
                    (with_keyToCache (with_vnodeToCache staged (Some v2))
                       (Some (key_of v2 co2)))
                    (Some node))
             | None =>
                 (Throw,
                  with_keyToCache (with_vnodeToCache staged (Some v2))
                    (Some (key_of v2 co2)))
             end).
  { intros staged Hi Hx Hcache.
    apply render_not_cached; auto; now rewrite ?Hi, ?Hx, ?Hcache. }
  rewrite (render_not_cached slot1 v1 co1 this Hco1 Hadm1 He1). cbv zeta.
  rewrite (Hsecond this eq_refl eq_refl eq_refl).
  destruct (VNode.data v1); cbv zeta; cbn [snd]; rewrite Hsecond by reflexivity;
    destruct (VNode.data v2); reflexivity.
Qed.

Lemma staging_replaces_candidate_witness :
  let this := run beta_displayed (created None None None) in
  let c := component_vnode "C" "Gamma" "gamma" 3 in
  let d := component_vnode "D" "Delta" "delta" 4 in
  keys (run [ render_node c; render_node d; Updated ] this) = [ "A"; "B"; "D" ].
Proof.
  intros this c d. unfold render_node.
  rewrite (staging_replaces_candidate this (Some [ c ]) c "C" (Some [ d ]) d "D");
    reflexivity.
Defined.

(** ** The watchers *)

Lemma pruneCache_idle filter this :
  (forall k, pruned_at filter this k = false) ->
  pruneCache filter this = (Normal tt, this).
Proof.
  intros Hnone. unfold pruneCache.
  induction (JS.for_in_keys (cache this)) as [| key names IH]; [reflexivity |].
  simpl. unfold bind at 1.
  specialize (Hnone key). unfold pruned_at, fails in Hnone.
  destruct (entry_at (cache this) key) as [entry |]; [| exact IH].
  destruct (CacheEntry.name entry) as [name |]; [| exact IH].
  rewrite Hnone. exact IH.
Qed.

Lemma pruneCache_keeps filter keep this :
  consistent this ->
  (forall entry, fails filter entry = negb (keep entry)) ->
  exists this',
    pruneCache filter this = (Normal tt, this') /\
    consistent this' /\
    (forall k,
        entry_at (cache this') k =
        match entry_at (cache this) k with
        | Some entry => if keep entry then Some entry else None
        | None => None
        end) /\
    keys this' =
      List.filter
        (fun k =>
           match entry_at (cache this) k with
           | Some entry => keep entry
           | None => true
           end) (keys this).
Proof.
  intros Hc Hfails.
  destruct (pruneCache_exact filter this Hc)
    as (this' & delta & E & Hc' & _ & Hent & Hkeys & _).
  exists this'. split; [assumption |]. split; [assumption |]. split.
  - intros k. rewrite Hent. unfold pruned_at.
    destruct (entry_at (cache this) k) as [entry |]; [| reflexivity].
    rewrite Hfails. now destruct (keep entry).
  - rewrite Hkeys. apply filter_ext. intros k. unfold pruned_at.
    destruct (entry_at (cache this) k) as [entry |]; [| reflexivity].
    rewrite Hfails. apply negb_involutive.
Qed.

(** X7.  A watcher run a second time with the same specification finds
    nothing to prune: it returns the store exactly as its first run left
    it. *)
Theorem watcher_idempotent this val :
  consistent this ->
  (exists this',
      include_changed val this = (Normal tt, this') /\
      include_changed val this' = (Normal tt, this')) /\
  (exists this',
      exclude_changed val this = (Normal tt, this') /\
      exclude_changed val this' = (Normal tt, this')).
Proof.
  intros Hc.
  assert (H : forall filter,
             exists this',
               pruneCache filter this = (Normal tt, this') /\
               pruneCache filter this' = (Normal tt, this')).
  { intros filter.
    destruct (pruneCache_exact filter this Hc)
      as (this' & delta & E & _ & _ & Hent & _).
    exists this'. split; [assumption |].
    apply pruneCache_idle. intros k.
    unfold pruned_at at 1. rewrite Hent. unfold pruned_at.
    destruct (entry_at (cache this) k) as [entry |]; [| reflexivity].
    destruct (fails filter entry) eqn:Hf; [reflexivity | assumption]. }
  split; apply H.
Qed.

Lemma watcher_idempotent_witness :
  let this := run both_replaced (created None None None) in
  exists this',
    exclude_changed (Some (PString "b")) this = (Normal tt, this') /\
    exclude_changed (Some (PString "b")) this' = (Normal tt, this').
Proof.
  intros this.
  destruct (watcher_idempotent this (Some (PString "b"))) as (_ & H).
  - apply run_created_consistent. reflexivity.
  - exact H.
Defined.

Lemma kept_both inc exc entry :
  kept inc exc entry = kept inc None entry && kept None exc entry.
Proof.
  unfold kept, isAdmissible.
  assert (Hx : excluded None (CacheEntry.name entry) = false) by reflexivity.
  assert (Hi : not_included None (CacheEntry.name entry) = false) by reflexivity.
  rewrite Hx, Hi.
  destruct (JS.truthy (CacheEntry.name entry)),
           (not_included inc (CacheEntry.name entry)),
           (excluded exc (CacheEntry.name entry)); reflexivity.
Qed.

(** X8.  Once both watchers have run, in either order, the cache is what
    the two specifications together admit: with [include] set, the live
    entries left are those without a name and the named ones for which
    [isAdmissible(name, include, exclude)] holds, and [keys] has lost the
    other keys only. *)
Theorem watchers_enforce_both this inc exc :
  consistent this ->
  pattern_set inc = true ->
  exists first_include first_exclude,
    (include_changed inc ;; exclude_changed exc) this
    = (Normal tt, first_include) /\
    (exclude_changed exc ;; include_changed inc) this
    = (Normal tt, first_exclude) /\
    (forall k,
        entry_at (cache first_include) k =
        match entry_at (cache this) k with
        | Some entry => if kept inc exc entry then Some entry else None
        | None => None
        end) /\
    keys first_include = List.filter (kept_at inc exc this) (keys this) /\
    (forall k, entry_at (cache first_exclude) k = entry_at (cache first_include) k) /\
    keys first_exclude = keys first_include.
Proof.
  intros Hc Hset.
  assert (Hinc : forall entry,
             fails (fun name => matches inc name) entry
             = negb (kept inc None entry)).
  { intros entry. now apply fails_include. }
  pose proof (fun entry => fails_exclude exc entry) as Hexc.
  assert (Htwo : forall f g keep1 keep2,
             (forall entry, fails f entry = negb (keep1 entry)) ->
             (forall entry, fails g entry = negb (keep2 entry)) ->
             exists this2,
               (pruneCache f ;; pruneCache g) this = (Normal tt, this2) /\
               (forall k,
                   entry_at (cache this2) k =
                   match entry_at (cache this) k with
                   | Some entry =>
                       if keep1 entry && keep2 entry then Some entry else None
                   | None => None
                   end) /\
               keys this2 =
                 List.filter
                   (fun k =>
                      match entry_at (cache this) k with
                      | Some entry => keep1 entry && keep2 entry
                      | None => true
                      end) (keys this)).
  { intros f g keep1 keep2 Hf Hg.
    destruct (pruneCache_keeps f keep1 this Hc Hf) as (this1 & E1 & Hc1 & Hent1 & Hk1).
    destruct (pruneCache_keeps g keep2 this1 Hc1 Hg) as (this2 & E2 & _ & Hent2 & Hk2).
    exists this2. split; [| split].
    - unfold bind. now rewrite E1.
    - intros k. rewrite Hent2, Hent1.
      destruct (entry_at (cache this) k) as [entry |]; [| reflexivity].
      destruct (keep1 entry); [| reflexivity]. reflexivity.
    - rewrite Hk2, Hk1, filter_twice. apply filter_ext. intros k.
      rewrite Hent1.
      destruct (entry_at (cache this) k) as [entry |]; [| reflexivity].
      destruct (keep1 entry); reflexivity. }
  destruct (Htwo _ _ _ _ Hinc Hexc) as (a & Ea & Henta & Hka).
  destruct (Htwo _ _ _ _ Hexc Hinc) as (b & Eb & Hentb & Hkb).
  exists a, b. split; [exact Ea |]. split; [exact Eb |].
  assert (Hkept : forall entry,
             kept inc None entry && kept None exc entry = kept inc exc entry).
  { intros entry. symmetry. apply kept_both. }
  split; [| split; [| split]].
  - intros k. rewrite Henta.
    destruct (entry_at (cache this) k) as [entry |]; [| reflexivity].
    now rewrite Hkept.
  - rewrite Hka. apply filter_ext. intros k. unfold kept_at.
    destruct (entry_at (cache this) k) as [entry |]; [| reflexivity].
    apply Hkept.
  - intros k. rewrite Henta, Hentb.
    destruct (entry_at (cache this) k) as [entry |]; [| reflexivity].
    now rewrite andb_comm.
  - rewrite Hka, Hkb. apply filter_ext. intros k.
    destruct (entry_at (cache this) k) as [entry |]; [| reflexivity].
    apply andb_comm.
Qed.

Lemma watchers_enforce_both_witness :
  let this := run both_replaced (created None None None) in
  exists after,
    (include_changed (Some (PString "a,b")) ;;
     exclude_changed (Some (PString "b"))) this = (Normal tt, after) /\
    keys after = [ "A" ].
Proof.
  intros this.
  destruct (watchers_enforce_both this (Some (PString "a,b")) (Some (PString "b")))
    as (a & _ & Ea & _ & _ & Hk & _).
  - apply run_created_consistent. reflexivity.
  - reflexivity.
  - exists a. split; [exact Ea |]. rewrite Hk. reflexivity.
Defined.

(** X9.  A watcher handed a specification that is not set (undefined, or
    the empty string).  The watcher of [include] then prunes every entry
    that has a name and keeps only the nameless ones; the watcher of
    [exclude] returns the store as it is. *)
Theorem watcher_of_unset_spec this val :
  consistent this ->
  pattern_set val = false ->
  (exists this',
      include_changed val this = (Normal tt, this') /\
      (forall k,
          entry_at (cache this') k =
          match entry_at (cache this) k with
          | Some entry =>
              if JS.truthy (CacheEntry.name entry) then None else Some entry
          | None => None
          end) /\
      keys this' =
        List.filter
          (fun k =>
             match entry_at (cache this) k with
             | Some entry => negb (JS.truthy (CacheEntry.name entry))
             | None => true
             end) (keys this)) /\
  exclude_changed val this = (Normal tt, this).
Proof.
  intros Hc Hset.
  assert (Hmatch : forall name,
             JS.truthy_string name = true -> matches val name = false).
  { intros name Hn.
    destruct val as [[s | r | l] |]; cbn in Hset; try discriminate.
    - unfold JS.truthy_string in Hset. apply negb_false_iff in Hset.
      apply String.eqb_eq in Hset. subst s. now apply matches_empty_string.
    - reflexivity. }
  split.
  - destruct (pruneCache_keeps (fun name => matches val name)
                (fun entry => negb (JS.truthy (CacheEntry.name entry))) this Hc)
      as (this' & E & _ & Hent & Hkeys).
    { intros entry. unfold fails.
      destruct (CacheEntry.name entry) as [name |]; cbn; [| reflexivity].
      destruct (JS.truthy_string name) eqn:Hn; cbn; [| reflexivity].
      now rewrite Hmatch. }
    exists this'. split; [exact E |]. split; [| exact Hkeys].
    intros k. rewrite Hent.
    destruct (entry_at (cache this) k) as [entry |]; [| reflexivity].
    now destruct (JS.truthy (CacheEntry.name entry)).
  - unfold exclude_changed. apply pruneCache_idle. intros k.
    unfold pruned_at.
    destruct (entry_at (cache this) k) as [entry |]; [| reflexivity].
    unfold fails. destruct (CacheEntry.name entry) as [name |]; [| reflexivity].
    destruct (JS.truthy_string name) eqn:Hn; [| reflexivity].
    now rewrite Hmatch.
Qed.

Lemma watcher_of_unset_spec_witness :
  let this := run three_components (created None None None) in
  exists this',
    include_changed (Some (PString "")) this = (Normal tt, this') /\
    keys this' = [].
Proof.
  intros this.
  destruct (watcher_of_unset_spec this (Some (PString "")))
    as ((this' & E & _ & Hkeys) & _).
  - apply run_created_consistent. reflexivity.
  - reflexivity.
  - exists this'. split; [exact E |]. rewrite Hkeys. reflexivity.
Defined.

(** ** The edges of [max] *)

Lemma over_max_unbounded m len : capacity m = None -> over_max m len = false.
Proof.
  unfold capacity, over_max.
  destruct (max_set m); [| reflexivity].
  destruct m as [p |]; [| reflexivity]. now intros ->.
Qed.

Lemma cacheVNode_unbounded this :
  capacity (max this) = None ->
  fst (cacheVNode this) = Normal tt /\
  destroyed_instances (snd (cacheVNode this)) = destroyed_instances this /\
  max (snd (cacheVNode this)) = max this /\
  (forall k, In k (keys this) -> In k (keys (snd (cacheVNode this)))).
Proof.
  intros Hcap. unfold cacheVNode.
  destruct (vnodeToCache this) as [vnode |]; [| cbn; auto].
  destruct (keyToCache this) as [key |]; [| cbn; auto].
  unfold bind, modify. cbn. rewrite over_max_unbounded by assumption. cbn.
  repeat split; auto. intros k Hk. apply in_or_app. now left.
Qed.

Lemma step_unbounded op this :
  capacity (max this) = None -> is_pruning op = false ->
  destroyed_instances (snd (step op this)) = destroyed_instances this /\
  max (snd (step op this)) = max this /\
  (forall k, In k (keys this) -> In k (keys (snd (step op this)))).
Proof.
  intros Hcap Hop.
  destruct op as [slot vnode | | | val | val | val | val | vnode |];
    try discriminate; try (cbn; auto; fail).
  - rewrite step_render.
    destruct (render_config slot vnode this) as ((_ & _ & Hmax & _) & Hd & _).
    split; [assumption |]. split; [assumption |].
    destruct (lookup this vnode) as [| key entry | key v] eqn:L.
    + now rewrite render_bypass.
    + destruct (render_hit slot vnode this key entry L) as (_ & _ & Hkeys & _).
      intros k Hk. rewrite Hkeys. apply in_or_app.
      destruct (string_dec k key) as [-> | Hne]; [right; now left |].
      left. now apply In_remove_other.
    + destruct (render_miss slot vnode this key v L) as (_ & _ & _ & Hkeys & _).
      now rewrite Hkeys.
  - destruct (cacheVNode_unbounded this Hcap) as (_ & H). exact H.
  - destruct (cacheVNode_unbounded this Hcap) as (_ & H). exact H.
Qed.

Lemma run_unbounded ops this :
  capacity (max this) = None -> no_pruning ops = true ->
  destroyed_instances (run ops this) = destroyed_instances this /\
  max (run ops this) = max this /\
  (forall k, In k (keys this) -> In k (keys (run ops this))).
Proof.
  revert this. induction ops as [| op ops IH]; intros this Hcap Hn; simpl.
  - auto.
  - simpl in Hn. apply andb_true_iff in Hn. destruct Hn as (Hop & Hn).
    apply negb_true_iff in Hop.
    destruct (step_unbounded op this Hcap Hop) as (Hd & Hmax & Hkeys).
    destruct (IH (snd (step op this))) as (Hd' & Hmax' & Hkeys'); auto.
    { now rewrite Hmax. }
    repeat split; try congruence. auto.
Qed.

(** X10.  A store whose [max] does not count (unset, zero, the empty
    string, or a string [parseInt] cannot read) never evicts: as long as no
    watcher and no teardown runs, whatever is rendered and committed, no
    instance is destroyed and a key that has entered [keys] stays in it. *)
Theorem unbounded_never_evicts inc exc mx ops rest :
  capacity mx = None ->
  no_pruning (ops ++ rest) = true ->
  let before := run ops (created inc exc mx) in
  let after := run (ops ++ rest) (created inc exc mx) in
  destroyed_instances after = [] /\
  (forall k, In k (keys before) -> In k (keys after)).
Proof.
  intros Hcap Hn before after.
  unfold no_pruning in Hn. rewrite forallb_app in Hn.
  apply andb_true_iff in Hn. destruct Hn as (Hn1 & Hn2).
  destruct (run_unbounded ops (created inc exc mx) Hcap Hn1) as (Hd1 & Hmax1 & _).
  fold before in Hd1, Hmax1.
  subst after. rewrite run_app. fold before.
  destruct (run_unbounded rest before) as (Hd2 & _ & Hkeys); auto.
  { now rewrite Hmax1. }
  split; [| assumption]. now rewrite Hd2, Hd1.
Qed.

Lemma unbounded_never_evicts_witness :
  let after := run three_components (created None None (Some (MaxString "many"))) in
  destroyed_instances after = [] /\
  (forall k, In k [ "A"; "B" ] -> In k (keys after)).
Proof.
  apply (unbounded_never_evicts None None (Some (MaxString "many"))
           (firstn 4 three_components) (skipn 4 three_components));
    reflexivity.
Defined.

Lemma step_caches_nothing op this n :
  mounted_on_miss op this = true ->
  consistent this -> pending this ->
  capacity (max this) = Some n -> (n <= 0)%Z ->
  keys this = [] ->
  keys (snd (step op this)) = [].
Proof.
  intros Hm Hc Hp Hcap Hn Hkeys.
  assert (Hshrunk : forall this',
             recedes this this' -> keys this' = []).
  { intros this' Hr. destruct (keys this') as [| k rest] eqn:E; auto.
    assert (Hin : In k (keys this')) by (rewrite E; now left).
    apply (recedes_keys _ _ Hr) in Hin. now rewrite Hkeys in Hin. }
  assert (Hcommit : keys (snd (cacheVNode this)) = []).
  { destruct (vnodeToCache this) as [vnode |] eqn:Hv.
    - destruct (cacheVNode_commits this vnode Hc Hp Hv)
        as (key & this' & _ & _ & _ & E & _ & _ & Hover).
      rewrite E. cbn [snd].
      rewrite (over_max_capacity _ n) in Hover by assumption.
      rewrite Hkeys in Hover. cbn [List.length hd] in Hover.
      assert (Hlt : (n <? Z.of_nat 1)%Z = true) by (apply Z.ltb_lt; lia).
      rewrite Hlt in Hover. destruct Hover as (_ & Hk & _).
      rewrite Hk. cbn. rewrite Hkeys. cbn. now rewrite String.eqb_refl.
    - now rewrite cacheVNode_idle. }
  destruct op as [slot vnode | | | val | val | val | val | vnode |];
    try assumption.
  - rewrite step_render.
    destruct (lookup this vnode) as [| key entry | key v] eqn:L.
    + now rewrite render_bypass.
    + destruct (render_hit slot vnode this key entry L) as (He & _).
      assert (Hin : In key (keys this)) by (apply (lockstep _ Hc); congruence).
      now rewrite Hkeys in Hin.
    + destruct (render_miss slot vnode this key v L) as (_ & _ & _ & Hk & _).
      congruence.
  - destruct (pruneCache_returns (fun name => matches val name) this Hc)
      as (this' & E & _ & Hr & _).
    unfold step, include_changed. rewrite E. now apply Hshrunk.
  - destruct (pruneCache_returns (fun name => negb (matches val name)) this Hc)
      as (this' & E & _ & Hr & _).
    unfold step, exclude_changed. rewrite E. now apply Hshrunk.
  - destruct (destroyed_returns this Hc) as (this' & E & _ & Hr & _).
    unfold step. rewrite E. now apply Hshrunk.
Qed.

Lemma run_caches_nothing ops : forall start n,
  all_mounted ops start = true ->
  consistent start -> pending start ->
  capacity (max start) = Some n -> (n <= 0)%Z ->
  keys start = [] ->
  keys (run ops start) = [] /\ consistent (run ops start).
Proof.
  unfold all_mounted. induction ops as [| op ops IH];
    intros start n Hms Hc Hp Hcap Hn Hk; simpl; [auto |].
  simpl in Hms. apply andb_true_iff in Hms. destruct Hms as (Hop & Hms).
  destruct (step_consistent op start Hop Hc Hp) as (Hc1 & Hp1 & Hmax1).
  apply (IH _ n); [exact Hms | exact Hc1 | exact Hp1 | | exact Hn |].
  - now rewrite Hmax1.
  - now apply (step_caches_nothing op start n).
Qed.

(** X11.  A store whose [max] reads as zero or less (the string "0", a
    negative number) caches nothing: every commit evicts the entry it has
    just admitted, so that in every state the host can bring about [keys] is
    empty and no key has a live entry. *)
Theorem nonpositive_max_caches_nothing inc exc mx n ops :
  capacity mx = Some n -> (n <= 0)%Z ->
  all_mounted ops (created inc exc mx) = true ->
  let this := run ops (created inc exc mx) in
  keys this = [] /\ forall key, entry_at (cache this) key = None.
Proof.
  intros Hcap Hn Hm this.
  destruct (run_caches_nothing ops (created inc exc mx) n Hm) as (Hk & Hc);
    auto using created_consistent, created_pending.
  fold this in Hk, Hc. split; [assumption |].
  intros key. destruct (entry_at (cache this) key) as [entry |] eqn:E; auto.
  assert (Hin : In key (keys this)) by (apply (lockstep _ Hc); congruence).
  now rewrite Hk in Hin.
Qed.

Lemma nonpositive_max_caches_nothing_witness :
  let this := run three_components (created None None (Some (MaxString "0"))) in
  keys this = [] /\ forall key, entry_at (cache this) key = None.
Proof.
  apply (nonpositive_max_caches_nothing None None (Some (MaxString "0")) 0
           three_components); [reflexivity | lia | reflexivity].
Defined.

(** ** The cache object only grows *)

Lemma names_kept_refl c : names_kept c c.
Proof. intros key H. exact H. Qed.

Lemma names_kept_trans c1 c2 c3 :
  names_kept c1 c2 -> names_kept c2 c3 -> names_kept c1 c3.
Proof. intros H1 H2 key H. apply H2, H1, H. Qed.

Lemma names_kept_set c k v : names_kept c (JS.set c k v).
Proof.
  intros key H. apply JSFacts.In_for_in_keys.
  apply JSFacts.In_property_names_set. right.
  now apply JSFacts.In_for_in_keys.
Qed.

Lemma pruneCacheEntry_names_kept key current this :
  names_kept (cache this) (cache (snd (pruneCacheEntry key current this))).
Proof.
  unfold pruneCacheEntry, bind, modify, destroy, ret, throw.
  destruct (entry_at (cache this) key) as [entry |]; cbn;
    [destruct (tag_differs entry current);
     [destruct (CacheEntry.componentInstance entry) |] |];
    cbn; auto using names_kept_refl, names_kept_set.
Qed.

Lemma cacheVNode_names_kept this :
  names_kept (cache this) (cache (snd (cacheVNode this))).
Proof.
  unfold cacheVNode.
  destruct (vnodeToCache this) as [vnode |]; [| apply names_kept_refl].
  destruct (keyToCache this) as [key |]; [| apply names_kept_refl].
  unfold bind, modify. cbn.
  destruct (over_max _ _); [| cbn; apply names_kept_set].
  destruct (keys this ++ [ key ]) as [| first rest];
    [cbn; apply names_kept_set |].
  match goal with
  | |- context [pruneCacheEntry first ?cur ?s] =>
      pose proof (pruneCacheEntry_names_kept first cur s) as Hk;
      destruct (pruneCacheEntry first cur s) as [[[] |] this1]
  end; cbn in *;
    (eapply names_kept_trans; [apply names_kept_set | exact Hk]).
Qed.

Lemma step_names_kept op this :
  names_kept (cache this) (cache (snd (step op this))).
Proof.
  assert (Hloop : forall filter,
             names_kept (cache this) (cache (snd (pruneCache filter this)))).
  { intros filter. unfold pruneCache.
    apply (for_each_invariant
             (fun t => names_kept (cache this) (cache t)));
      [| apply names_kept_refl].
    intros key t Ht.
    destruct (entry_at (cache t) key) as [entry |]; auto.
    destruct (CacheEntry.name entry) as [name |]; auto.
    destruct (JS.truthy_string name && negb (filter name)); auto.
    eapply names_kept_trans; [exact Ht |].
    apply pruneCacheEntry_names_kept. }
  destruct op as [slot vnode | | | val | val | val | val | vnode |];
    try apply names_kept_refl.
  - rewrite step_render.
    destruct (render_config slot vnode this) as (_ & _ & ->).
    apply names_kept_refl.
  - apply cacheVNode_names_kept.
  - apply cacheVNode_names_kept.
  - apply Hloop.
  - apply Hloop.
  - unfold step, destroyed.
    apply (for_each_invariant
             (fun t => names_kept (cache this) (cache t)));
      [| apply names_kept_refl].
    intros key t Ht. eapply names_kept_trans; [exact Ht |].
    apply pruneCacheEntry_names_kept.
Qed.

(** X12.  Nothing is ever deleted from the [cache] object: removal writes
    [null] under the key and leaves the property in place.  Over any sequence
    of renders, hooks, watcher calls and teardowns, from any state and
    whether or not a call throws, a key that [for (key in cache)] visited
    before is one it visits afterwards. *)
Theorem cache_properties_never_deleted ops this key :
  In key (JS.for_in_keys (cache this)) ->
  In key (JS.for_in_keys (cache (run ops this))).
Proof.
  revert this. induction ops as [| op ops IH]; intros this H; simpl.
  - exact H.
  - apply IH. now apply step_names_kept.
Qed.

Lemma cache_properties_never_deleted_witness :
  let this := run three_components (created None None (Some (MaxNumber 2))) in
  let after :=
    run [ IncludeChanged (Some (PString "Gamma")); Destroyed ] this in
  entry_at (cache after) "B" = None /\
  In "B" (JS.for_in_keys (cache after)).
Proof.
  intros this after. split; [reflexivity |].
  apply (cache_properties_never_deleted
           [ IncludeChanged (Some (PString "Gamma")); Destroyed ] this "B").
  vm_compute. tauto.
Defined.

(** ** A comma-separated string and the array of its names *)

(** X13.  A string spec made of comma-free names joined by commas selects
    exactly the names the array of those names selects.  As [include] or
    [exclude] the two also admit the same components, provided the string
    is not empty: the empty string counts as no spec at all, the array
    holding the empty name does not. *)
Theorem comma_string_is_array names :
  names <> [] ->
  Forall (fun seg => JS.has_comma seg = false) names ->
  (forall name,
      matches (Some (PString (JS.join_comma names))) name =
      matches (Some (PArray names)) name) /\
  (JS.join_comma names <> ""%string ->
   forall name other,
     isAdmissible name (Some (PString (JS.join_comma names))) other =
     isAdmissible name (Some (PArray names)) other /\
     isAdmissible name other (Some (PString (JS.join_comma names))) =
     isAdmissible name other (Some (PArray names))).
Proof.
  intros Hne Hfree.
  assert (Hm : forall name,
             matches (Some (PString (JS.join_comma names))) name =
             matches (Some (PArray names)) name).
  { intros name. unfold matches. now rewrite split_join. }
  split; [exact Hm |].
  intros Hs name other.
  assert (Ht : JS.truthy_string (JS.join_comma names) = true).
  { destruct (JS.join_comma names); [congruence | reflexivity]. }
  unfold isAdmissible, not_included, excluded, pattern_set.
  rewrite Ht. destruct name as [n |]; [rewrite !Hm |]; auto.
Qed.

Lemma comma_string_is_array_witness :
  (forall name,
      matches (Some (PString "Alpha,Beta")) name =
      matches (Some (PArray [ "Alpha"; "Beta" ])) name) /\
  ("Alpha,Beta" <> ""%string ->
   forall name other,
     isAdmissible name (Some (PString "Alpha,Beta")) other =
     isAdmissible name (Some (PArray [ "Alpha"; "Beta" ])) other /\
     isAdmissible name other (Some (PString "Alpha,Beta")) =
     isAdmissible name other (Some (PArray [ "Alpha"; "Beta" ]))).
Proof.
  apply (comma_string_is_array [ "Alpha"; "Beta" ]).
  - discriminate.
  - repeat constructor.
Defined.

(** ** Where a call throws *)

(** X14.  An entry cached without a component instance cannot be removed
    while its tag differs from the current node's: [pruneCacheEntry] throws on
    [entry.componentInstance.$destroy()] before it has written anything, so
    the entry and its key stay.  When such an entry is the oldest of a full
    store, the commit that would evict it throws as well, after the new
    entry and key have been added and before [vnodeToCache] is cleared. *)
Theorem unmounted_entry_throws this key entry :
  entry_at (cache this) key = Some entry ->
  CacheEntry.componentInstance entry = None ->
  (forall current,
      tag_differs entry current = true ->
      pruneCacheEntry key current this = (Throw, this)) /\
  (forall vnode staged rest,
      vnodeToCache this = Some vnode -> keyToCache this = Some staged ->
      staged <> key -> keys this = key :: rest ->
      over_max (max this) (S (List.length (keys this))) = true ->
      tag_differs entry (_vnode this) = true ->
      cacheVNode this = (Throw, admitted this staged vnode)).
Proof.
  intros He Hi.
  assert (Hthrow : forall t current,
             entry_at (cache t) key = Some entry ->
             tag_differs entry current = true ->
             pruneCacheEntry key current t = (Throw, t)).
  { intros t current Het Ht. unfold pruneCacheEntry, bind.
    now rewrite Het, Ht, Hi. }
  split; [intros current; now apply Hthrow |].
  intros vnode staged rest Hv Hk Hne Hkeys Hover Ht.
  unfold cacheVNode. rewrite Hv, Hk. unfold bind at 1 2 3, modify. cbn.
  rewrite length_app, Nat.add_1_r. cbn [List.length].
  rewrite Hover, Hkeys. cbn [app].
  match goal with
  | |- context [pruneCacheEntry key ?cur ?s] =>
      rewrite (Hthrow s cur)
  end; [| cbn; rewrite entry_at_set_other by assumption; exact He
        | exact Ht].
  unfold admitted. now rewrite Hkeys.
Qed.

Lemma unmounted_entry_throws_witness :
  let unmounted :=
    VNode.with_componentInstance (component_vnode "A" "Alpha" "alpha" 1) None in
  let this :=
    run [ render_node unmounted; Updated;
          render_node (component_vnode "B" "Beta" "beta" 2) ]
        (created None None (Some (MaxNumber 1))) in
  let entry :=
    {| CacheEntry.name := Some "Alpha"; CacheEntry.tag := Some "alpha";
       CacheEntry.componentInstance := None |} in
  (forall current,
      tag_differs entry current = true ->
      pruneCacheEntry "A" current this = (Throw, this)) /\
  (forall vnode staged rest,
      vnodeToCache this = Some vnode -> keyToCache this = Some staged ->
      staged <> "A" -> keys this = "A" :: rest ->
      over_max (max this) (S (List.length (keys this))) = true ->
      tag_differs entry (_vnode this) = true ->
      cacheVNode this = (Throw, admitted this staged vnode)).
Proof.
  intros unmounted this entry.
  apply (unmounted_entry_throws this "A" entry); reflexivity.
Defined.

(** X15.  On a store that is consistent and whose candidate is mounted, the
    one call that can throw is [render], and it throws exactly when the node
    it is given is a component node the policy admits that carries no [data]
    object: the write [vnode.data.keepAlive = true] fails.  The hooks, the
    watchers, the teardown and every other render return. *)
Theorem throws_only_without_data op this :
  consistent this -> pending this ->
  fst (step op this) = Throw <->
  exists slot v,
    op = Render slot (Some v) /\
    lookup this (Some v) <> Bypass /\ VNode.data v = None.
Proof.
  intros Hc Hp.
  assert (Hno : forall slot v, op <> Render slot (Some v) ->
                fst (step op this) = Normal tt ->
                fst (step op this) = Throw <->
                exists slot v,
                  op = Render slot (Some v) /\
                  lookup this (Some v) <> Bypass /\ VNode.data v = None).
  { intros _ _ _ Hn. rewrite Hn. split; [discriminate |].
    intros (slot & v & -> & Hl & Hd). exfalso. revert Hn.
    unfold step, bind.
    pose proof (lookup_cases this v) as L.
    destruct (lookup this (Some v)) as [| key entry | key v'];
      [congruence | |].
    - destruct L as (co & Hco & -> & Ha & He).
      rewrite (render_cached slot v co this entry Hco Ha He). cbv zeta.
      rewrite Hd. discriminate.
    - destruct L as (co & -> & Hco & -> & Ha & He).
      rewrite (render_not_cached slot v co this Hco Ha He).
      rewrite Hd. discriminate. }
  assert (Hcommit : fst (cacheVNode this) = Normal tt).
  { destruct (cacheVNode_returns this Hc Hp) as (this' & E & _). now rewrite E. }
  assert (Hloop : forall filter, fst (pruneCache filter this) = Normal tt).
  { intros filter.
    destruct (pruneCache_returns filter this Hc) as (this' & E & _).
    now rewrite E. }
  destruct op as [slot vnode | | | val | val | val | val | vnode |];
    try (apply (Hno None (component_vnode "" "" "" 0));
         [discriminate | first [reflexivity | exact Hcommit | apply Hloop]]).
  - destruct vnode as [v |].
    + pose proof (lookup_cases this v) as L.
      destruct (lookup this (Some v)) as [| key entry | key v'] eqn:El.
      * assert (Hr : render slot (Some v) this = (Normal (Some v), this)).
        { destruct L as [Hco | (co & Hco & Ha)].
          - unfold render. now rewrite Hco.
          - now apply (render_not_admitted slot v co). }
        unfold step, bind, ret. rewrite Hr. cbn [fst]. split; [discriminate |].
        intros (slot' & v' & Heq & Hl & _). injection Heq as _ <-.
        congruence.
      * destruct L as (co & Hco & -> & Ha & He).
        unfold step, bind, ret.
        rewrite (render_cached slot v co this entry Hco Ha He). cbv zeta.
        destruct (VNode.data v) eqn:Hd; cbn [fst].
        -- split; [discriminate |].
           intros (slot' & v' & Heq & _ & Hd'). injection Heq as _ <-.
           congruence.
        -- split; [| reflexivity]. intros _. exists slot, v.
           split; [reflexivity |]. split; [congruence | assumption].
      * destruct L as (co & -> & Hco & -> & Ha & He).
        unfold step, bind, ret.
        rewrite (render_not_cached slot v co this Hco Ha He).
        destruct (VNode.data v) eqn:Hd; cbn [fst].
        -- split; [discriminate |].
           intros (slot' & v' & Heq & _ & Hd'). injection Heq as _ <-.
           congruence.
        -- split; [| reflexivity]. intros _. exists slot, v.
           split; [reflexivity |]. split; [congruence | assumption].
    + cbn. split; [discriminate |].
      intros (slot' & v' & Heq & _). discriminate.
  - apply (Hno None (component_vnode "" "" "" 0)); [discriminate |].
    destruct (destroyed_returns this Hc) as (this' & E & _).
    unfold step. now rewrite E.
Qed.

Lemma throws_only_without_data_witness :
  let this := run three_components (created None None (Some (MaxNumber 2))) in
  let bare :=
    {| VNode.tag := Some "beta"; VNode.key := Some "B"; VNode.data := None;
       VNode.componentOptions :=
         VNode.componentOptions (component_vnode "B" "Beta" "beta" 5);
       VNode.componentInstance := None |} in
  fst (step (render_node bare) this) = Throw <->
  exists slot v,
    render_node bare = Render slot (Some v) /\
    lookup this (Some v) <> Bypass /\ VNode.data v = None.
Proof.
  intros this bare.
  apply (throws_only_without_data (render_node bare) this);
    apply run_created_consistent; reflexivity.
Defined.

(** ** Entries are written once *)

(** X16.  No call overwrites a live entry.  Whatever a render, hook, watcher
    or teardown does to a key that holds an entry, afterwards the key holds
    that same entry (name, tag and instance) or none; in particular a commit
    never lands on a key that is cached. *)
Theorem live_entry_never_overwritten op this key entry :
  mounted_on_miss op this = true ->
  consistent this -> pending this ->
  entry_at (cache this) key = Some entry ->
  let this' := snd (step op this) in
  entry_at (cache this') key = Some entry \/
  entry_at (cache this') key = None.
Proof.
  intros Hm Hc Hp He this'. subst this'.
  assert (Hshrunk : forall t,
             recedes this t ->
             entry_at (cache t) key = Some entry \/
             entry_at (cache t) key = None).
  { intros t Hr. destruct (entry_at (cache t) key) as [e |] eqn:E; auto.
    apply (recedes_entries _ _ Hr) in E. left. congruence. }
  assert (Hcommit : entry_at (cache (snd (cacheVNode this))) key = Some entry \/
                    entry_at (cache (snd (cacheVNode this))) key = None).
  { destruct (vnodeToCache this) as [vnode |] eqn:Hv.
    - destruct (cacheVNode_commits this vnode Hc Hp Hv)
        as (staged & t & _ & Hfree & _ & E & _ & _ & Hover).
      rewrite E. cbn [snd].
      assert (Hne : staged <> key) by congruence.
      destruct (over_max _ _).
      + destruct Hover as (Hcache & _). rewrite Hcache, entry_at_set.
        destruct (_ =? key); [now right |]. cbn.
        rewrite entry_at_set_other by assumption. now left.
      + subst t. cbn. rewrite entry_at_set_other by assumption. now left.
    - rewrite cacheVNode_idle by assumption. now left. }
  destruct op as [slot vnode | | | val | val | val | val | vnode |];
    try (left; exact He); try exact Hcommit.
  - rewrite step_render.
    destruct (render_config slot vnode this) as (_ & _ & ->). now left.
  - destruct (pruneCache_returns (fun name => matches val name) this Hc)
      as (t & E & _ & Hr & _).
    unfold step, include_changed. rewrite E. now apply Hshrunk.
  - destruct (pruneCache_returns (fun name => negb (matches val name)) this Hc)
      as (t & E & _ & Hr & _).
    unfold step, exclude_changed. rewrite E. now apply Hshrunk.
  - destruct (destroyed_returns this Hc) as (t & E & _ & Hr & _).
    unfold step. rewrite E. now apply Hshrunk.
Qed.

Lemma live_entry_never_overwritten_witness :
  let this := run (firstn 7 three_components)
                  (created None None (Some (MaxNumber 2))) in
  let entry :=
    {| CacheEntry.name := Some "Alpha"; CacheEntry.tag := Some "alpha";
       CacheEntry.componentInstance := Some 1 |} in
  let this' := snd (step Updated this) in
  entry_at (cache this') "A" = Some entry \/
  entry_at (cache this') "A" = None.
Proof.
  intros this entry.
  apply (live_entry_never_overwritten Updated this "A" entry);
    [reflexivity | | | reflexivity];
    apply run_created_consistent; reflexivity.
Defined.

(** ** The cache holds what the policy admits *)

Lemma conforms_recedes this this' :
  recedes this this' -> conforms this -> conforms this'.
Proof.
  intros Hr (He & Hv).
  destruct (recedes_config _ _ Hr) as (Hi & Hx & _).
  destruct (recedes_staged _ _ Hr) as (Hs & _).
  split.
  - intros key entry E. rewrite Hi, Hx.
    apply (He key). now apply (recedes_entries _ _ Hr).
  - intros vnode E. rewrite Hi, Hx. apply Hv. congruence.
Qed.

Lemma step_conforms op this :
  fixed_policy [ op ] = true ->
  mounted_on_miss op this = true ->
  consistent this -> pending this ->
  conforms this -> conforms (snd (step op this)).
Proof.
  intros Hf Hm Hc Hp (He & Hv).
  assert (Hcommit : conforms (snd (cacheVNode this))).
  { destruct (vnodeToCache this) as [vnode |] eqn:Hs.
    - destruct (cacheVNode_commits this vnode Hc Hp Hs)
        as (staged & t & _ & _ & _ & E & Hnone & _ & Hover).
      rewrite E. cbn [snd].
      assert (Hadm : forall key entry,
                 entry_at (cache (admitted this staged vnode)) key = Some entry ->
                 isAdmissible (CacheEntry.name entry) (include this)
                              (exclude this) = true).
      { intros key entry. cbn. rewrite entry_at_set.
        destruct (staged =? key).
        - intros [= <-]. cbn. now apply Hv.
        - apply He. }
      split; [| intros v Ev; congruence].
      destruct (over_max _ _).
      + destruct Hover as (Hcache & _ & _ & (Hi & Hx & _) & _).
        cbn in Hi, Hx. intros key entry. rewrite Hi, Hx, Hcache, entry_at_set.
        destruct (_ =? key); [discriminate |]. apply Hadm.
      + subst t. exact Hadm.
    - rewrite cacheVNode_idle by assumption. cbn [snd].
      split; [exact He | intros v Ev; congruence]. }
  destruct op as [slot vnode | | | val | val | val | val | vnode |];
    try discriminate; try exact Hcommit.
  - rewrite step_render.
    destruct (render_config slot vnode this) as ((Hi & Hx & _) & _ & Hcache).
    split; [intros key entry; rewrite Hi, Hx, Hcache; apply He |].
    rewrite Hi, Hx.
    destruct (lookup this vnode) as [| key entry | key v] eqn:L.
    + rewrite render_bypass by assumption. exact Hv.
    + destruct (render_hit slot vnode this key entry L)
        as (_ & _ & _ & _ & _ & (Hs & _)).
      intros w Ew. apply Hv. congruence.
    + destruct (render_miss slot vnode this key v L)
        as (-> & _ & _ & _ & _ & _ & _ & staged & Hs & _ & Hco & _).
      intros w Ew. assert (w = staged) by congruence. subst w.
      rewrite Hco. pose proof (lookup_cases this v) as C. rewrite L in C.
      destruct C as (co & _ & -> & _ & Ha & _). exact Ha.
  - destruct (pruneCache_returns (fun name => matches val name) this Hc)
      as (t & E & _ & Hr & _).
    unfold step, include_changed. rewrite E.
    now apply (conforms_recedes this).
  - destruct (pruneCache_returns (fun name => negb (matches val name)) this Hc)
      as (t & E & _ & Hr & _).
    unfold step, exclude_changed. rewrite E.
    now apply (conforms_recedes this).
  - split; [exact He | exact Hv].
  - destruct (destroyed_returns this Hc) as (t & E & _ & Hr & _).
    unfold step. rewrite E. now apply (conforms_recedes this).
Qed.

Lemma step_policy op this :
  fixed_policy [ op ] = true ->
  consistent this -> pending this ->
  include (snd (step op this)) = include this /\
  exclude (snd (step op this)) = exclude this.
Proof.
  intros Hf Hc Hp.
  destruct op as [slot vnode | | | val | val | val | val | vnode |];
    try discriminate.
  - rewrite step_render.
    destruct (render_config slot vnode this) as ((Hi & Hx & _) & _). auto.
  - destruct (cacheVNode_returns this Hc Hp) as (t & E & _ & _ & (Hi & Hx & _) & _).
    unfold step, mounted. rewrite E. auto.
  - destruct (cacheVNode_returns this Hc Hp) as (t & E & _ & _ & (Hi & Hx & _) & _).
    unfold step, updated. rewrite E. auto.
  - destruct (pruneCache_returns (fun name => matches val name) this Hc)
      as (t & E & _ & Hr & _).
    destruct (recedes_config _ _ Hr) as (Hi & Hx & _).
    unfold step, include_changed. rewrite E. auto.
  - destruct (pruneCache_returns (fun name => negb (matches val name)) this Hc)
      as (t & E & _ & Hr & _).
    destruct (recedes_config _ _ Hr) as (Hi & Hx & _).
    unfold step, exclude_changed. rewrite E. auto.
  - cbn. auto.
  - destruct (destroyed_returns this Hc) as (t & E & _ & Hr & _).
    destruct (recedes_config _ _ Hr) as (Hi & Hx & _).
    unfold step. rewrite E. auto.
Qed.

Lemma run_conforms ops : forall this,
  fixed_policy ops = true ->
  all_mounted ops this = true ->
  consistent this -> pending this ->
  conforms this ->
  conforms (run ops this) /\
  include (run ops this) = include this /\
  exclude (run ops this) = exclude this.
Proof.
  unfold all_mounted. induction ops as [| op ops IH];
    intros this Hf Hm Hc Hp Hok; simpl; [auto |].
  simpl in Hf, Hm.
  apply andb_true_iff in Hf. destruct Hf as (Hop & Hf).
  apply andb_true_iff in Hm. destruct Hm as (Hmo & Hm).
  assert (Hop1 : fixed_policy [ op ] = true) by (simpl; now rewrite Hop).
  destruct (step_consistent op this Hmo Hc Hp) as (Hc1 & Hp1 & _).
  destruct (step_policy op this Hop1 Hc Hp) as (Hi & Hx).
  destruct (IH (snd (step op this))) as (H1 & H2 & H3); auto.
  { now apply step_conforms. }
  repeat split; try apply H1; congruence.
Qed.

(** X17.  While the props [include] and [exclude] keep the values the
    component was created with, the cache holds only what they admit: in
    every state the host can bring about, whatever was rendered, committed,
    pruned by a watcher call or torn down, the component name of each live
    entry passes the test [render] applies before it looks a node up. *)
Theorem cached_entries_admissible inc exc mx ops :
  fixed_policy ops = true ->
  all_mounted ops (created inc exc mx) = true ->
  let this := run ops (created inc exc mx) in
  include this = inc /\ exclude this = exc /\
  forall key entry,
    entry_at (cache this) key = Some entry ->
    isAdmissible (CacheEntry.name entry) inc exc = true.
Proof.
  intros Hf Hm this.
  destruct (run_conforms ops (created inc exc mx) Hf Hm)
    as ((He & _) & Hi & Hx);
    auto using created_consistent, created_pending.
  { split; [intros key entry E; discriminate | intros v E; discriminate]. }
  fold this in He, Hi, Hx. cbn in Hi, Hx.
  split; [assumption |]. split; [assumption |].
  rewrite Hi, Hx in He. exact He.
Qed.

Lemma cached_entries_admissible_witness :
  let this :=
    run (three_components ++ [ IncludeChanged (Some (PString "Gamma")) ])
        (created (Some (PString "Alpha,Gamma")) (Some (PArray [ "Beta" ]))
                 (Some (MaxNumber 2))) in
  include this = Some (PString "Alpha,Gamma") /\
  exclude this = Some (PArray [ "Beta" ]) /\
  forall key entry,
    entry_at (cache this) key = Some entry ->
    isAdmissible (CacheEntry.name entry)
      (Some (PString "Alpha,Gamma")) (Some (PArray [ "Beta" ])) = true.
Proof.
  apply (cached_entries_admissible
           (Some (PString "Alpha,Gamma")) (Some (PArray [ "Beta" ]))
           (Some (MaxNumber 2))
           (three_components ++ [ IncludeChanged (Some (PString "Gamma")) ]));
    reflexivity.
Defined.

(** ** A replaced specification, on a store that conforms *)

Lemma kept_nameless inc exc entry :
  JS.truthy (CacheEntry.name entry) = false -> kept inc exc entry = true.
Proof. intros H. unfold kept. now rewrite H. Qed.

Lemma fails_nameless filter entry :
  JS.truthy (CacheEntry.name entry) = false -> fails filter entry = false.
Proof.
  unfold fails. destruct (CacheEntry.name entry) as [name |]; [| reflexivity].
  cbn. now intros ->.
Qed.

Lemma pruneCache_by_kept filter keep this :
  consistent this ->
  (forall k entry,
      entry_at (cache this) k = Some entry ->
      fails filter entry = negb (keep entry)) ->
  exists this',
    pruneCache filter this = (Normal tt, this') /\
    (forall k entry,
        entry_at (cache this) k = Some entry ->
        entry_at (cache this') k = if keep entry then Some entry else None) /\
    keys this' =
      List.filter
        (fun k => match entry_at (cache this) k with
                  | Some entry => keep entry
                  | None => true
                  end) (keys this).
Proof.
  intros Hc Hfails.
  destruct (pruneCache_exact filter this Hc)
    as (this' & delta & E & _ & _ & Hent & Hkeys & _).
  exists this'. split; [assumption |]. split.
  - intros k entry He.
    rewrite Hent, (pruned_at_entry _ _ _ _ He), (Hfails k entry He), He.
    now destruct (keep entry).
  - rewrite Hkeys. apply filter_ext. intros k. unfold pruned_at.
    destruct (entry_at (cache this) k) as [entry |] eqn:He; [| reflexivity].
    rewrite (Hfails k entry He). apply negb_involutive.
Qed.

(** X18.  On a store whose named entries the specifications in force
    admit, replacing one specification prunes by both.  When [include] is
    replaced by a specification that is set, its watcher prunes exactly the
    live entries that have a name and that the new [include] and the
    [exclude] in force, taken together, do not admit; when [exclude] is
    replaced, its watcher prunes exactly those that the [include] in force
    and the new [exclude] do not admit.  An entry without a name is never
    pruned, whatever a watcher is handed. *)
Theorem replaced_spec_prunes_by_both this inc exc val :
  consistent this ->
  (forall k entry,
      entry_at (cache this) k = Some entry -> kept inc exc entry = true) ->
  (pattern_set val = true ->
   exists this',
     include_changed val this = (Normal tt, this') /\
     (forall k entry,
         entry_at (cache this) k = Some entry ->
         entry_at (cache this') k =
         if kept val exc entry then Some entry else None) /\
     keys this' = List.filter (kept_at val exc this) (keys this)) /\
  (exists this',
     exclude_changed val this = (Normal tt, this') /\
     (forall k entry,
         entry_at (cache this) k = Some entry ->
         entry_at (cache this') k =
         if kept inc val entry then Some entry else None) /\
     keys this' = List.filter (kept_at inc val this) (keys this)) /\
  (forall k entry,
      entry_at (cache this) k = Some entry ->
      JS.truthy (CacheEntry.name entry) = false ->
      entry_at (cache (snd (include_changed val this))) k = Some entry /\
      entry_at (cache (snd (exclude_changed val this))) k = Some entry).
Proof.
  intros Hc Hok.
  assert (Hparts : forall k entry,
             entry_at (cache this) k = Some entry ->
             kept inc None entry = true /\ kept None exc entry = true).
  { intros k entry He. apply andb_true_iff.
    rewrite <- kept_both. now apply (Hok k). }
  split; [| split].
  - intros Hset. unfold include_changed.
    apply (pruneCache_by_kept _ (kept val exc) this Hc).
    intros k entry He. destruct (Hparts k entry He) as (_ & Hx).
    now rewrite fails_include, (kept_both val exc), Hx, andb_true_r.
  - unfold exclude_changed.
    apply (pruneCache_by_kept _ (kept inc val) this Hc).
    intros k entry He. destruct (Hparts k entry He) as (Hi & _).
    now rewrite fails_exclude, (kept_both inc val), Hi.
  - intros k entry He Hn.
    assert (Hstay : forall filter,
               entry_at (cache (snd (pruneCache filter this))) k = Some entry).
    { intros filter.
      destruct (pruneCache_exact filter this Hc)
        as (this' & delta & E & _ & _ & Hent & _).
      rewrite E. cbn [snd].
      now rewrite Hent, (pruned_at_entry _ _ _ _ He), fails_nameless. }
    split; apply Hstay.
Qed.

Lemma replaced_spec_prunes_by_both_witness :
  let this :=
    run [ render_node (component_vnode "A" "a" "tag-a" 1); Updated;
          render_node (component_vnode "B" "b" "tag-b" 2); Updated;
          SetInclude (Some (PArray [ "b"; "c" ])) ]
        (created (Some (PString "a,b")) None None) in
  exists this',
    include_changed (Some (PArray [ "b"; "c" ])) this = (Normal tt, this') /\
    keys this' = [ "B" ].
Proof.
  intros this.
  destruct (replaced_spec_prunes_by_both this (Some (PString "a,b")) None
              (Some (PArray [ "b"; "c" ])))
    as ((this' & E & _ & Hkeys) & _).
  - apply run_created_consistent. reflexivity.
  - intros k entry He.
    assert (Hc : consistent this) by (apply run_created_consistent; reflexivity).
    assert (Hin : In k (keys this)) by (apply (lockstep _ Hc); congruence).
    destruct Hin as [<- | [<- | []]]; vm_compute in He;
      injection He as <-; reflexivity.
  - reflexivity.
  - exists this'. split; [exact E |]. rewrite Hkeys. reflexivity.
Defined.
